(** * Reliable file transfer over UDP: wire codec, CRC-32, receiver and sender

    A shallow embedding of the C sources

      - [src/common/crc32.c]     ([ru_crc32], [init_table])
      - [src/common/protocol.c]  ([pack], [unpack])
      - [src/common/util.c]      ([split])
      - [src/server/main.c]      (the receiver's ingress loop)
      - [src/client/main.c]      (the sender's three phases)

    Unsigned C integers are [Z] with the wrap-around written where the C
    code can wrap; octets are [Byte.byte]; C strings are lists of octets
    without the terminating NUL. *)

From Stdlib Require Import ZArith List Bool Lia Strings.Byte Strings.String.
Import ListNotations.
Local Open Scope Z_scope.

(** ** Octets and fixed-width integers *)

Definition b2z (b : byte) : Z := Z.of_N (Byte.to_N b).

Definition z2b (z : Z) : byte :=
  match Byte.of_N (Z.to_N (z mod 256)) with
  | Some b => b
  | None => x00
  end.

Definition u32 (z : Z) : Z := z mod 2 ^ 32.
Definition u64 (z : Z) : Z := z mod 2 ^ 64.

(** ** CRC-32 (crc32.c) *)

Module Crc32.

(** One turn of the inner loop of [init_table]:
    [if (c & 1) c = 0xEDB88320u ^ (c >> 1); else c >>= 1;] *)
Definition table_step (c : Z) : Z :=
  if Z.eqb (Z.land c 1) 0
  then Z.shiftr c 1
  else Z.lxor 0xEDB88320 (Z.shiftr c 1).

(** [for (int j = 0; j < 8; j++) ...] *)
Fixpoint table_loop (j : nat) (c : Z) : Z :=
  match j with
  | O => c
  | S j' => table_loop j' (table_step c)
  end.

(** [init_table]: [table[i]] for [i = 0 .. 255]. *)
Definition init_table : list Z :=
  map (fun i => table_loop 8 (Z.of_nat i)) (seq 0 256).

Definition table (i : Z) : Z := nth (Z.to_nat i) init_table 0.

(** Body of the loop of [ru_crc32]:
    [c = table[(c ^ data[i]) & 0xFFu] ^ (c >> 8);] *)
Definition crc_update (c : Z) (d : byte) : Z :=
  Z.lxor (table (Z.land (Z.lxor c (b2z d)) 0xFF)) (Z.shiftr c 8).

Definition ru_crc32 (data : list byte) : Z :=
  Z.lxor (fold_left crc_update data 0xFFFFFFFF) 0xFFFFFFFF.

(** The reference: reflected CRC-32 of IEEE 802.3, one bit at a time.
    The register starts at [0xFFFFFFFF]; each octet is xor-ed into its low
    end and the register is divided by the reflected polynomial
    [0xEDB88320] eight times; the result is xor-ed with [0xFFFFFFFF]. *)
Definition reflected_poly : Z := 0xEDB88320.

Definition crc32_bit (r : Z) : Z :=
  if Z.odd r then Z.lxor (Z.shiftr r 1) reflected_poly else Z.shiftr r 1.

Definition crc32_octet (r : Z) (d : byte) : Z :=
  Nat.iter 8 crc32_bit (Z.lxor r (b2z d)).

Definition crc32_bitwise (data : list byte) : Z :=
  Z.lxor (fold_left crc32_octet data 0xFFFFFFFF) 0xFFFFFFFF.

End Crc32.

(** ** Wire codec (protocol.h, protocol.c) *)

Module Protocol.

Definition VERSION : byte := x01.
Definition HEADER_SIZE : Z := 20.

(** [PacketType] *)
Definition PT_HANDSHAKE : byte := x00.
Definition PT_HANDSHAKE_ACK : byte := x01.
Definition PT_DATA : byte := x02.
Definition PT_ACK : byte := x03.
Definition PT_FIN : byte := x04.
Definition PT_FIN_ACK : byte := x05.
Definition PT_ERROR : byte := x06.

(** ['R'] and ['U'] *)
Definition MAGIC0 : byte := x52.
Definition MAGIC1 : byte := x55.

(** [struct Packet].  [payload] and [payload_size] of the C struct are one
    list here: [payload_size] is its length, and a NULL [payload] is the
    empty list. *)
Record Packet : Set := mkPacket {
  magic0 : byte;
  magic1 : byte;
  version : byte;
  ptype : byte;
  seq : Z;        (* uint32_t *)
  total : Z;      (* uint32_t *)
  length : Z;     (* uint16_t *)
  window : Z;     (* uint16_t *)
  checksum : Z;   (* uint32_t *)
  payload : list byte
}.

Definition payload_size (p : Packet) : Z := Z.of_nat (List.length (payload p)).

(** [memset(&p, 0, sizeof(p))] followed by the magic, version and type, as
    every caller of [pack] builds its packet. *)
Definition blank (t : byte) : Packet :=
  mkPacket MAGIC0 MAGIC1 VERSION t 0 0 0 0 0 [].

(** [htons] / [htonl] followed by [memcpy] into the buffer: the octets of a
    16-bit and of a 32-bit value, most significant first. *)
Definition be16 (z : Z) : list byte :=
  [z2b (z / 2 ^ 8); z2b z].

Definition be32 (z : Z) : list byte :=
  [z2b (z / 2 ^ 24); z2b (z / 2 ^ 16); z2b (z / 2 ^ 8); z2b z].

(** [memcpy] out of the buffer followed by [ntohs] / [ntohl]. *)
Definition rd16 (b0 b1 : byte) : Z :=
  b2z b0 * 2 ^ 8 + b2z b1.

Definition rd32 (b0 b1 b2 b3 : byte) : Z :=
  b2z b0 * 2 ^ 24 + b2z b1 * 2 ^ 16 + b2z b2 * 2 ^ 8 + b2z b3.

(** The checksum [pack] writes: computed for a DATA packet whose field is
    still zero and whose payload is not empty, copied otherwise. *)
Definition wire_checksum (p : Packet) : Z :=
  if Byte.eqb (ptype p) PT_DATA && (checksum p =? 0) && (0 <? payload_size p)
  then Crc32.ru_crc32 (payload p)
  else checksum p.

(** [pack]; the result has [HEADER_SIZE + payload_size] octets.  ([malloc]
    is taken to succeed.) *)
Definition pack (p : Packet) : list byte :=
  [magic0 p; magic1 p; version p; ptype p]
  ++ be32 (seq p)
  ++ be32 (total p)
  ++ be16 (payload_size p)
  ++ be16 (window p)
  ++ be32 (wire_checksum p)
  ++ payload p.

(** The return value of [unpack]: [0] with the packet filled in, or a
    negative code. *)
Inductive unpack_error : Set :=
| ShortHeader        (* -1: short packet *)
| BadMagic           (* -2: bad magic/version *)
| TruncatedPayload.  (* -3: length mismatch *)

Inductive unpack_result : Set :=
| Unpacked (p : Packet)
| Failed (e : unpack_error).

Definition error_code (e : unpack_error) : Z :=
  match e with
  | ShortHeader => -1
  | BadMagic => -2
  | TruncatedPayload => -3
  end.

(** [unpack buf n p], where [n] is the length of [buf]. *)
Definition unpack (buf : list byte) : unpack_result :=
  let n := Z.of_nat (List.length buf) in
  if n <? HEADER_SIZE then Failed ShortHeader else
  match buf with
  | m0 :: m1 :: v :: t
      :: s0 :: s1 :: s2 :: s3
      :: t0 :: t1 :: t2 :: t3
      :: l0 :: l1
      :: w0 :: w1
      :: c0 :: c1 :: c2 :: c3 :: body =>
      if negb (Byte.eqb m0 MAGIC0) || negb (Byte.eqb m1 MAGIC1)
         || negb (Byte.eqb v VERSION)
      then Failed BadMagic
      else
        let len := rd16 l0 l1 in
        if HEADER_SIZE + len >? n then Failed TruncatedPayload
        else Unpacked
               (mkPacket m0 m1 v t
                  (rd32 s0 s1 s2 s3) (rd32 t0 t1 t2 t3)
                  len (rd16 w0 w1) (rd32 c0 c1 c2 c3)
                  (firstn (Z.to_nat len) body))
  | _ => Failed ShortHeader
  end.

(** [buf[i]] *)
Definition octet (buf : list byte) (i : nat) : byte := nth i buf x00.

Definition declared_length (buf : list byte) : Z :=
  rd16 (octet buf 12) (octet buf 13).

Definition magic_ok (buf : list byte) : bool :=
  Byte.eqb (octet buf 0) MAGIC0 && Byte.eqb (octet buf 1) MAGIC1
  && Byte.eqb (octet buf 2) VERSION.

(** A well-formed datagram, read off the octets: at least a header, the
    right magic and version, and a length field equal to the number of
    octets that follow the header. *)
Definition well_formed (buf : list byte) : bool :=
  (HEADER_SIZE <=? Z.of_nat (List.length buf))
  && magic_ok buf
  && (declared_length buf =? Z.of_nat (List.length buf) - HEADER_SIZE).

(** The one kind of packet [pack] does not copy the checksum of. *)
Definition checksum_filled_in (p : Packet) : bool :=
  Byte.eqb (ptype p) PT_DATA && (checksum p =? 0) && (0 <? payload_size p)
  && negb (Crc32.ru_crc32 (payload p) =? 0).

(** The buffer with the four octets of the checksum field replaced. *)
Definition with_checksum_octets (buf chk : list byte) : list byte :=
  firstn 16 buf ++ firstn 4 chk ++ skipn 20 buf.

Definition set_checksum (c : Z) (p : Packet) : Packet :=
  mkPacket (magic0 p) (magic1 p) (version p) (ptype p) (seq p) (total p)
    (length p) (window p) c (payload p).

(** A buffer is either shorter than a header or starts with twenty octets. *)
Inductive datagram_view : list byte -> Prop :=
| view_short (buf : list byte) :
    Z.of_nat (List.length buf) < HEADER_SIZE -> datagram_view buf
| view_header (m0 m1 v t s0 s1 s2 s3 t0 t1 t2 t3 l0 l1 w0 w1 c0 c1 c2 c3 : byte)
    (body : list byte) :
    datagram_view
      (m0 :: m1 :: v :: t :: s0 :: s1 :: s2 :: s3 :: t0 :: t1 :: t2 :: t3
          :: l0 :: l1 :: w0 :: w1 :: c0 :: c1 :: c2 :: c3 :: body).

(** What [unpack] reads from the octets [pack] wrote: every field in the
    width it has on the wire, and as many payload octets as the 16-bit
    length field says. *)
Definition as_on_wire (p : Packet) : Packet :=
  mkPacket (magic0 p) (magic1 p) (version p) (ptype p)
    (seq p mod 2 ^ 32) (total p mod 2 ^ 32)
    (payload_size p mod 2 ^ 16) (window p mod 2 ^ 16)
    (wire_checksum p mod 2 ^ 32)
    (firstn (Z.to_nat (payload_size p mod 2 ^ 16)) (payload p)).

(** A packet whose fields are within their C types and whose payload fits
    the length field. *)
Definition fits_wire (p : Packet) : bool :=
  (0 <=? seq p) && (seq p <? 2 ^ 32)
  && (0 <=? total p) && (total p <? 2 ^ 32)
  && (0 <=? window p) && (window p <? 2 ^ 16)
  && (0 <=? checksum p) && (checksum p <? 2 ^ 32)
  && (payload_size p <? 2 ^ 16).

End Protocol.

(** ** C strings and the helpers of util.c *)

Module Util.

Definition cstr (s : string) : list byte := list_byte_of_string s.

(** The C string a buffer holds: the octets before the first NUL. *)
Fixpoint c_string (buf : list byte) : list byte :=
  match buf with
  | [] => []
  | c :: rest => if Byte.eqb c x00 then [] else c :: c_string rest
  end.

(** [strcmp(a, b) == 0] *)
Fixpoint streq (a b : list byte) : bool :=
  match a, b with
  | [], [] => true
  | x :: a', y :: b' => Byte.eqb x y && streq a' b'
  | _, _ => false
  end.

(** [strncpy(dst, src, size - 1); dst[size - 1] = '\0';] and
    [snprintf(dst, size, ...)]: at most [size - 1] characters are kept. *)
Definition bounded (size : nat) (s : list byte) : list byte :=
  firstn (size - 1) s.

(** [split]: [end] walks the string; at each [delim] the characters since
    [start] become one part; the characters after the last [delim] are the
    last part.  [*count] is the length of the result.  ([malloc] is taken
    to succeed.) *)
Fixpoint split_from (part s : list byte) (delim : byte) : list (list byte) :=
  match s with
  | [] => [part]
  | c :: rest =>
      if Byte.eqb c delim
      then part :: split_from [] rest delim
      else split_from (part ++ [c]) rest delim
  end.

Definition split (s : list byte) (delim : byte) : list (list byte) :=
  split_from [] s delim.

(** [atoll] of the C library: white space is skipped, an optional sign is
    read, then decimal digits as long as there are any; no digits give 0.
    A value out of range is clamped as [strtoll] does. *)
Definition isspace (c : byte) : bool :=
  Byte.eqb c x20 || ((9 <=? b2z c) && (b2z c <=? 13)).

Definition isdigit (c : byte) : bool :=
  (48 <=? b2z c) && (b2z c <=? 57).

Fixpoint skip_spaces (s : list byte) : list byte :=
  match s with
  | c :: rest => if isspace c then skip_spaces rest else s
  | [] => []
  end.

Fixpoint digits_value (acc : Z) (s : list byte) : Z :=
  match s with
  | c :: rest =>
      if isdigit c then digits_value (acc * 10 + (b2z c - 48)) rest else acc
  | [] => acc
  end.

Definition LLONG_MAX : Z := 2 ^ 63 - 1.
Definition LLONG_MIN : Z := - 2 ^ 63.

Definition clamp_llong (z : Z) : Z := Z.max LLONG_MIN (Z.min LLONG_MAX z).

Definition atoll (s : list byte) : Z :=
  match skip_spaces s with
  | c :: rest =>
      if Byte.eqb c x2d then clamp_llong (- digits_value 0 rest)
      else if Byte.eqb c x2b then clamp_llong (digits_value 0 rest)
      else clamp_llong (digits_value 0 (c :: rest))
  | [] => 0
  end.

(** The decimal digits [printf("%u")] and ["%zu"] write. *)
Fixpoint utoa_digits (fuel : nat) (n : Z) (acc : list byte) : list byte :=
  match fuel with
  | O => acc
  | S fuel' =>
      let acc' := z2b (48 + n mod 10) :: acc in
      if n / 10 =? 0 then acc' else utoa_digits fuel' (n / 10) acc'
  end.

Definition utoa (n : Z) : list byte := utoa_digits 20 n [].

(** Whether [atoll] finds a number to read: after the white space and an
    optional sign comes a digit. *)
Definition starts_with_number (s : list byte) : bool :=
  match skip_spaces s with
  | c :: rest =>
      if Byte.eqb c x2d || Byte.eqb c x2b
      then match rest with
           | d :: _ => isdigit d
           | [] => false
           end
      else isdigit c
  | [] => false
  end.

(** A field without any decimal digit. *)
Definition no_digit (s : list byte) : bool :=
  forallb (fun c => negb (isdigit c)) s.

(** The parts put together again, one [delim] between neighbours. *)
Fixpoint join (delim : byte) (parts : list (list byte)) : list byte :=
  match parts with
  | [] => []
  | part :: rest =>
      match rest with
      | [] => part
      | _ :: _ => part ++ delim :: join delim rest
      end
  end.

(** How often [c] occurs in [s]. *)
Definition occurrences (c : byte) (s : list byte) : nat :=
  List.length (filter (Byte.eqb c) s).

End Util.

(** ** The receiver (server/main.c) *)

Module Server.
Import Util.

Record Args : Set := mkArgs {
  port : Z;
  outdir : list byte;
  window : Z      (* uint16_t *)
}.

(** [struct Session].  [ofs] is the open output file, seen as the octets
    written to it so far; a session in the table always has it open. *)
Record Session : Set := mkSession {
  key : list byte;
  ofs : list byte;
  filename : list byte;
  expected : Z;        (* size_t *)
  total : Z;           (* size_t *)
  received : Z;        (* size_t *)
  active : Z;
  target_path : list byte;
  session_id : Z;      (* uint32_t *)
  last_activity : Z    (* uint64_t *)
}.

(** [Session sessions[100]] *)
Definition MAX_SESSIONS : Z := 100.

(** The variables of [main] that live across iterations of its loop;
    [session_count] is the length of [sessions]. *)
Record State : Set := mkState {
  sessions : list Session;
  last_cleanup : Z
}.

(** What one turn of the loop gets from outside: the result of [recvfrom]
    (no datagram, an error, or a datagram of at least one octet with the
    [addr_key] of its source), the values [ms_since(0)] returns during the
    turn, and whether [fopen] succeeds. *)
Inductive event : Set :=
| WouldBlock (now sweep_now : Z)
| RecvError
| Datagram (from : list byte) (buf : list byte) (clock clock' : Z)
    (fopen_ok : bool).

(** A datagram handed to [sendto]: the destination and the packet given to
    [pack]. *)
Definition sent : Set := (list byte * Protocol.Packet)%type.

Fixpoint find_session (ss : list Session) (k : list byte) : option Session :=
  match ss with
  | [] => None
  | s :: rest => if streq (key s) k then Some s else find_session rest k
  end.

(** Writing through the pointer [find_session] returned. *)
Fixpoint update_session (f : Session -> Session) (ss : list Session)
  (k : list byte) : list Session :=
  match ss with
  | [] => []
  | s :: rest =>
      if streq (key s) k then f s :: rest
      else s :: update_session f rest k
  end.

(** [cleanup_old_session], and the removal on FIN: the first session with
    this key leaves the table, the later ones move down. *)
Fixpoint cleanup_old_session (ss : list Session) (k : list byte)
  : list Session :=
  match ss with
  | [] => []
  | s :: rest =>
      if streq (key s) k then rest else s :: cleanup_old_session rest k
  end.

(** [cleanup_inactive_sessions]: [now - last_activity > 30000] in
    [uint64_t]. *)
Definition cleanup_inactive_sessions (now : Z) (ss : list Session)
  : list Session :=
  filter (fun s => negb (30000 <? u64 (now - last_activity s))) ss.

Definition error_packet (msg : string) : Protocol.Packet :=
  Protocol.mkPacket Protocol.MAGIC0 Protocol.MAGIC1 Protocol.VERSION
    Protocol.PT_ERROR 0 0 0 0 0 (cstr msg).

(** [ack.seq = (s->expected > 0) ? s->expected - 1 : 0;] stored in a
    [uint32_t]. *)
Definition ack_seq (exp : Z) : Z :=
  u32 (if 0 <? exp then exp - 1 else 0).

(** The ACK packet: [memset], magic, version, [PT_ACK] and the [seq]. *)
Definition cumulative_ack (n : Z) : Protocol.Packet :=
  Protocol.mkPacket Protocol.MAGIC0 Protocol.MAGIC1 Protocol.VERSION
    Protocol.PT_ACK n 0 0 0 0 [].

Definition ack_packet (exp : Z) : Protocol.Packet :=
  cumulative_ack (ack_seq exp).

Definition handshake_ack (a : Args) (s : Session) : Protocol.Packet :=
  Protocol.mkPacket Protocol.MAGIC0 Protocol.MAGIC1 Protocol.VERSION
    Protocol.PT_HANDSHAKE_ACK 0 (u32 (total s)) 0 (window a) 0 [].

(** The session a handshake sets up. *)
Definition new_session (a : Args) (k : list byte) (parts : list (list byte))
  (clock clock' : Z) : Session :=
  let fname := bounded 256 (nth 0 parts []) in
  let sid := u32 clock' in
  let unique :=
    bounded 512 (fname ++ cstr "_" ++ utoa sid ++ cstr "_" ++ k) in
  mkSession (bounded 256 k) [] fname
    0 (u64 (atoll (nth 2 parts []))) 0 1
    (bounded 1024 (outdir a ++ cstr "/" ++ unique))
    sid clock.

(** The handshake metadata: the payload as a C string ([meta]), split at
    ['|'] ([parts], [parts_count] being its length). *)
Definition metadata (p : Protocol.Packet) : list (list byte) :=
  split (c_string (Protocol.payload p)) x7c.

Definition on_handshake (a : Args) (st : State) (k : list byte)
  (p : Protocol.Packet) (clock clock' : Z) (fopen_ok : bool)
  : State * list sent :=
  let parts := metadata p in
  if Z.of_nat (List.length parts) <? 5
  then (st, [(k, error_packet "bad handshake")])
  else
    let ss := cleanup_old_session (sessions st) k in
    if MAX_SESSIONS <=? Z.of_nat (List.length ss)
    then (mkState ss (last_cleanup st), [])
    else
      let s := new_session a k parts clock clock' in
      if fopen_ok
      then (mkState (ss ++ [s]) (last_cleanup st), [(k, handshake_ack a s)])
      else (mkState ss (last_cleanup st), []).

Definition touch (clock : Z) (s : Session) : Session :=
  mkSession (key s) (ofs s) (filename s) (expected s) (total s) (received s)
    (active s) (target_path s) (session_id s) clock.

(** [fwrite] of the payload (taken to write all of it), [expected++],
    [received++]. *)
Definition commit (data : list byte) (s : Session) : Session :=
  mkSession (key s) (ofs s ++ data) (filename s)
    (u64 (expected s + 1)) (total s) (u64 (received s + 1))
    (active s) (target_path s) (session_id s) (last_activity s).

Definition on_data (st : State) (k : list byte) (p : Protocol.Packet)
  (clock : Z) : State * list sent :=
  match find_session (sessions st) k with
  | None => (st, [(k, error_packet "no session")])
  | Some s0 =>
      let s := touch clock s0 in
      if negb (Crc32.ru_crc32 (Protocol.payload p) =? Protocol.checksum p)
      then (mkState (update_session (touch clock) (sessions st) k)
              (last_cleanup st),
            [(k, ack_packet (expected s))])
      else
        let s' := if Protocol.seq p =? expected s
                  then commit (Protocol.payload p) s else s in
        (mkState (update_session (fun _ => s') (sessions st) k)
           (last_cleanup st),
         [(k, ack_packet (expected s'))])
  end.

Definition on_fin (st : State) (k : list byte) : State * list sent :=
  (mkState (cleanup_old_session (sessions st) k) (last_cleanup st),
   [(k, Protocol.blank Protocol.PT_FIN_ACK)]).

(** One turn of [while (1)]. *)
Definition server_step (a : Args) (st : State) (e : event)
  : State * list sent :=
  match e with
  | WouldBlock now sweep_now =>
      if 10000 <? u64 (now - last_cleanup st)
      then (mkState (cleanup_inactive_sessions sweep_now (sessions st)) now, [])
      else (st, [])
  | RecvError => (st, [])
  | Datagram k buf clock clock' fopen_ok =>
      match Protocol.unpack buf with
      | Protocol.Unpacked p =>
          if Byte.eqb (Protocol.ptype p) Protocol.PT_HANDSHAKE
          then on_handshake a st k p clock clock' fopen_ok
          else if Byte.eqb (Protocol.ptype p) Protocol.PT_DATA
          then on_data st k p clock
          else if Byte.eqb (Protocol.ptype p) Protocol.PT_FIN
          then on_fin st k
          else (st, [])
      | Protocol.Failed _ => (st, [])
      end
  end.

(** The loop over a sequence of turns: the final state and everything
    sent. *)
Fixpoint run (a : Args) (st : State) (evs : list event) : State * list sent :=
  match evs with
  | [] => (st, [])
  | e :: rest =>
      let (st1, out1) := server_step a st e in
      let (st2, out2) := run a st1 rest in
      (st2, out1 ++ out2)
  end.

(** The state when the loop is entered. *)
Definition initial (clock : Z) : State := mkState [] clock.

Definition state_after (a : Args) (clock : Z) (evs : list event) : State :=
  fst (run a (initial clock) evs).

(** A sender that keeps to the total it declared: a DATA datagram for an
    existing session carries a sequence number below that session's
    [total]. *)
Definition within_total (st : State) (e : event) : bool :=
  match e with
  | Datagram k buf _ _ _ =>
      match Protocol.unpack buf with
      | Protocol.Unpacked p =>
          if Byte.eqb (Protocol.ptype p) Protocol.PT_DATA
          then match find_session (sessions st) k with
               | Some s => Protocol.seq p <? total s
               | None => true
               end
          else true
      | Protocol.Failed _ => true
      end
  | _ => true
  end.

Fixpoint all_within_total (a : Args) (st : State) (evs : list event) : bool :=
  match evs with
  | [] => true
  | e :: rest =>
      within_total st e && all_within_total a (fst (server_step a st e)) rest
  end.

(** What holds of every session the loop ever holds: the counters agree
    and are at most [2^32], since a sequence number is a [uint32_t]. *)
Definition session_ok (s : Session) : Prop :=
  0 <= expected s <= 2 ^ 32 /\ received s = expected s.

Definition state_ok (st : State) : Prop :=
  Forall session_ok (sessions st)
  /\ Z.of_nat (List.length (sessions st)) <= MAX_SESSIONS.

(** A session that has not gone past its total. *)
Definition bounded_by_total (s : Session) : Prop :=
  0 <= expected s <= total s /\ total s < 2 ^ 64.

(** A source key that fits [key[256]], as every key [addr_key] writes
    does. *)
Definition key_fits (e : event) : bool :=
  match e with
  | Datagram k _ _ _ _ => Nat.leb (List.length k) 255
  | _ => true
  end.

(** The session left by a DATA packet with a valid checksum. *)
Definition after_data (p : Protocol.Packet) (clock : Z) (s : Session)
  : Session :=
  if Protocol.seq p =? expected s
  then commit (Protocol.payload p) (touch clock s)
  else touch clock s.

End Server.

(** ** The sender (client/main.c) *)

Module Client.
Import Util.

Record Args : Set := mkArgs {
  host : list byte;
  port : Z;
  file : list byte;
  chunk : Z;        (* size_t *)
  window : Z;       (* uint16_t *)
  timeout_ms : Z;   (* int *)
  max_retries : Z   (* int *)
}.

(** [size_t total = (filesize + args.chunk - 1) / args.chunk;] for
    [args.chunk != 0].  (For [args.chunk == 0] the C code divides by zero:
    [main] ends there with [DivisionByZero].) *)
Definition total_packets (filesize chunk : Z) : Z :=
  u64 (filesize + chunk - 1) / chunk.

(** The file name after the last ['/'], else after the last ['\'], else
    the whole path. *)
Fixpoint strrchr (s : list byte) (c : byte) : option (list byte) :=
  match s with
  | [] => None
  | x :: rest =>
      match strrchr rest c with
      | Some tail => Some tail
      | None => if Byte.eqb x c then Some rest else None
      end
  end.

Definition basename (path : list byte) : list byte :=
  match strrchr path x2f with
  | Some name => name
  | None =>
      match strrchr path x5c with
      | Some name => name
      | None => path
      end
  end.

(** ["%s|%ld|%zu|%zu|%d"] into [meta[1024]]. *)
Definition handshake_meta (a : Args) (filesize total : Z) : list byte :=
  bounded 1024
    (basename (file a) ++ cstr "|" ++ utoa filesize ++ cstr "|" ++ utoa total
       ++ cstr "|" ++ utoa (chunk a) ++ cstr "|" ++ utoa (window a)).

Definition handshake_packet (a : Args) (filesize total : Z)
  : Protocol.Packet :=
  Protocol.mkPacket Protocol.MAGIC0 Protocol.MAGIC1 Protocol.VERSION
    Protocol.PT_HANDSHAKE 0 0 0 0 0 (handshake_meta a filesize total).

(** [chunks[i]]: [len] octets of the file from offset [i * chunk]. *)
Definition chunk_at (data : list byte) (chunk : Z) (i : nat) : list byte :=
  let filesize := Z.of_nat (List.length data) in
  let off := Z.of_nat i * chunk in
  let len := if off + chunk >? filesize then filesize - off else chunk in
  firstn (Z.to_nat len) (skipn (Z.to_nat off) data).

Definition prepare_chunks (data : list byte) (chunk total : Z)
  : list (option (list byte)) :=
  map (fun i => Some (chunk_at data chunk i)) (List.seq 0 (Z.to_nat total)).

(** The variables of the send loop.  A freed chunk is [None]. *)
Record SendState : Set := mkSend {
  base : Z;              (* size_t *)
  nextseq : Z;           (* size_t *)
  retries : Z;           (* int *)
  timer_running : bool;
  timer_t0 : Z;          (* uint64_t *)
  chunks : list (option (list byte))
}.

Definition start (cs : list (option (list byte))) : SendState :=
  mkSend 0 0 0 false 0 cs.

(** The DATA packet for sequence number [s], for a chunk that is still
    allocated.  (A chunk is freed before it was sent only after an ACK
    from beyond the window; the C code then transmits octets that were
    never written, which is the fault [FreedChunkSent]: [send_loop] ends
    before such a packet.) *)
Definition data_packet (a : Args) (total : Z) (cs : list (option (list byte)))
  (s : Z) : Protocol.Packet :=
  Protocol.mkPacket Protocol.MAGIC0 Protocol.MAGIC1 Protocol.VERSION
    Protocol.PT_DATA (u32 s) (u32 total) 0 (window a) 0
    match nth (Z.to_nat s) cs None with
    | Some c => c
    | None => []
    end.

(** What one turn of the send loop gets from outside: the octets
    [recvfrom] puts into [rbuf], if any, and the clock at each place it is
    read. *)
Record tick : Set := mkTick {
  inbound : option (list byte);
  t_arm : Z;
  t_ack : Z;
  t_check : Z;
  t_rearm : Z
}.

(** The inner loop
    [while (nextseq < total && nextseq < base + args.window)].
    Each turn increments [nextseq], so [total - nextseq] turns are enough;
    [fuel] is set to that by [gbn_turn]. *)
Fixpoint fill_window (fuel : nat) (a : Args) (total : Z) (t : tick)
  (st : SendState) : SendState * list Protocol.Packet :=
  match fuel with
  | O => (st, [])
  | S fuel' =>
      if (nextseq st <? total) && (nextseq st <? base st + window a)
      then
        let d := data_packet a total (chunks st) (nextseq st) in
        let arm := (base st =? nextseq st) && negb (timer_running st) in
        let st1 :=
          mkSend (base st) (nextseq st + 1) (retries st)
            (if arm then true else timer_running st)
            (if arm then t_arm t else timer_t0 st)
            (chunks st) in
        let (st2, out) := fill_window fuel' a total t st1 in
        (st2, d :: out)
      else (st, [])
  end.

(** [free(chunks[s]); chunks[s] = NULL;] for [s] in [[lo, hi)], within
    the array.  (An [s] at or beyond [total] is outside the array in C,
    which is the fault [FreeOutOfBounds]: [send_loop] ends at such a
    turn.) *)
Definition free_chunks (lo hi : Z) (cs : list (option (list byte)))
  : list (option (list byte)) :=
  map (fun ic : nat * option (list byte) =>
         let (i, c) := ic in
         if (lo <=? Z.of_nat i) && (Z.of_nat i <? hi) then None else c)
    (combine (List.seq 0 (List.length cs)) cs).

(** The ACK branch: [if (p.seq >= base) { base = p.seq + 1; ... }], the sum
    being computed in [uint32_t]. *)
Definition on_ack (t : tick) (st : SendState) (p : Protocol.Packet)
  : SendState :=
  if base st <=? Protocol.seq p
  then
    let new_base := u32 (Protocol.seq p + 1) in
    let cs := free_chunks (base st) new_base (chunks st) in
    if new_base =? nextseq st
    then mkSend new_base (nextseq st) (retries st) false (timer_t0 st) cs
    else mkSend new_base (nextseq st) (retries st) true (t_ack t) cs
  else st.

Definition receive_ack (t : tick) (st : SendState) : SendState :=
  match inbound t with
  | Some ((_ :: _) as buf) =>
      match Protocol.unpack buf with
      | Protocol.Unpacked p =>
          if Byte.eqb (Protocol.ptype p) Protocol.PT_ACK
          then on_ack t st p else st
      | Protocol.Failed _ => st
      end
  | _ => st
  end.

(** [for (size_t s = base; s < nextseq; s++) if (chunks[s]) ...] *)
Definition retransmit (a : Args) (total : Z) (st : SendState)
  : list Protocol.Packet :=
  flat_map
    (fun i =>
       let s := base st + Z.of_nat i in
       match nth (Z.to_nat s) (chunks st) None with
       | Some _ => [data_packet a total (chunks st) s]
       | None => []
       end)
    (List.seq 0 (Z.to_nat (nextseq st - base st))).

Inductive turn_result : Set :=
| Next (st : SendState)
| MaxRetriesExceeded.   (* return 3 *)

(** [timer_running && ms_since(timer_t0) > (uint64_t)args.timeout_ms] *)
Definition timed_out (a : Args) (t : tick) (st : SendState) : bool :=
  timer_running st && (u64 (timeout_ms a) <? u64 (t_check t - timer_t0 st)).

(** The body of [while (base < total)], for a turn without a fault. *)
Definition gbn_turn (a : Args) (total : Z) (t : tick) (st : SendState)
  : turn_result * list Protocol.Packet :=
  let (st1, sent1) :=
    fill_window (Z.to_nat (total - nextseq st)) a total t st in
  let st2 := receive_ack t st1 in
  if timed_out a t st2
  then
    if max_retries a <? retries st2 + 1
    then (MaxRetriesExceeded, sent1)
    else
      (Next (mkSend (base st2) (nextseq st2) (retries st2 + 1) true
               (t_rearm t) (chunks st2)),
       sent1 ++ retransmit a total st2)
  else (Next st2, sent1).

Inductive loop_result : Set :=
| Completed (st : SendState)      (* the loop was left with base >= total *)
| GaveUp                          (* return 3 *)
| Running (st : SendState).       (* the ticks given were used up *)

(** [while (base < total) { ... }] over the ticks given, for turns
    without a fault. *)
Fixpoint gbn_loop (a : Args) (total : Z) (ticks : list tick) (st : SendState)
  : loop_result * list Protocol.Packet :=
  if base st <? total
  then
    match ticks with
    | [] => (Running st, [])
    | t :: rest =>
        match gbn_turn a total t st with
        | (Next st', out) =>
            let (r, out') := gbn_loop a total rest st' in (r, out ++ out')
        | (MaxRetriesExceeded, out) => (GaveUp, out)
        end
    end
  else (Completed st, []).

(** Where a turn of the send loop leaves what the C program defines.
    [gbn_turn] describes the turn as long as neither happens; [send_loop]
    stops at the first turn where one does. *)
Inductive fault : Set :=
| FreedChunkSent     (* [pack] gets [chunks[nextseq] == NULL] with the size
                        recorded for it: the datagram carries that length,
                        checksum 0 and payload octets that were never
                        written *)
| FreeOutOfBounds.   (* [free(chunks[s])] with [s >= total], past the array *)

(** The packets of the inner loop that precede the first one whose chunk
    was freed; [s] is the sequence number of the first packet of [out]. *)
Fixpoint before_freed (cs : list (option (list byte))) (s : nat)
  (out : list Protocol.Packet) : list Protocol.Packet :=
  match out with
  | [] => []
  | d :: rest =>
      match nth s cs None with
      | Some _ => d :: before_freed cs (S s) rest
      | None => []
      end
  end.

(** The ACK [recvfrom] and [unpack] deliver in this turn, if any. *)
Definition inbound_ack (t : tick) : option Protocol.Packet :=
  match inbound t with
  | Some ((_ :: _) as buf) =>
      match Protocol.unpack buf with
      | Protocol.Unpacked p =>
          if Byte.eqb (Protocol.ptype p) Protocol.PT_ACK then Some p else None
      | Protocol.Failed _ => None
      end
  | _ => None
  end.

(** Whether [for (s = old_base; s < base; s++) free(chunks[s])] reaches an
    index at or beyond [total], the size of the array. *)
Definition frees_beyond (total : Z) (t : tick) (st : SendState) : bool :=
  match inbound_ack t with
  | Some p =>
      let new_base := u32 (Protocol.seq p + 1) in
      (base st <=? Protocol.seq p) && (base st <? new_base)
      && (total <? new_base)
  | None => false
  end.

Inductive send_result : Set :=
| Sent (st : SendState)         (* the loop was left with base >= total *)
| Exceeded                      (* return 3 *)
| Faulted (f : fault)
| Unfinished (st : SendState).  (* the ticks given were used up *)

(** [while (base < total) { ... }] over the ticks given, up to the first
    fault, with the packets sent until then. *)
Fixpoint send_loop (a : Args) (total : Z) (ticks : list tick) (st : SendState)
  : send_result * list Protocol.Packet :=
  if base st <? total
  then
    match ticks with
    | [] => (Unfinished st, [])
    | t :: rest =>
        let (st1, sent1) :=
          fill_window (Z.to_nat (total - nextseq st)) a total t st in
        let whole := before_freed (chunks st) (Z.to_nat (nextseq st)) sent1 in
        if (List.length whole <? List.length sent1)%nat
        then (Faulted FreedChunkSent, whole)
        else if frees_beyond total t st1
        then (Faulted FreeOutOfBounds, sent1)
        else
          match gbn_turn a total t st with
          | (Next st', out) =>
              let (r, out') := send_loop a total rest st' in (r, out ++ out')
          | (MaxRetriesExceeded, out) => (Exceeded, out)
          end
    end
  else (Sent st, []).

(** What a wait of the handshake and FIN loops gets from outside at each
    test of [while (ms_since(t0) < (uint64_t)args.timeout_ms)]: the clock
    [ms_since] reads, and what [recvfrom] puts into [rbuf] in the turn
    that follows ([None], or no octet, for [rn <= 0]). *)
Record poll : Set := mkPoll {
  poll_clock : Z;                    (* uint64_t *)
  poll_rbuf : option (list byte)
}.

(** One attempt: the clock read for [t0] after [sendto], and the polls of
    its wait. *)
Record attempt : Set := mkAttempt {
  attempt_t0 : Z;                    (* uint64_t *)
  attempt_polls : list poll
}.

Inductive wait_result : Set :=
| Answered     (* [break] with the flag set *)
| Expired      (* the test of the loop failed *)
| Waiting.     (* the polls given are used up and the loop goes on *)

(** [rn > 0], [unpack] succeeds and [p.ptype] is the type awaited. *)
Definition is_reply (reply : byte) (r : option (list byte)) : bool :=
  match r with
  | Some ((_ :: _) as buf) =>
      match Protocol.unpack buf with
      | Protocol.Unpacked p => Byte.eqb (Protocol.ptype p) reply
      | Protocol.Failed _ => false
      end
  | _ => false
  end.

Fixpoint wait (timeout t0 : Z) (reply : byte) (ps : list poll)
  : wait_result :=
  match ps with
  | [] => Waiting
  | q :: rest =>
      if u64 (poll_clock q - t0) <? u64 timeout
      then
        if is_reply reply (poll_rbuf q) then Answered
        else wait timeout t0 reply rest
      else Expired
  end.

(** The loop shared by the handshake and the FIN:
    [while (tries < args.max_retries && !ok) { sendto; wait; tries++; }].
    The result is [None] when the attempts or polls given are used up
    while a wait goes on. *)
Fixpoint request (tries_left : nat) (timeout : Z) (pkt : Protocol.Packet)
  (reply : byte) (attempts : list attempt)
  : option bool * list Protocol.Packet :=
  match tries_left with
  | O => (Some false, [])
  | S n =>
      match attempts with
      | [] => (None, [pkt])
      | att :: rest =>
          match wait timeout (attempt_t0 att) reply (attempt_polls att) with
          | Answered => (Some true, [pkt])
          | Expired =>
              let (r, out) := request n timeout pkt reply rest in
              (r, pkt :: out)
          | Waiting => (None, [pkt])
          end
      end
  end.

Record Env : Set := mkEnv {
  handshake_waits : list attempt;
  ticks : list tick;
  fin_waits : list attempt
}.

Inductive outcome : Set :=
| Exit (code : Z)        (* [return code] *)
| DivisionByZero         (* [/ args.chunk] with [args.chunk == 0] *)
| Fault (f : fault)
| Blocked.               (* the environment given is used up *)

(** [main] from the computation of [total] on, for a file already read:
    how it ends, and the packets handed to [pack] and [sendto] until then,
    in order.  ([malloc] is taken to succeed, also for a size of 0.) *)
Definition main (a : Args) (data : list byte) (env : Env)
  : outcome * list Protocol.Packet :=
  if chunk a =? 0 then (DivisionByZero, [])
  else
    let filesize := Z.of_nat (List.length data) in
    let total := total_packets filesize (chunk a) in
    match
      request (Z.to_nat (max_retries a)) (timeout_ms a)
        (handshake_packet a filesize total) Protocol.PT_HANDSHAKE_ACK
        (handshake_waits env)
    with
    | (None, out1) => (Blocked, out1)
    | (Some false, out1) => (Exit 2, out1)
    | (Some true, out1) =>
        match send_loop a total (ticks env)
                (start (prepare_chunks data (chunk a) total)) with
        | (Unfinished _, out2) => (Blocked, out1 ++ out2)
        | (Exceeded, out2) => (Exit 3, out1 ++ out2)
        | (Faulted f, out2) => (Fault f, out1 ++ out2)
        | (Sent _, out2) =>
            match
              request (Z.to_nat (max_retries a)) (timeout_ms a)
                (Protocol.blank Protocol.PT_FIN) Protocol.PT_FIN_ACK
                (fin_waits env)
            with
            | (None, out3) => (Blocked, out1 ++ out2 ++ out3)
            | (Some fin_ok, out3) =>
                (Exit (if fin_ok then 0 else 4), out1 ++ out2 ++ out3)
            end
        end
    end.

(** A datagram that ends a wait: [recvfrom] returns at least one octet and
    [unpack] makes of them a packet of the type awaited. *)
Definition awaited (reply : byte) (r : option (list byte)) : Prop :=
  exists buf p,
    r = Some buf /\ buf <> []
    /\ Protocol.unpack buf = Protocol.Unpacked p
    /\ Protocol.ptype p = reply.

(** A test of the wait loop that finds the time not up. *)
Definition in_time (timeout t0 : Z) (q : poll) : Prop :=
  u64 (poll_clock q - t0) < u64 timeout.

(** An attempt that is answered: a datagram of the awaited type arrives
    at a poll, the time being up neither at that poll nor before. *)
Definition acknowledged (timeout : Z) (reply : byte) (att : attempt)
  : Prop :=
  exists before q after,
    attempt_polls att = before ++ q :: after
    /\ Forall (in_time timeout (attempt_t0 att)) before
    /\ in_time timeout (attempt_t0 att) q
    /\ awaited reply (poll_rbuf q).

(** An attempt that times out: at some poll the time is up, and no poll
    before it holds a datagram of the awaited type. *)
Definition unanswered (timeout : Z) (reply : byte) (att : attempt) : Prop :=
  exists before q after,
    attempt_polls att = before ++ q :: after
    /\ Forall (fun x => in_time timeout (attempt_t0 att) x
                        /\ ~ awaited reply (poll_rbuf x)) before
    /\ ~ in_time timeout (attempt_t0 att) q.

(** An attempt whose wait is still going on when its polls are used up. *)
Definition still_waiting (timeout : Z) (reply : byte) (att : attempt)
  : Prop :=
  Forall (fun x => in_time timeout (attempt_t0 att) x
                   /\ ~ awaited reply (poll_rbuf x)) (attempt_polls att).

(** A DATA packet of the file [data]: the packet the sender hands to
    [pack] for the chunk [s], one of the [total] chunks. *)
Definition file_packet (a : Args) (data : list byte) (total : Z)
  (p : Protocol.Packet) : Prop :=
  exists s,
    0 <= s < total
    /\ p = Protocol.mkPacket Protocol.MAGIC0 Protocol.MAGIC1
             Protocol.VERSION Protocol.PT_DATA (u32 s) (u32 total) 0
             (window a) 0 (chunk_at data (chunk a) (Z.to_nat s)).

(** No chunk from [base] on was freed. *)
Definition chunks_kept (total : Z) (st : SendState) : Prop :=
  forall i, base st <= Z.of_nat i < total -> nth i (chunks st) None <> None.

(** The result of [gbn_loop] as a result of [send_loop]. *)
Definition without_fault (r : loop_result) : send_result :=
  match r with
  | Completed st => Sent st
  | GaveUp => Exceeded
  | Running st => Unfinished st
  end.

(** The attempt beyond those given: nothing is known of it. *)
Definition no_attempt : attempt := mkAttempt 0 [].

(** The chunks are those of the file [data], or freed. *)
Definition chunks_of_file (a : Args) (data : list byte) (total : Z)
  (st : SendState) : Prop :=
  List.length (chunks st) = Z.to_nat total
  /\ forall i c, nth i (chunks st) None = Some c ->
       c = chunk_at data (chunk a) i.

(** The window invariant of the send loop. *)
Definition window_invariant (a : Args) (total : Z) (st : SendState) : Prop :=
  base st <= nextseq st <= Z.min (base st + window a) total.

(** An ACK for a packet that was sent: its number is below [nextseq]. *)
Definition acks_sent_packet (t : tick) (st : SendState) : Prop :=
  forall buf p,
    inbound t = Some buf ->
    Protocol.unpack buf = Protocol.Unpacked p ->
    Protocol.ptype p = Protocol.PT_ACK ->
    Protocol.seq p < nextseq st.

(** Every ACK that arrives during the turns of the send loop is for a
    packet that was sent before it arrived. *)
Fixpoint acks_for_sent (a : Args) (total : Z) (ticks : list tick)
  (st : SendState) : Prop :=
  match ticks with
  | [] => True
  | t :: rest =>
      base st < total ->
      acks_sent_packet t
        (fst (fill_window (Z.to_nat (total - nextseq st)) a total t st))
      /\ match gbn_turn a total t st with
         | (Next st', _) => acks_for_sent a total rest st'
         | (MaxRetriesExceeded, _) => True
         end
  end.

(** A DATA packet of this transfer: its sequence number is that of one of
    the [total] chunks. *)
Definition own_data_packet (a : Args) (total : Z) (p : Protocol.Packet)
  : Prop :=
  Protocol.ptype p = Protocol.PT_DATA
  /\ Protocol.total p = u32 total
  /\ Protocol.window p = window a
  /\ exists s, 0 <= s < total /\ Protocol.seq p = u32 s.

(** What does not change whatever arrives: [nextseq] stays within
    [0 .. total] and [base] is never negative. *)
Definition in_file (total : Z) (st : SendState) : Prop :=
  0 <= base st /\ 0 <= nextseq st <= total.

End Client.

(** ** Command lines and peer keys *)

Module Cli.
Import Util.

(** [atoi] and [atol] of the C library on an LP64 system: [strtol], for
    [atoi] converted to [int]. *)
Definition to_int (z : Z) : Z := (z + 2 ^ 31) mod 2 ^ 32 - 2 ^ 31.

Definition atoi (s : list byte) : Z := to_int (atoll s).

Definition atol (s : list byte) : Z := atoll s.

(** [parse_args] of server/main.c, on [argv[1]], [argv[2]], ...: [None]
    is the return value 0 (after [usage]). *)
Definition server_defaults : Server.Args :=
  Server.mkArgs 9000 (cstr "./server_data") 8.

Fixpoint server_options (argv : list (list byte)) (a : Server.Args)
  : option Server.Args :=
  match argv with
  | [] => Some a
  | s :: more =>
      match more with
      | [] => None
      | v :: rest =>
          if streq s (cstr "--port")
          then server_options rest
                 (Server.mkArgs (atoi v) (Server.outdir a) (Server.window a))
          else if streq s (cstr "--out")
          then server_options rest
                 (Server.mkArgs (Server.port a) (bounded 1024 v)
                    (Server.window a))
          else if streq s (cstr "--window")
          then server_options rest
                 (Server.mkArgs (Server.port a) (Server.outdir a)
                    (atoi v mod 2 ^ 16))
          else None
      end
  end.

Definition server_parse_args (argv : list (list byte)) : option Server.Args :=
  server_options argv server_defaults.

(** [parse_args] of client/main.c. *)
Definition client_defaults : Client.Args :=
  Client.mkArgs (cstr "127.0.0.1") 9000 [] 1024 8 300 20.

Fixpoint client_options (argv : list (list byte)) (a : Client.Args)
  : option Client.Args :=
  match argv with
  | [] => Some a
  | s :: more =>
      match more with
      | [] => None
      | v :: rest =>
          if streq s (cstr "--host")
          then client_options rest
                 (Client.mkArgs (bounded 256 v) (Client.port a)
                    (Client.file a) (Client.chunk a) (Client.window a)
                    (Client.timeout_ms a) (Client.max_retries a))
          else if streq s (cstr "--port")
          then client_options rest
                 (Client.mkArgs (Client.host a) (atoi v)
                    (Client.file a) (Client.chunk a) (Client.window a)
                    (Client.timeout_ms a) (Client.max_retries a))
          else if streq s (cstr "--file")
          then client_options rest
                 (Client.mkArgs (Client.host a) (Client.port a)
                    (bounded 1024 v) (Client.chunk a) (Client.window a)
                    (Client.timeout_ms a) (Client.max_retries a))
          else if streq s (cstr "--chunk")
          then client_options rest
                 (Client.mkArgs (Client.host a) (Client.port a)
                    (Client.file a) (u64 (atol v)) (Client.window a)
                    (Client.timeout_ms a) (Client.max_retries a))
          else if streq s (cstr "--window")
          then client_options rest
                 (Client.mkArgs (Client.host a) (Client.port a)
                    (Client.file a) (Client.chunk a) (atoi v mod 2 ^ 16)
                    (Client.timeout_ms a) (Client.max_retries a))
          else if streq s (cstr "--timeout")
          then client_options rest
                 (Client.mkArgs (Client.host a) (Client.port a)
                    (Client.file a) (Client.chunk a) (Client.window a)
                    (atoi v) (Client.max_retries a))
          else if streq s (cstr "--max-retries")
          then client_options rest
                 (Client.mkArgs (Client.host a) (Client.port a)
                    (Client.file a) (Client.chunk a) (Client.window a)
                    (Client.timeout_ms a) (atoi v))
          else None
      end
  end.

Definition client_parse_args (argv : list (list byte)) : option Client.Args :=
  match client_options argv client_defaults with
  | Some a =>
      match Client.file a with
      | [] => None
      | _ :: _ => Some a
      end
  | None => None
  end.

(** [addr_key]: the address as [inet_ntop] writes it (four decimal
    numbers separated by dots), a colon, and the port in host byte order,
    in [key[256]]. *)
Definition inet_ntop (ip : byte * byte * byte * byte) : list byte :=
  let '(a, b, c, d) := ip in
  utoa (b2z a) ++ cstr "." ++ utoa (b2z b) ++ cstr "." ++ utoa (b2z c)
    ++ cstr "." ++ utoa (b2z d).

Definition addr_key (ip : byte * byte * byte * byte) (port : Z) : list byte :=
  bounded 256 (inet_ntop ip ++ cstr ":" ++ utoa port).

(** The values a flag is given: those of the tokens right after it, at
    the places where a flag is read. *)
Fixpoint values_of (flag : list byte) (argv : list (list byte))
  : list (list byte) :=
  match argv with
  | s :: more =>
      match more with
      | v :: rest =>
          if streq s flag then v :: values_of flag rest
          else values_of flag rest
      | [] => []
      end
  | [] => []
  end.

(** The tokens read as flags: every second one, from the first. *)
Fixpoint flags_of (argv : list (list byte)) : list (list byte) :=
  match argv with
  | s :: more =>
      match more with
      | _ :: rest => s :: flags_of rest
      | [] => [s]
      end
  | [] => []
  end.

Definition server_flag (s : list byte) : bool :=
  streq s (cstr "--port") || streq s (cstr "--out")
  || streq s (cstr "--window").

Definition client_flag (s : list byte) : bool :=
  streq s (cstr "--host") || streq s (cstr "--port")
  || streq s (cstr "--file") || streq s (cstr "--chunk")
  || streq s (cstr "--window") || streq s (cstr "--timeout")
  || streq s (cstr "--max-retries").

End Cli.

(** ** Sender and receiver together *)

Module Transfer.

(** The DATA datagrams for the packets [from], ..., [from + count - 1] of
    a file, as the sender packs them, arriving at the receiver in order
    from the peer [k]. *)
Definition in_order (ca : Client.Args) (data : list byte) (k : list byte)
  (clock : Z) (from count : nat) : list Server.event :=
  let total :=
    Client.total_packets (Z.of_nat (List.length data)) (Client.chunk ca) in
  let cs := Client.prepare_chunks data (Client.chunk ca) total in
  map (fun i =>
         Server.Datagram k
           (Protocol.pack (Client.data_packet ca total cs (Z.of_nat i)))
           clock clock true)
    (List.seq from count).

End Transfer.

(** ** Concrete datagrams and runs, used to exercise the definitions *)

Module Scenario.
Import Util.

Definition args : Server.Args := Server.mkArgs 9000 (cstr "./server_data") 8.

Definition peer : list byte := cstr "127.0.0.1:40000".

(** A HANDSHAKE datagram as the sender packs it. *)
Definition handshake (meta : string) : list byte :=
  Protocol.pack
    (Protocol.mkPacket Protocol.MAGIC0 Protocol.MAGIC1 Protocol.VERSION
       Protocol.PT_HANDSHAKE 0 0 0 0 0 (cstr meta)).

(** A DATA datagram as the sender packs it: the checksum is filled in by
    [pack]. *)
Definition data_packet (seq total : Z) (chunk : string) : Protocol.Packet :=
  Protocol.mkPacket Protocol.MAGIC0 Protocol.MAGIC1 Protocol.VERSION
    Protocol.PT_DATA seq total 0 8 0 (cstr chunk).

Definition data (seq total : Z) (chunk : string) : list byte :=
  Protocol.pack (data_packet seq total chunk).

(** The same datagram with its last octet damaged on the way. *)
Definition damaged (buf : list byte) : list byte :=
  removelast buf ++ [xff].

Definition arrives (from buf : list byte) : Server.event :=
  Server.Datagram from buf 1000 1000 true.

(** A receiver that has accepted one handshake announcing two packets. *)
Definition one_session : list Server.event :=
  [arrives peer (handshake "a.bin|4|2|2|8")].

(** A hundred handshakes from a hundred peers. *)
Definition nth_peer (i : nat) : list byte :=
  cstr "10.0.0.1:" ++ utoa (5000 + Z.of_nat i).

Definition hundred_sessions : list Server.event :=
  map (fun i => arrives (nth_peer i) (handshake "a.bin|4|2|2|8")) (List.seq 0 100).


(** One more peer, and its handshake as [unpack] returns it. *)
Definition newcomer : list byte := cstr "10.0.0.2:6000".

Definition second_handshake : Protocol.Packet :=
  Protocol.mkPacket Protocol.MAGIC0 Protocol.MAGIC1 Protocol.VERSION
    Protocol.PT_HANDSHAKE 0 0 13 0 0 (cstr "b.bin|4|2|2|8").

Definition full : Server.State := Server.state_after args 0 hundred_sessions.

(** The two packets announced are delivered. *)
Definition two_of_two : list Server.event :=
  one_session ++ [arrives peer (data 0 2 "hi"); arrives peer (data 1 2 "yo")].

(** A sender with a file of ten octets, one octet a packet, four packets a
    window; and a turn of its loop in which the ACK a receiver sends for
    [expected = 8] arrives. *)
Definition sender : Client.Args :=
  Client.mkArgs (cstr "127.0.0.1") 9000 (cstr "data/ten.bin") 1 4 300 20.

Definition ten_octets : list byte := cstr "0123456789".

Definition stray_ack : Client.tick :=
  Client.mkTick (Some (Protocol.pack (Server.ack_packet 8))) 0 0 0 0.

(** A wait in which nothing arrives: it is polled once, 300 ms after
    the request was sent.  A network that delivers nothing. *)
Definition expiring : Client.attempt :=
  Client.mkAttempt 1000 [Client.mkPoll 1300 None].

Definition quiet : Client.Env := Client.mkEnv (repeat expiring 20) [] [].

(** A wait in which the packet [pk] arrives 10 ms after the request. *)
Definition replied (pk : Protocol.Packet) : Client.attempt :=
  Client.mkAttempt 2000
    [Client.mkPoll 2005 None; Client.mkPoll 2010 (Some (Protocol.pack pk))].

(** A receiver that misses the first handshake and answers the second
    and the FIN. *)
Definition obliging : Client.Env :=
  Client.mkEnv
    [expiring; replied (Protocol.blank Protocol.PT_HANDSHAKE_ACK)]
    []
    [replied (Protocol.blank Protocol.PT_FIN_ACK)].

(** A turn in which the ACK for packet [n] arrives, and one in which
    nothing does. *)
Definition ack_arrives (n : Z) : Client.tick :=
  Client.mkTick (Some (Protocol.pack (Server.cumulative_ack n))) 0 0 0 0.

Definition silence : Client.tick := Client.mkTick None 0 0 0 0.

(** A receiver that answers the handshake, acknowledges the packets up to
    3, 7 and 9, and answers the FIN. *)
Definition attentive : Client.Env :=
  Client.mkEnv
    [replied (Protocol.blank Protocol.PT_HANDSHAKE_ACK)]
    [ack_arrives 3; ack_arrives 7; ack_arrives 9]
    [replied (Protocol.blank Protocol.PT_FIN_ACK)].


(** The session the handshake of [one_session] sets up, and the first DATA
    packet of that transfer as [unpack] returns it. *)
Definition first_session : Server.Session :=
  Server.new_session args peer (split (cstr "a.bin|4|2|2|8") x7c) 1000 1000.

Definition first_data : Protocol.Packet :=
  Protocol.mkPacket Protocol.MAGIC0 Protocol.MAGIC1 Protocol.VERSION
    Protocol.PT_DATA 0 2 2 8 (Crc32.ru_crc32 (cstr "hi")) (cstr "hi").

(** The handshake of [one_session] as [unpack] returns it. *)
Definition first_handshake : Protocol.Packet :=
  Protocol.mkPacket Protocol.MAGIC0 Protocol.MAGIC1 Protocol.VERSION
    Protocol.PT_HANDSHAKE 0 0 13 0 0 (cstr "a.bin|4|2|2|8").

(** A receiver that has accepted the handshake of the sender of
    [ten_octets]. *)
Definition ten_announced : list Server.event :=
  [arrives peer (Protocol.pack (Client.handshake_packet sender 10 10))].

End Scenario.

(** * Proofs *)

(** ** Octets *)

Lemma b2z_range (b : byte) : 0 <= b2z b < 256.
Proof.
  unfold b2z. pose proof (Byte.to_N_bounded b). lia.
Qed.

Lemma z2b_b2z (b : byte) : z2b (b2z b) = b.
Proof.
  unfold z2b. pose proof (b2z_range b) as H.
  rewrite Z.mod_small by exact H.
  unfold b2z. rewrite N2Z.id, Byte.of_to_N. reflexivity.
Qed.

Lemma b2z_z2b (z : Z) : b2z (z2b z) = z mod 256.
Proof.
  unfold z2b, b2z.
  assert (Hr : 0 <= z mod 256 < 256) by (apply Z.mod_pos_bound; lia).
  destruct (Byte.of_N (Z.to_N (z mod 256))) as [b|] eqn:E.
  - apply Byte.to_of_N in E. rewrite E. rewrite Z2N.id; lia.
  - apply Byte.of_N_None_iff in E. lia.
Qed.

(** ** CRC-32: the table-driven code computes the bitwise CRC *)

Module Crc32Facts.
Import Crc32.

Lemma table_step_bit (c : Z) : table_step c = crc32_bit c.
Proof.
  unfold table_step, crc32_bit, reflected_poly.
  change 1 with (Z.ones 1). rewrite Z.land_ones by lia.
  change (2 ^ 1) with 2. rewrite Zmod_odd.
  destruct (Z.odd c).
  - change (1 =? 0) with false. cbv iota. apply Z.lxor_comm.
  - change (0 =? 0) with true. reflexivity.
Qed.

Lemma table_loop_iter (j : nat) (c : Z) :
  table_loop j c = Nat.iter j crc32_bit c.
Proof.
  revert c. induction j as [|j IH]; intro c; [reflexivity|].
  cbn [table_loop]. rewrite IH, table_step_bit.
  symmetry. apply Nat.iter_succ_r.
Qed.

Lemma crc32_bit_lxor (a b : Z) :
  crc32_bit (Z.lxor a b) = Z.lxor (crc32_bit a) (crc32_bit b).
Proof.
  unfold crc32_bit.
  rewrite <- !Z.bit0_odd, Z.lxor_spec, Z.shiftr_lxor.
  destruct (Z.testbit a 0), (Z.testbit b 0); cbn [xorb];
    apply Z.bits_inj'; intros n _; rewrite ?Z.lxor_spec;
    destruct (Z.testbit (Z.shiftr a 1) n), (Z.testbit (Z.shiftr b 1) n),
      (Z.testbit reflected_poly n); reflexivity.
Qed.

Lemma crc32_bits_lxor (k : nat) (a b : Z) :
  Nat.iter k crc32_bit (Z.lxor a b)
  = Z.lxor (Nat.iter k crc32_bit a) (Nat.iter k crc32_bit b).
Proof.
  induction k as [|k IH]; [reflexivity|].
  rewrite !Nat.iter_succ, IH. apply crc32_bit_lxor.
Qed.

(** A register whose low [k] bits are clear is only shifted by [k] turns. *)
Lemma crc32_bits_shifted (k : nat) (z : Z) :
  Nat.iter k crc32_bit (Z.shiftl z (Z.of_nat k)) = z.
Proof.
  induction k as [|k IH].
  - cbn. apply Z.shiftl_0_r.
  - rewrite Nat.iter_succ_r.
    assert (E : crc32_bit (Z.shiftl z (Z.of_nat (S k)))
                = Z.shiftl z (Z.of_nat k)).
    { unfold crc32_bit.
      rewrite <- Z.bit0_odd, Z.shiftl_spec_low by lia.
      rewrite Z.shiftr_shiftl_l by lia. f_equal. lia. }
    rewrite E. exact IH.
Qed.

Lemma split_low_octet (x : Z) :
  x = Z.lxor (Z.land x 0xFF) (Z.shiftl (Z.shiftr x 8) 8).
Proof.
  apply Z.bits_inj'. intros n Hn.
  rewrite Z.lxor_spec, Z.land_spec.
  change 0xFF with (Z.ones 8).
  destruct (Z.ltb_spec n 8) as [Hlt|Hge].
  - rewrite Z.ones_spec_low, Z.shiftl_spec_low by lia.
    rewrite andb_true_r, xorb_false_r. reflexivity.
  - rewrite Z.ones_spec_high, Z.shiftl_spec, Z.shiftr_spec by lia.
    rewrite andb_false_r, xorb_false_l. f_equal. lia.
Qed.

Lemma low_octet_range (x : Z) : 0 <= Z.land x 0xFF < 256.
Proof.
  change 0xFF with (Z.ones 8). rewrite Z.land_ones by lia.
  apply Z.mod_pos_bound. lia.
Qed.

Lemma table_entry (i : Z) :
  0 <= i < 256 -> table i = Nat.iter 8 crc32_bit i.
Proof.
  intro Hi. unfold table, init_table.
  set (f := fun i : nat => table_loop 8 (Z.of_nat i)).
  rewrite (nth_indep _ 0 (f 0%nat))
    by (rewrite length_map, length_seq; lia).
  rewrite map_nth, seq_nth by lia.
  unfold f. rewrite Nat.add_0_l, Z2Nat.id by lia.
  apply table_loop_iter.
Qed.

Lemma crc_update_octet (c : Z) (d : byte) :
  crc_update c d = crc32_octet c d.
Proof.
  unfold crc_update, crc32_octet.
  set (x := Z.lxor c (b2z d)).
  rewrite table_entry by apply low_octet_range.
  rewrite (split_low_octet x) at 2.
  rewrite crc32_bits_lxor. f_equal.
  change (Z.shiftl (Z.shiftr x 8) 8)
    with (Z.shiftl (Z.shiftr x 8) (Z.of_nat 8)).
  rewrite crc32_bits_shifted.
  subst x. symmetry. apply Z.bits_inj'. intros n Hn.
  rewrite !Z.shiftr_spec, Z.lxor_spec by lia.
  assert (Hd : Z.testbit (b2z d) (n + 8) = false).
  { pose proof (b2z_range d) as Hr.
    destruct (Z.eq_dec (b2z d) 0) as [E|E].
    - rewrite E. apply Z.testbit_0_l.
    - apply Z.bits_above_log2; [lia|].
      assert (Z.log2 (b2z d) < 8) by (apply Z.log2_lt_pow2; lia). lia. }
  rewrite Hd, xorb_false_r. reflexivity.
Qed.

Lemma fold_crc_update (data : list byte) (c : Z) :
  fold_left crc_update data c = fold_left crc32_octet data c.
Proof.
  revert c. induction data as [|d data IH]; intro c; [reflexivity|].
  cbn [fold_left]. rewrite crc_update_octet. apply IH.
Qed.

End Crc32Facts.

(** The register of the CRC stays within 32 bits. *)
Module Crc32Range.
Import Crc32.

Lemma lxor_u32 (a b : Z) :
  0 <= a < 2 ^ 32 -> 0 <= b < 2 ^ 32 -> 0 <= Z.lxor a b < 2 ^ 32.
Proof.
  intros Ha Hb.
  assert (H0 : 0 <= Z.lxor a b) by (apply Z.lxor_nonneg; lia).
  split; [exact H0|].
  destruct (Z.eq_dec (Z.lxor a b) 0) as [E|E]; [rewrite E; lia|].
  apply Z.log2_lt_pow2; [lia|].
  pose proof (Z.log2_lxor a b ltac:(lia) ltac:(lia)) as Hl.
  assert (La : Z.log2 a < 32).
  { destruct (Z.eq_dec a 0) as [->|]; [cbn; lia|].
    apply Z.log2_lt_pow2; lia. }
  assert (Lb : Z.log2 b < 32).
  { destruct (Z.eq_dec b 0) as [->|]; [cbn; lia|].
    apply Z.log2_lt_pow2; lia. }
  lia.
Qed.

Lemma crc32_bit_u32 (r : Z) : 0 <= r < 2 ^ 32 -> 0 <= crc32_bit r < 2 ^ 32.
Proof.
  intro Hr. unfold crc32_bit.
  assert (Hs : 0 <= Z.shiftr r 1 < 2 ^ 32).
  { rewrite Z.shiftr_div_pow2 by lia. change (2 ^ 1) with 2.
    split; [apply Z.div_pos; lia|].
    apply Z.div_lt_upper_bound; lia. }
  destruct (Z.odd r); [|exact Hs].
  apply lxor_u32; [exact Hs|]. unfold reflected_poly. lia.
Qed.

Lemma crc32_bits_u32 (k : nat) (r : Z) :
  0 <= r < 2 ^ 32 -> 0 <= Nat.iter k crc32_bit r < 2 ^ 32.
Proof.
  intro Hr. induction k as [|k IH]; [exact Hr|].
  rewrite Nat.iter_succ. apply crc32_bit_u32, IH.
Qed.

Lemma crc32_octet_u32 (r : Z) (d : byte) :
  0 <= r < 2 ^ 32 -> 0 <= crc32_octet r d < 2 ^ 32.
Proof.
  intro Hr. unfold crc32_octet. apply crc32_bits_u32, lxor_u32; [exact Hr|].
  pose proof (b2z_range d). lia.
Qed.

Lemma fold_crc32_octet_u32 (data : list byte) (r : Z) :
  0 <= r < 2 ^ 32 -> 0 <= fold_left crc32_octet data r < 2 ^ 32.
Proof.
  revert r. induction data as [|d data IH]; intros r Hr; [exact Hr|].
  cbn [fold_left]. apply IH, crc32_octet_u32, Hr.
Qed.

End Crc32Range.

Lemma ru_crc32_u32 (data : list byte) : 0 <= Crc32.ru_crc32 data < 2 ^ 32.
Proof.
  unfold Crc32.ru_crc32. rewrite Crc32Facts.fold_crc_update.
  apply Crc32Range.lxor_u32; [|lia].
  apply Crc32Range.fold_crc32_octet_u32. lia.
Qed.

(** C8: for every octet sequence, the table-driven [ru_crc32] returns the
    reflected IEEE 802.3 CRC-32 of it (polynomial [0xEDB88320], register
    initialised to [0xFFFFFFFF], result xor-ed with [0xFFFFFFFF]) as the
    bit-at-a-time reference computes it, and the value fits 32 bits. *)
Theorem ru_crc32_is_reflected_crc32 (data : list byte) :
  Crc32.ru_crc32 data = Crc32.crc32_bitwise data
  /\ 0 <= Crc32.ru_crc32 data < 2 ^ 32.
Proof.
  split; [|apply ru_crc32_u32].
  unfold Crc32.ru_crc32, Crc32.crc32_bitwise.
  rewrite Crc32Facts.fold_crc_update. reflexivity.
Qed.

(** The check value of CRC-32 on the ASCII digits ["123456789"]. *)
Example ru_crc32_check_value :
  Crc32.ru_crc32 [x31; x32; x33; x34; x35; x36; x37; x38; x39] = 0xCBF43926.
Proof. vm_compute. reflexivity. Qed.

Example ru_crc32_empty : Crc32.ru_crc32 [] = 0.
Proof. reflexivity. Qed.

Example ru_crc32_letter_a : Crc32.ru_crc32 [x61] = 0xE8B7BE43.
Proof. vm_compute. reflexivity. Qed.

(** ** Wire codec *)

Module ProtocolFacts.
Import Protocol.

Lemma z2b_add_mul (hi : Z) (b : byte) : z2b (hi * 256 + b2z b) = b.
Proof.
  rewrite <- (z2b_b2z b) at 2. unfold z2b.
  rewrite Z.add_comm, Z.mod_add by lia. reflexivity.
Qed.

Lemma div_add_mul (hi lo k : Z) :
  0 < k -> 0 <= lo < k -> (hi * k + lo) / k = hi.
Proof.
  intros Hk Hlo. rewrite Z.add_comm, Z.div_add by lia.
  rewrite Z.div_small by lia. reflexivity.
Qed.

Lemma be16_rd16 (b0 b1 : byte) : be16 (rd16 b0 b1) = [b0; b1].
Proof.
  pose proof (b2z_range b0). pose proof (b2z_range b1).
  unfold be16, rd16. change (2 ^ 8) with 256.
  rewrite z2b_add_mul, div_add_mul by lia.
  rewrite <- (Z.add_0_l (b2z b0)). change 0 with (0 * 256) at 1.
  rewrite z2b_add_mul. reflexivity.
Qed.

Lemma be32_rd32 (b0 b1 b2 b3 : byte) :
  be32 (rd32 b0 b1 b2 b3) = [b0; b1; b2; b3].
Proof.
  pose proof (b2z_range b0). pose proof (b2z_range b1).
  pose proof (b2z_range b2). pose proof (b2z_range b3).
  unfold be32. set (z := rd32 b0 b1 b2 b3).
  assert (E24 : z / 2 ^ 24 = 0 * 256 + b2z b0).
  { symmetry.
    apply (Z.div_unique_pos _ _ _
             (b2z b1 * 2 ^ 16 + b2z b2 * 2 ^ 8 + b2z b3));
      unfold z, rd32; lia. }
  assert (E16 : z / 2 ^ 16 = b2z b0 * 256 + b2z b1).
  { symmetry.
    apply (Z.div_unique_pos _ _ _ (b2z b2 * 2 ^ 8 + b2z b3));
      unfold z, rd32; lia. }
  assert (E8 : z / 2 ^ 8 = (b2z b0 * 2 ^ 8 + b2z b1) * 256 + b2z b2).
  { symmetry. apply (Z.div_unique_pos _ _ _ (b2z b3)); unfold z, rd32; lia. }
  assert (E0 : z = (b2z b0 * 2 ^ 16 + b2z b1 * 2 ^ 8 + b2z b2) * 256 + b2z b3)
    by (unfold z, rd32; lia).
  rewrite E24, E16, E8, !z2b_add_mul. rewrite E0 at 1.
  rewrite z2b_add_mul. reflexivity.
Qed.

(** Reading back the octets of a 32-bit value gives the value. *)
Lemma rd32_be32 (z : Z) :
  0 <= z < 2 ^ 32 ->
  rd32 (z2b (z / 2 ^ 24)) (z2b (z / 2 ^ 16)) (z2b (z / 2 ^ 8)) (z2b z) = z.
Proof.
  intro Hz. unfold rd32. rewrite !b2z_z2b.
  change (2 ^ 24) with 16777216. change (2 ^ 16) with 65536.
  change (2 ^ 8) with 256. change (2 ^ 32) with 4294967296 in Hz.
  Z.div_mod_to_equations. lia.
Qed.

Lemma be32_inj (a b : Z) :
  0 <= a < 2 ^ 32 -> 0 <= b < 2 ^ 32 -> be32 a = be32 b -> a = b.
Proof.
  intros Ha Hb E.
  pose (f := fun l : list byte =>
               match l with
               | [x0; x1; x2; x3] => rd32 x0 x1 x2 x3
               | _ => 0
               end).
  apply (f_equal f) in E. unfold f, be32 in E.
  rewrite !rd32_be32 in E by assumption. exact E.
Qed.

Lemma rd16_range (b0 b1 : byte) : 0 <= rd16 b0 b1 < 2 ^ 16.
Proof.
  pose proof (b2z_range b0). pose proof (b2z_range b1). unfold rd16. lia.
Qed.

Lemma rd32_range (b0 b1 b2 b3 : byte) : 0 <= rd32 b0 b1 b2 b3 < 2 ^ 32.
Proof.
  pose proof (b2z_range b0). pose proof (b2z_range b1).
  pose proof (b2z_range b2). pose proof (b2z_range b3). unfold rd32. lia.
Qed.

Lemma view (buf : list byte) : datagram_view buf.
Proof.
  do 20 (destruct buf as [|? buf];
         [apply view_short; unfold HEADER_SIZE; cbn [List.length]; lia|]).
  apply view_header.
Qed.

Ltac by_view buf :=
  destruct (view buf) as
    [buf Hshort
    | m0 m1 v t s0 s1 s2 s3 t0 t1 t2 t3 l0 l1 w0 w1 c0 c1 c2 c3 body].

Lemma unpack_short (buf : list byte) :
  Z.of_nat (List.length buf) < HEADER_SIZE -> unpack buf = Failed ShortHeader.
Proof.
  intro H. unfold unpack.
  destruct (Z.ltb_spec (Z.of_nat (List.length buf)) HEADER_SIZE); [reflexivity|lia].
Qed.

Lemma unpack_header
  (m0 m1 v t s0 s1 s2 s3 t0 t1 t2 t3 l0 l1 w0 w1 c0 c1 c2 c3 : byte)
  (body : list byte) :
  unpack (m0 :: m1 :: v :: t :: s0 :: s1 :: s2 :: s3 :: t0 :: t1 :: t2 :: t3
             :: l0 :: l1 :: w0 :: w1 :: c0 :: c1 :: c2 :: c3 :: body)
  = if negb (Byte.eqb m0 MAGIC0) || negb (Byte.eqb m1 MAGIC1)
       || negb (Byte.eqb v VERSION)
    then Failed BadMagic
    else if rd16 l0 l1 >? Z.of_nat (List.length body)
         then Failed TruncatedPayload
         else Unpacked
                (mkPacket m0 m1 v t
                   (rd32 s0 s1 s2 s3) (rd32 t0 t1 t2 t3)
                   (rd16 l0 l1) (rd16 w0 w1) (rd32 c0 c1 c2 c3)
                   (firstn (Z.to_nat (rd16 l0 l1)) body)).
Proof.
  unfold unpack.
  match goal with
  | |- context [Z.of_nat (List.length ?l) <? HEADER_SIZE] =>
      assert (E : Z.of_nat (List.length l)
                  = HEADER_SIZE + Z.of_nat (List.length body))
        by (unfold HEADER_SIZE; cbn [List.length]; lia);
      rewrite E
  end.
  destruct (Z.ltb_spec (HEADER_SIZE + Z.of_nat (List.length body)) HEADER_SIZE)
    as [Hlt|_]; [unfold HEADER_SIZE in Hlt; lia|].
  destruct (negb (Byte.eqb m0 MAGIC0) || negb (Byte.eqb m1 MAGIC1)
            || negb (Byte.eqb v VERSION)); [reflexivity|].
  cbv zeta.
  replace (HEADER_SIZE + rd16 l0 l1
           >? HEADER_SIZE + Z.of_nat (List.length body))
    with (rd16 l0 l1 >? Z.of_nat (List.length body)); [reflexivity|].
  rewrite !Z.gtb_ltb.
  destruct (Z.ltb_spec (Z.of_nat (List.length body)) (rd16 l0 l1));
    destruct (Z.ltb_spec (HEADER_SIZE + Z.of_nat (List.length body))
                (HEADER_SIZE + rd16 l0 l1)); (reflexivity || lia).
Qed.

(** The fields [unpack] returns are within their C types. *)
Lemma unpack_fields (buf : list byte) (p : Packet) :
  unpack buf = Unpacked p ->
  0 <= seq p < 2 ^ 32 /\ 0 <= total p < 2 ^ 32 /\ 0 <= checksum p < 2 ^ 32
  /\ 0 <= window p < 2 ^ 16
  /\ length p = payload_size p /\ 0 <= length p < 2 ^ 16.
Proof.
  by_view buf.
  - rewrite unpack_short by exact Hshort. discriminate.
  - rewrite unpack_header.
    destruct (negb (Byte.eqb m0 MAGIC0) || negb (Byte.eqb m1 MAGIC1)
              || negb (Byte.eqb v VERSION)); [discriminate|].
    rewrite Z.gtb_ltb.
    destruct (Z.ltb_spec (Z.of_nat (List.length body)) (rd16 l0 l1));
      [discriminate|].
    intro E. injection E as <-. unfold payload_size.
    cbn [seq total checksum window length payload].
    pose proof (rd16_range l0 l1).
    repeat split; try apply rd32_range; try apply rd16_range.
    rewrite length_firstn. lia.
Qed.

End ProtocolFacts.

Section Codec.
Import Protocol ProtocolFacts.

Lemma header_length
  (m0 m1 v t s0 s1 s2 s3 t0 t1 t2 t3 l0 l1 w0 w1 c0 c1 c2 c3 : byte)
  (body : list byte) :
  Z.of_nat
    (List.length
       (m0 :: m1 :: v :: t :: s0 :: s1 :: s2 :: s3 :: t0 :: t1 :: t2 :: t3
           :: l0 :: l1 :: w0 :: w1 :: c0 :: c1 :: c2 :: c3 :: body))
  = 20 + Z.of_nat (List.length body).
Proof. cbn [List.length]. lia. Qed.

Lemma magic_ok_header
  (m0 m1 v t s0 s1 s2 s3 t0 t1 t2 t3 l0 l1 w0 w1 c0 c1 c2 c3 : byte)
  (body : list byte) :
  magic_ok
    (m0 :: m1 :: v :: t :: s0 :: s1 :: s2 :: s3 :: t0 :: t1 :: t2 :: t3
        :: l0 :: l1 :: w0 :: w1 :: c0 :: c1 :: c2 :: c3 :: body)
  = negb (negb (Byte.eqb m0 MAGIC0) || negb (Byte.eqb m1 MAGIC1)
          || negb (Byte.eqb v VERSION)).
Proof.
  unfold magic_ok, octet. cbn [nth].
  destruct (Byte.eqb m0 MAGIC0), (Byte.eqb m1 MAGIC1), (Byte.eqb v VERSION);
    reflexivity.
Qed.

(** The three failures and success, each characterised on the octets. *)
Lemma unpack_cases (buf : list byte) :
  let n := Z.of_nat (List.length buf) in
  (n < 20 /\ unpack buf = Failed ShortHeader)
  \/ (20 <= n /\ magic_ok buf = false /\ unpack buf = Failed BadMagic)
  \/ (20 <= n /\ magic_ok buf = true /\ n - 20 < declared_length buf
      /\ unpack buf = Failed TruncatedPayload)
  \/ (20 <= n /\ magic_ok buf = true /\ declared_length buf <= n - 20
      /\ exists p, unpack buf = Unpacked p
           /\ payload p
              = firstn (Z.to_nat (declared_length buf)) (skipn 20 buf)
           /\ length p = declared_length buf
           /\ checksum p
              = rd32 (octet buf 16) (octet buf 17) (octet buf 18) (octet buf 19)).
Proof.
  by_view buf.
  - left. split; [exact Hshort | apply unpack_short, Hshort].
  - cbv zeta. rewrite header_length, magic_ok_header, unpack_header.
    unfold declared_length, octet. cbn [nth skipn].
    destruct (negb (Byte.eqb m0 MAGIC0) || negb (Byte.eqb m1 MAGIC1)
              || negb (Byte.eqb v VERSION)); cbn [negb].
    + right; left. repeat split; lia.
    + rewrite Z.gtb_ltb.
      destruct (Z.ltb_spec (Z.of_nat (List.length body)) (rd16 l0 l1)).
      * right; right; left. repeat split; lia.
      * right; right; right. repeat split; try lia.
        eexists. repeat split.
Qed.

(** C5: [unpack] fails with the short-header code exactly when fewer than
    20 octets are supplied; with the bad-magic code exactly when there are
    at least 20 octets and the magic or the version is wrong; with the
    truncated-payload code exactly when, the header being accepted, the
    declared length exceeds the octets that follow it; it succeeds in every
    other case, returning the declared number of payload octets and the
    same packet whatever follows them; and the four octets of the checksum
    field never change the outcome, only the [checksum] field returned. *)
Theorem unpack_failure_modes (buf : list byte) :
  let n := Z.of_nat (List.length buf) in
  (unpack buf = Failed ShortHeader <-> n < 20)
  /\ (unpack buf = Failed BadMagic <-> 20 <= n /\ magic_ok buf = false)
  /\ (unpack buf = Failed TruncatedPayload
      <-> 20 <= n /\ magic_ok buf = true /\ n - 20 < declared_length buf)
  /\ ((exists p, unpack buf = Unpacked p)
      <-> 20 <= n /\ magic_ok buf = true /\ declared_length buf <= n - 20)
  /\ (forall p, unpack buf = Unpacked p ->
        payload p = firstn (Z.to_nat (declared_length buf)) (skipn 20 buf)
        /\ forall extra, unpack (buf ++ extra) = Unpacked p)
  /\ (forall k0 k1 k2 k3, 20 <= n ->
        unpack (with_checksum_octets buf [k0; k1; k2; k3])
        = match unpack buf with
          | Unpacked p => Unpacked (set_checksum (rd32 k0 k1 k2 k3) p)
          | Failed e => Failed e
          end).
Proof.
  cbv zeta.
  pose proof (unpack_cases buf) as Hc. cbv zeta in Hc.
  assert (Hiff :
    (unpack buf = Failed ShortHeader <-> Z.of_nat (List.length buf) < 20)
    /\ (unpack buf = Failed BadMagic
        <-> 20 <= Z.of_nat (List.length buf) /\ magic_ok buf = false)
    /\ (unpack buf = Failed TruncatedPayload
        <-> 20 <= Z.of_nat (List.length buf) /\ magic_ok buf = true
            /\ Z.of_nat (List.length buf) - 20 < declared_length buf)
    /\ ((exists p, unpack buf = Unpacked p)
        <-> 20 <= Z.of_nat (List.length buf) /\ magic_ok buf = true
            /\ declared_length buf <= Z.of_nat (List.length buf) - 20)
    /\ (forall p, unpack buf = Unpacked p ->
          payload p
          = firstn (Z.to_nat (declared_length buf)) (skipn 20 buf))).
  { destruct Hc as [[? U]|[(? & ? & U)|[(? & ? & ? & U)
                                       |(? & ? & ? & p & U & Hp & _)]]];
      (refine (conj _ (conj _ (conj _ (conj _ _)))));
      try (intros q Hq; rewrite U in Hq;
           first [discriminate | injection Hq as <-; exact Hp]);
      split; intro Hx;
      repeat match goal with
             | H : _ /\ _ |- _ => destruct H
             | H : exists _, _ |- _ => destruct H
             end;
      solve [ assumption | lia | congruence
            | repeat split; (assumption || lia)
            | eexists; eassumption ]. }
  destruct Hiff as (H1 & H2 & H3 & H4 & H5).
  refine (conj H1 (conj H2 (conj H3 (conj H4 (conj _ _))))).
  - intros p H. split; [apply H5, H|].
    intro extra. clear Hc H1 H2 H3 H4 H5. revert H. by_view buf.
    + rewrite unpack_short by exact Hshort. discriminate.
    + cbn [app]. rewrite !unpack_header.
      destruct (negb (Byte.eqb m0 MAGIC0) || negb (Byte.eqb m1 MAGIC1)
                || negb (Byte.eqb v VERSION)); [discriminate|].
      rewrite !Z.gtb_ltb.
      destruct (Z.ltb_spec (Z.of_nat (List.length body)) (rd16 l0 l1));
        [discriminate|].
      intro E. injection E as <-.
      destruct (Z.ltb_spec (Z.of_nat (List.length (body ++ extra)))
                  (rd16 l0 l1)) as [Hlt|_].
      * rewrite length_app in Hlt. lia.
      * rewrite firstn_app.
        replace (Z.to_nat (rd16 l0 l1) - List.length body)%nat with 0%nat
          by lia.
        cbn [firstn]. rewrite app_nil_r. reflexivity.
  - intros k0 k1 k2 k3 Hn. clear Hc H1 H2 H3 H4 H5. revert Hn. by_view buf.
    + unfold HEADER_SIZE in Hshort. lia.
    + intros _. unfold with_checksum_octets. cbn [firstn skipn app].
      rewrite !unpack_header.
      destruct (negb (Byte.eqb m0 MAGIC0) || negb (Byte.eqb m1 MAGIC1)
                || negb (Byte.eqb v VERSION)); [reflexivity|].
      destruct (rd16 l0 l1 >? Z.of_nat (List.length body)); reflexivity.
Qed.

Lemma filled_in_iff (p : Packet) :
  0 <= checksum p < 2 ^ 32 ->
  (be32 (wire_checksum p) = be32 (checksum p)
   <-> checksum_filled_in p = false).
Proof.
  intro Hc. unfold wire_checksum, checksum_filled_in.
  destruct (Byte.eqb (ptype p) PT_DATA && (checksum p =? 0)
            && (0 <? payload_size p)) eqn:E; cbn [andb negb].
  - apply andb_prop in E as [E _]. apply andb_prop in E as [_ E].
    apply Z.eqb_eq in E. rewrite E.
    pose proof (ru_crc32_u32 (payload p)) as Hr.
    destruct (Z.eqb_spec (Crc32.ru_crc32 (payload p)) 0) as [E0|N0];
      cbn [negb].
    + rewrite E0. split; reflexivity.
    + split; [|discriminate].
      intro Hb. apply be32_inj in Hb; [contradiction | exact Hr | lia].
  - split; reflexivity.
Qed.




End Codec.

(** ** The receiver *)

Module ServerFacts.
Import Util Server.

Lemma streq_eq (a b : list byte) : streq a b = true <-> a = b.
Proof.
  revert b. induction a as [|x a IH]; intros [|y b]; cbn [streq];
    try (split; (reflexivity || discriminate)).
  rewrite andb_true_iff, IH. split.
  - intros [E ->]. apply Byte.byte_dec_bl in E. now subst.
  - intro E. injection E as -> ->. split; [|reflexivity].
    now apply Byte.byte_dec_lb.
Qed.

Lemma find_session_some (ss : list Session) (k : list byte) (s : Session) :
  find_session ss k = Some s -> In s ss /\ key s = k.
Proof.
  induction ss as [|x ss IH]; cbn [find_session]; [discriminate|].
  destruct (streq (key x) k) eqn:E.
  - intro H. injection H as <-. split; [now left | now apply streq_eq].
  - intro H. destruct (IH H) as [Hin Hk]. split; [now right | exact Hk].
Qed.

Lemma find_update_session (f : Session -> Session) (ss : list Session)
  (k : list byte) (s : Session) :
  find_session ss k = Some s -> key (f s) = key s ->
  find_session (update_session f ss k) k = Some (f s).
Proof.
  induction ss as [|x ss IH]; cbn [find_session update_session];
    [discriminate|].
  destruct (streq (key x) k) eqn:E.
  - intros H Hk. injection H as <-. cbn [find_session].
    rewrite Hk, E. reflexivity.
  - intros H Hk. cbn [find_session]. rewrite E. apply IH; assumption.
Qed.

Lemma cleanup_old_absent (ss : list Session) (k : list byte) :
  find_session ss k = None -> cleanup_old_session ss k = ss.
Proof.
  induction ss as [|x ss IH]; cbn [find_session cleanup_old_session];
    [reflexivity|].
  destruct (streq (key x) k); [discriminate|].
  intro H. now rewrite IH.
Qed.

Lemma Forall_cleanup_old (P : Session -> Prop) (ss : list Session)
  (k : list byte) :
  Forall P ss -> Forall P (cleanup_old_session ss k).
Proof.
  induction 1 as [|x ss Hx Hss IH]; cbn [cleanup_old_session];
    [constructor|].
  destruct (streq (key x) k); [exact Hss | now constructor].
Qed.

Lemma Forall_cleanup_inactive (P : Session -> Prop) (ss : list Session)
  (now : Z) :
  Forall P ss -> Forall P (cleanup_inactive_sessions now ss).
Proof.
  intro H. unfold cleanup_inactive_sessions.
  apply Forall_forall. intros s Hs. apply filter_In in Hs as [Hs _].
  revert s Hs. now apply Forall_forall.
Qed.

Lemma Forall_update_session (P : Session -> Prop) (f : Session -> Session)
  (ss : list Session) (k : list byte) :
  (forall s, find_session ss k = Some s -> P s -> P (f s)) ->
  Forall P ss -> Forall P (update_session f ss k).
Proof.
  intros Hf H. induction H as [|x ss Hx Hss IH];
    cbn [update_session find_session] in *; [constructor|].
  destruct (streq (key x) k).
  - constructor; [now apply Hf | exact Hss].
  - constructor; [exact Hx | now apply IH].
Qed.

Lemma length_cleanup_old (ss : list Session) (k : list byte) :
  (List.length (cleanup_old_session ss k) <= List.length ss)%nat.
Proof.
  induction ss as [|x ss IH]; cbn [cleanup_old_session List.length]; [lia|].
  destruct (streq (key x) k); cbn [List.length]; lia.
Qed.

Lemma length_update_session (f : Session -> Session) (ss : list Session)
  (k : list byte) :
  List.length (update_session f ss k) = List.length ss.
Proof.
  induction ss as [|x ss IH]; cbn [update_session List.length];
    [reflexivity|].
  destruct (streq (key x) k); cbn [List.length]; lia.
Qed.

Lemma commit_ok (data : list byte) (s : Session) :
  session_ok s -> expected s < 2 ^ 32 -> session_ok (commit data s).
Proof.
  intros [Hr He] Hlt. unfold session_ok, commit.
  cbn [expected received]. rewrite He. unfold u64.
  rewrite Z.mod_small by lia. lia.
Qed.

Lemma on_data_ok (st : State) (k : list byte) (p : Protocol.Packet)
  (clock : Z) :
  0 <= Protocol.seq p < 2 ^ 32 ->
  state_ok st -> state_ok (fst (on_data st k p clock)).
Proof.
  intros Hseq [Hs Hl]. unfold on_data.
  destruct (find_session (sessions st) k) as [s0|] eqn:F;
    [|split; assumption].
  destruct (negb (Crc32.ru_crc32 (Protocol.payload p)
                  =? Protocol.checksum p));
    (split; cbn [fst sessions];
     [apply Forall_update_session; [intros s Fs Ok | exact Hs]
     | rewrite length_update_session; exact Hl]).
  - exact Ok.
  - rewrite F in Fs. injection Fs as <-.
    destruct (Z.eqb_spec (Protocol.seq p) (expected (touch clock s0)))
      as [E|_]; [|exact Ok].
    apply commit_ok; [exact Ok|]. rewrite <- E. lia.
Qed.

Lemma on_handshake_ok (a : Args) (st : State) (k : list byte)
  (p : Protocol.Packet) (clock clock' : Z) (fopen_ok : bool) :
  state_ok st -> state_ok (fst (on_handshake a st k p clock clock' fopen_ok)).
Proof.
  intros [Hs Hl]. unfold on_handshake.
  destruct (Z.of_nat (List.length (metadata p)) <? 5); [split; assumption|].
  pose proof (length_cleanup_old (sessions st) k) as Hc.
  pose proof (Forall_cleanup_old session_ok (sessions st) k Hs) as Hf.
  destruct (Z.leb_spec MAX_SESSIONS
              (Z.of_nat (List.length (cleanup_old_session (sessions st) k))));
    [split; cbn [fst sessions]; [exact Hf | lia]|].
  destruct fopen_ok; split; cbn [fst sessions]; try exact Hf; try lia.
  - apply Forall_app. split; [exact Hf|].
    constructor; [|constructor].
    unfold session_ok, new_session. cbn [expected received]. lia.
  - rewrite length_app. cbn [List.length]. lia.
Qed.

Lemma server_step_ok (a : Args) (st : State) (e : event) :
  state_ok st -> state_ok (fst (server_step a st e)).
Proof.
  intro Ok. destruct e as [now sweep| |k buf clock clock' fo];
    cbn [server_step]; try exact Ok.
  - destruct (10000 <? u64 (now - last_cleanup st)); [|exact Ok].
    destruct Ok as [Hs Hl]. split; cbn [fst sessions].
    + now apply Forall_cleanup_inactive.
    + unfold cleanup_inactive_sessions.
      pose proof (filter_length_le
                    (fun s => negb (30000 <? u64 (sweep - last_activity s)))
                    (sessions st)). lia.
  - destruct (Protocol.unpack buf) as [p|] eqn:U; [|exact Ok].
    destruct (Byte.eqb (Protocol.ptype p) Protocol.PT_HANDSHAKE);
      [now apply on_handshake_ok|].
    destruct (Byte.eqb (Protocol.ptype p) Protocol.PT_DATA).
    { apply on_data_ok; [|exact Ok].
      apply (ProtocolFacts.unpack_fields buf p U). }
    destruct (Byte.eqb (Protocol.ptype p) Protocol.PT_FIN); [|exact Ok].
    destruct Ok as [Hs Hl]. split; cbn [on_fin fst sessions].
    + now apply Forall_cleanup_old.
    + pose proof (length_cleanup_old (sessions st) k). lia.
Qed.

Lemma run_cons (a : Args) (st : State) (e : event) (evs : list event) :
  fst (run a st (e :: evs)) = fst (run a (fst (server_step a st e)) evs).
Proof.
  cbn [run]. destruct (server_step a st e) as [st1 out1]. cbn [fst].
  destruct (run a st1 evs). reflexivity.
Qed.

Lemma run_ok (a : Args) (evs : list event) (st : State) :
  state_ok st -> state_ok (fst (run a st evs)).
Proof.
  revert st. induction evs as [|e evs IH]; intros st Ok; [exact Ok|].
  rewrite run_cons. apply IH, server_step_ok, Ok.
Qed.

Lemma state_after_ok (a : Args) (clock : Z) (evs : list event) :
  state_ok (state_after a clock evs).
Proof.
  apply run_ok. split; [constructor | cbn; unfold MAX_SESSIONS; lia].
Qed.

Lemma ack_seq_small (exp : Z) :
  0 <= exp <= 2 ^ 32 -> ack_seq exp = Z.max exp 1 - 1.
Proof.
  intro H. unfold ack_seq, u32.
  destruct (Z.ltb_spec 0 exp); rewrite Z.mod_small by lia; lia.
Qed.

End ServerFacts.

Section ReceiverData.
Import Util Server ServerFacts.

Variable a : Args.

Lemma data_step (st : State) (k buf : list byte) (p : Protocol.Packet)
  (clock clock' : Z) (fo : bool) :
  Protocol.unpack buf = Protocol.Unpacked p ->
  Protocol.ptype p = Protocol.PT_DATA ->
  server_step a st (Datagram k buf clock clock' fo) = on_data st k p clock.
Proof.
  intros U T. cbn [server_step]. rewrite U, T. reflexivity.
Qed.

(** C1: a DATA packet with a valid checksum for an existing session.  In
    order ([seq = expected]): the payload is appended to the sink and
    [expected] and [received] grow by one.  Out of order: nothing is
    appended and the session keeps every field but the activity stamp,
    which is refreshed.  Either way the only reply is an ACK whose [seq]
    is [max expected 1 - 1] for the updated [expected]: the packet handed
    to [pack] has the magic and version, type ACK, that [seq], and every
    other field zero and no payload. *)
Theorem data_in_order_delivery (clock0 : Z) (evs : list event)
  (k buf : list byte) (p : Protocol.Packet) (s : Session)
  (clock clock' : Z) (fo : bool) :
  let st := state_after a clock0 evs in
  find_session (sessions st) k = Some s ->
  Protocol.unpack buf = Protocol.Unpacked p ->
  Protocol.ptype p = Protocol.PT_DATA ->
  Crc32.ru_crc32 (Protocol.payload p) = Protocol.checksum p ->
  exists s',
    server_step a st (Datagram k buf clock clock' fo)
    = (mkState (update_session (fun _ => s') (sessions st) k)
         (last_cleanup st),
       [(k, Protocol.mkPacket Protocol.MAGIC0 Protocol.MAGIC1
             Protocol.VERSION Protocol.PT_ACK
             (Z.max (expected s') 1 - 1) 0 0 0 0 [])])
    /\ find_session (update_session (fun _ => s') (sessions st) k) k = Some s'
    /\ (Protocol.seq p = expected s ->
        s' = commit (Protocol.payload p) (touch clock s)
        /\ ofs s' = ofs s ++ Protocol.payload p
        /\ expected s' = expected s + 1
        /\ received s' = received s + 1)
    /\ (Protocol.seq p <> expected s ->
        s' = touch clock s
        /\ ofs s' = ofs s
        /\ expected s' = expected s
        /\ received s' = received s).
Proof.
  intros st F U T C.
  pose proof (state_after_ok a clock0 evs) as [Hok _]. fold st in Hok.
  destruct (find_session_some _ _ _ F) as [Hin Hk].
  pose proof (proj1 (Forall_forall _ _) Hok s Hin) as [Hr He].
  destruct (ProtocolFacts.unpack_fields buf p U) as [Hseq _].
  rewrite (data_step st k buf p clock clock' fo U T).
  unfold on_data. rewrite F, C, Z.eqb_refl. cbn [negb].
  cbn [touch expected].
  destruct (Z.eqb_spec (Protocol.seq p) (expected s)) as [E|N].
  - exists (commit (Protocol.payload p) (touch clock s)).
    assert (Hx : expected (commit (Protocol.payload p) (touch clock s))
                 = expected s + 1).
    { cbn [commit touch expected]. unfold u64.
      apply Z.mod_small. lia. }
    assert (Hy : received (commit (Protocol.payload p) (touch clock s))
                 = received s + 1).
    { cbn [commit touch received]. unfold u64.
      apply Z.mod_small. lia. }
    split; [|split; [|split]].
    + unfold ack_packet, cumulative_ack.
      rewrite ack_seq_small; [reflexivity|].
      rewrite Hx. lia.
    + apply (find_update_session (fun _ => _) _ _ s F). reflexivity.
    + intros _. repeat split; assumption.
    + intro N. contradiction.
  - exists (touch clock s).
    split; [|split; [|split]].
    + unfold ack_packet, cumulative_ack.
      rewrite ack_seq_small; [reflexivity|].
      cbn [touch expected]. lia.
    + apply (find_update_session (fun _ => _) _ _ s F). reflexivity.
    + intro E. contradiction.
    + intros _. repeat split.
Qed.

(** C6: a DATA packet whose CRC-32 differs from its checksum field, for
    an existing session: nothing is appended, [expected] and [received]
    keep their values (the session keeps every field but the refreshed
    activity stamp), and the only reply is an ACK with [seq = expected - 1],
    or [0] when [expected] is [0]: the packet handed to [pack] has the
    magic and version, type ACK, that [seq], and every other field zero
    and no payload. *)
Theorem corrupt_data_dropped (clock0 : Z) (evs : list event)
  (k buf : list byte) (p : Protocol.Packet) (s : Session)
  (clock clock' : Z) (fo : bool) :
  let st := state_after a clock0 evs in
  find_session (sessions st) k = Some s ->
  Protocol.unpack buf = Protocol.Unpacked p ->
  Protocol.ptype p = Protocol.PT_DATA ->
  Crc32.ru_crc32 (Protocol.payload p) <> Protocol.checksum p ->
  server_step a st (Datagram k buf clock clock' fo)
  = (mkState (update_session (touch clock) (sessions st) k) (last_cleanup st),
     [(k, Protocol.mkPacket Protocol.MAGIC0 Protocol.MAGIC1
             Protocol.VERSION Protocol.PT_ACK
             (if expected s =? 0 then 0 else expected s - 1) 0 0 0 0 [])])
  /\ find_session (update_session (touch clock) (sessions st) k) k
     = Some (touch clock s)
  /\ ofs (touch clock s) = ofs s
  /\ expected (touch clock s) = expected s
  /\ received (touch clock s) = received s.
Proof.
  intros st F U T C.
  pose proof (state_after_ok a clock0 evs) as [Hok _]. fold st in Hok.
  destruct (find_session_some _ _ _ F) as [Hin Hk].
  pose proof (proj1 (Forall_forall _ _) Hok s Hin) as [Hr He].
  rewrite (data_step st k buf p clock clock' fo U T).
  unfold on_data. rewrite F.
  destruct (Z.eqb_spec (Crc32.ru_crc32 (Protocol.payload p))
              (Protocol.checksum p)) as [E|_]; [contradiction|].
  cbn [negb]. split; [|split; [|repeat split]].
  - unfold ack_packet, cumulative_ack. cbn [touch expected].
    rewrite ack_seq_small by lia.
    destruct (Z.eqb_spec (expected s) 0) as [->|N]; [reflexivity|].
    replace (Z.max (expected s) 1 - 1) with (expected s - 1) by lia.
    reflexivity.
  - apply (find_update_session (touch clock) _ _ s F). reflexivity.
Qed.

End ReceiverData.

(** After a handshake announcing two packets, packet 0 arrives intact. *)
Lemma data_in_order_delivery_witness :
  exists s',
    snd (Server.server_step Scenario.args
           (Server.state_after Scenario.args 0 Scenario.one_session)
           (Scenario.arrives Scenario.peer (Scenario.data 0 2 "hi")))
    = [(Scenario.peer,
        Protocol.mkPacket Protocol.MAGIC0 Protocol.MAGIC1 Protocol.VERSION
          Protocol.PT_ACK 0 0 0 0 0 [])]
    /\ Server.ofs s' = Util.cstr "hi"
    /\ Server.expected s' = 1
    /\ Server.received s' = 1.
Proof.
  destruct (data_in_order_delivery Scenario.args 0 Scenario.one_session
              Scenario.peer (Scenario.data 0 2 "hi")
              (Protocol.mkPacket Protocol.MAGIC0 Protocol.MAGIC1
                 Protocol.VERSION Protocol.PT_DATA 0 2 2 8
                 (Crc32.ru_crc32 (Util.cstr "hi")) (Util.cstr "hi"))
              (Server.new_session Scenario.args Scenario.peer
                 (Util.split (Util.cstr "a.bin|4|2|2|8") x7c) 1000 1000)
              1000 1000 true
              eq_refl eq_refl eq_refl eq_refl)
    as (s' & Hstep & _ & Hin & _).
  destruct (Hin eq_refl) as (_ & Ho & He & Hr).
  exists s'. split; [|repeat split; assumption].
  unfold Scenario.arrives. rewrite Hstep. cbn [snd]. rewrite He.
  reflexivity.
Defined.

(** The same packet with a damaged payload octet. *)
Lemma corrupt_data_dropped_witness :
  snd (Server.server_step Scenario.args
         (Server.state_after Scenario.args 0 Scenario.one_session)
         (Scenario.arrives Scenario.peer
            (Scenario.damaged (Scenario.data 0 2 "hi"))))
  = [(Scenario.peer,
      Protocol.mkPacket Protocol.MAGIC0 Protocol.MAGIC1 Protocol.VERSION
        Protocol.PT_ACK 0 0 0 0 0 [])].
Proof.
  destruct (corrupt_data_dropped Scenario.args 0 Scenario.one_session
              Scenario.peer (Scenario.damaged (Scenario.data 0 2 "hi"))
              (Protocol.mkPacket Protocol.MAGIC0 Protocol.MAGIC1
                 Protocol.VERSION Protocol.PT_DATA 0 2 2 8
                 (Crc32.ru_crc32 (Util.cstr "hi")) [x68; xff])
              (Server.new_session Scenario.args Scenario.peer
                 (Util.split (Util.cstr "a.bin|4|2|2|8") x7c) 1000 1000)
              1000 1000 true
              eq_refl eq_refl eq_refl ltac:(vm_compute; discriminate))
    as (Hstep & _).
  unfold Scenario.arrives. rewrite Hstep. reflexivity.
Defined.

(** ** Strings and decimal numbers *)

Module SplitFacts.
Import Util.

Lemma eqb_refl (c : byte) : Byte.eqb c c = true.
Proof. now apply Byte.byte_dec_lb. Qed.

Lemma eqb_neq (a b : byte) : Byte.eqb a b = false <-> a <> b.
Proof.
  split.
  - apply Byte.eqb_false.
  - intro N. destruct (Byte.eqb a b) eqn:E; [|reflexivity].
    apply Byte.byte_dec_bl in E. contradiction.
Qed.

Lemma split_from_nonempty (s part : list byte) (d : byte) :
  split_from part s d <> [].
Proof.
  revert part. induction s as [|c s IH]; intro part; cbn [split_from];
    [discriminate|].
  destruct (Byte.eqb c d); [discriminate | apply IH].
Qed.

Lemma join_cons (d : byte) (part : list byte) (rest : list (list byte)) :
  rest <> [] -> join d (part :: rest) = part ++ d :: join d rest.
Proof. destruct rest; [contradiction | reflexivity]. Qed.

(** The scan from any point: the part in progress is completed by what
    comes before the next [delim]. *)
Lemma split_from_spec (d : byte) (s part : list byte) :
  ~ In d part ->
  List.length (split_from part s d) = S (occurrences d s)
  /\ Forall (fun x => ~ In d x) (split_from part s d)
  /\ join d (split_from part s d) = part ++ s.
Proof.
  revert part. induction s as [|c s IH]; intros part Hp.
  - cbn. rewrite app_nil_r. repeat split. constructor; [exact Hp|constructor].
  - cbn [split_from]. unfold occurrences. cbn [filter].
    destruct (Byte.eqb c d) eqn:E.
    + apply Byte.byte_dec_bl in E. subst c. rewrite eqb_refl.
      destruct (IH [] (fun H => H)) as (Hl & Hf & Hj).
      cbn [List.length]. split; [now rewrite Hl|].
      split; [now constructor|].
      rewrite join_cons by apply split_from_nonempty.
      rewrite Hj. reflexivity.
    + assert (Ed : Byte.eqb d c = false).
      { apply eqb_neq. apply eqb_neq in E. congruence. }
      rewrite Ed.
      assert (Hp' : ~ In d (part ++ [c])).
      { rewrite in_app_iff. intros [H|[H|[]]]; [contradiction|].
        apply eqb_neq in E. congruence. }
      destruct (IH (part ++ [c]) Hp') as (Hl & Hf & Hj).
      split; [exact Hl|]. split; [exact Hf|].
      rewrite Hj, <- app_assoc. reflexivity.
Qed.

End SplitFacts.

Module DecimalFacts.
Import Util.

Lemma isdigit_range (c : byte) : isdigit c = true <-> 48 <= b2z c <= 57.
Proof.
  unfold isdigit. rewrite andb_true_iff, !Z.leb_le. tauto.
Qed.

Lemma digit_of (n : Z) : isdigit (z2b (48 + n mod 10)) = true.
Proof.
  apply isdigit_range. rewrite b2z_z2b.
  pose proof (Z.mod_pos_bound n 10 ltac:(lia)).
  rewrite Z.mod_small; lia.
Qed.

Lemma digit_value_of (n : Z) : b2z (z2b (48 + n mod 10)) - 48 = n mod 10.
Proof.
  rewrite b2z_z2b.
  pose proof (Z.mod_pos_bound n 10 ltac:(lia)).
  rewrite Z.mod_small; lia.
Qed.

Lemma digit_is_not (c x : byte) :
  isdigit c = true -> (b2z x < 48 \/ 57 < b2z x) -> c <> x.
Proof.
  intros H Hx E. subst x. apply isdigit_range in H. lia.
Qed.

Lemma digit_not_space (c : byte) : isdigit c = true -> isspace c = false.
Proof.
  intro H. pose proof (proj1 (isdigit_range c) H) as Hr. unfold isspace.
  assert (E : Byte.eqb c x20 = false).
  { apply SplitFacts.eqb_neq. apply (digit_is_not c x20 H). cbn. lia. }
  rewrite E. cbn [orb].
  destruct (Z.leb_spec (b2z c) 13); [lia|]. apply andb_false_r.
Qed.

(** The digits are put in front of [acc]; there are at most [fuel] of
    them, and at least one when there is fuel. *)
Lemma utoa_digits_shape (fuel : nat) (n : Z) (acc : list byte) :
  exists ds,
    utoa_digits fuel n acc = ds ++ acc
    /\ Forall (fun c => isdigit c = true) ds
    /\ (List.length ds <= fuel)%nat
    /\ (fuel <> O -> ds <> []).
Proof.
  revert n acc. induction fuel as [|fuel IH]; intros n acc.
  - exists []. split; [reflexivity|]. split; [constructor|].
    split; [cbn; lia | congruence].
  - cbn [utoa_digits]. destruct (n / 10 =? 0).
    + exists [z2b (48 + n mod 10)]. split; [reflexivity|].
      split; [constructor; [apply digit_of | constructor]|].
      split; [cbn; lia | discriminate].
    + destruct (IH (n / 10) (z2b (48 + n mod 10) :: acc))
        as (ds & E & Hd & Hl & _).
      exists (ds ++ [z2b (48 + n mod 10)]).
      split; [rewrite E, <- app_assoc; reflexivity|].
      split.
      { apply Forall_app. split; [exact Hd|].
        constructor; [apply digit_of | constructor]. }
      split; [rewrite length_app; cbn; lia|].
      intros _ H. apply app_eq_nil in H as [_ H]. discriminate.
Qed.

(** Reading the digits back continues the number read so far. *)
Lemma utoa_digits_value (fuel : nat) (n : Z) (acc : list byte) :
  0 <= n < 10 ^ Z.of_nat fuel ->
  exists k, 0 <= k /\ forall a,
    digits_value a (utoa_digits fuel n acc)
    = digits_value (a * 10 ^ k + n) acc.
Proof.
  revert n acc. induction fuel as [|fuel IH]; intros n acc Hn.
  - exists 0. split; [lia|]. intro a. cbn [utoa_digits].
    change (10 ^ Z.of_nat 0) with 1 in Hn. f_equal. lia.
  - cbn [utoa_digits].
    destruct (Z.eqb_spec (n / 10) 0) as [E|E].
    + exists 1. split; [lia|]. intro a. cbn [digits_value].
      rewrite digit_of, digit_value_of. f_equal.
      assert (n mod 10 = n) by (rewrite (Z.div_mod n 10) at 2; lia).
      lia.
    + assert (Hq : 0 <= n / 10 < 10 ^ Z.of_nat fuel).
      { split; [apply Z.div_pos; lia|].
        apply Z.div_lt_upper_bound; [lia|].
        replace (Z.of_nat (S fuel)) with (Z.of_nat fuel + 1) in Hn by lia.
        rewrite Z.pow_add_r in Hn by lia. lia. }
      destruct (IH (n / 10) (z2b (48 + n mod 10) :: acc) Hq) as (k & Hk & Hv).
      exists (k + 1). split; [lia|]. intro a. rewrite Hv.
      cbn [digits_value]. rewrite digit_of, digit_value_of. f_equal.
      rewrite Z.pow_add_r by lia. rewrite (Z.div_mod n 10) at 3 by lia.
      lia.
Qed.

Lemma utoa_shape (n : Z) :
  exists ds,
    utoa n = ds /\ Forall (fun c => isdigit c = true) ds
    /\ (List.length ds <= 20)%nat /\ ds <> [].
Proof.
  destruct (utoa_digits_shape 20 n []) as (ds & E & Hd & Hl & Hne).
  exists ds. rewrite app_nil_r in E.
  split; [exact E|]. split; [exact Hd|]. split; [exact Hl|].
  apply Hne. discriminate.
Qed.

Lemma digits_value_utoa (n : Z) :
  0 <= n < 10 ^ 20 -> digits_value 0 (utoa n) = n.
Proof.
  intro Hn. destruct (utoa_digits_value 20 n [] Hn) as (k & _ & Hv).
  unfold utoa. rewrite Hv. reflexivity.
Qed.

(** [atoll] reads back what ["%zu"] wrote. *)
Lemma atoll_utoa (n : Z) : 0 <= n <= LLONG_MAX -> atoll (utoa n) = n.
Proof.
  intro Hn. unfold LLONG_MAX in Hn.
  pose proof (digits_value_utoa n ltac:(lia)) as Hv.
  destruct (utoa_shape n) as (ds & E & Hd & _ & Hne).
  rewrite E in *. destruct ds as [|c rest]; [contradiction|].
  pose proof (Forall_inv Hd) as Hc.
  unfold atoll. cbn [skip_spaces]. rewrite (digit_not_space c Hc).
  assert (E1 : Byte.eqb c x2d = false).
  { apply SplitFacts.eqb_neq. apply (digit_is_not c x2d Hc). cbn. lia. }
  assert (E2 : Byte.eqb c x2b = false).
  { apply SplitFacts.eqb_neq. apply (digit_is_not c x2b Hc). cbn. lia. }
  rewrite E1, E2, Hv. unfold clamp_llong, LLONG_MAX, LLONG_MIN. lia.
Qed.

Lemma utoa_without (n : Z) (x : byte) :
  (b2z x < 48 \/ 57 < b2z x) -> ~ In x (utoa n).
Proof.
  intros Hx Hin. destruct (utoa_shape n) as (ds & E & Hd & _).
  rewrite E in Hin. rewrite Forall_forall in Hd.
  apply (digit_is_not x x (Hd x Hin) Hx). reflexivity.
Qed.

Lemma length_utoa (n : Z) : (List.length (utoa n) <= 20)%nat.
Proof.
  destruct (utoa_shape n) as (ds & E & _ & Hl & _). now rewrite E.
Qed.

(** The digits [utoa] writes come before whatever was there. *)
Lemma utoa_digits_app (fuel : nat) :
  forall (n : Z) (acc : list byte),
    utoa_digits fuel n acc = utoa_digits fuel n [] ++ acc.
Proof.
  induction fuel as [|fuel IH]; intros n acc; cbn [utoa_digits];
    [reflexivity|].
  destruct (n / 10 =? 0); [reflexivity|].
  rewrite (IH (n / 10) (z2b (48 + n mod 10) :: acc)).
  rewrite (IH (n / 10) [z2b (48 + n mod 10)]).
  now rewrite <- app_assoc.
Qed.

(** [atoll] reads a number up to the first character that is no digit. *)
Lemma atoll_utoa_then (n : Z) (rest : list byte) :
  0 <= n <= LLONG_MAX ->
  match rest with
  | [] => True
  | c :: _ => isdigit c = false
  end ->
  atoll (utoa n ++ rest) = n.
Proof.
  intros Hn Hr. unfold LLONG_MAX in Hn.
  assert (Hv : digits_value 0 (utoa n ++ rest) = n).
  { unfold utoa. rewrite <- utoa_digits_app.
    destruct (utoa_digits_value 20 n rest ltac:(lia)) as (k & _ & Hv).
    rewrite Hv. destruct rest as [|c rest]; cbn [digits_value];
      [|rewrite Hr]; lia. }
  destruct (utoa_shape n) as (ds & E & Hd & _ & Hne).
  rewrite E in *. destruct ds as [|c ds]; [contradiction|].
  pose proof (Forall_inv Hd) as Hc.
  unfold atoll. cbn [app skip_spaces] in *. rewrite (digit_not_space c Hc).
  assert (E1 : Byte.eqb c x2d = false).
  { apply SplitFacts.eqb_neq. apply (digit_is_not c x2d Hc). cbn. lia. }
  assert (E2 : Byte.eqb c x2b = false).
  { apply SplitFacts.eqb_neq. apply (digit_is_not c x2b Hc). cbn. lia. }
  rewrite E1, E2, Hv. unfold clamp_llong, LLONG_MAX, LLONG_MIN. lia.
Qed.

End DecimalFacts.

Section ReceiverHandshake.
Import Util Server ServerFacts.

Variable a : Args.

Lemma handshake_step (st : State) (k buf : list byte) (p : Protocol.Packet)
  (clock clock' : Z) (fo : bool) :
  Protocol.unpack buf = Protocol.Unpacked p ->
  Protocol.ptype p = Protocol.PT_HANDSHAKE ->
  server_step a st (Datagram k buf clock clock' fo)
  = on_handshake a st k p clock clock' fo.
Proof.
  intros U T. cbn [server_step]. rewrite U, T. reflexivity.
Qed.

(** C7, as the code has it: a HANDSHAKE with at least five metadata fields
    from a peer without a session, arriving while the table holds 100
    sessions, is dropped: no session is created, the state is unchanged,
    and nothing at all is sent back (no ERROR either). *)
Theorem handshake_at_capacity_dropped (st : State) (k buf : list byte)
  (p : Protocol.Packet) (clock clock' : Z) (fo : bool) :
  Protocol.unpack buf = Protocol.Unpacked p ->
  Protocol.ptype p = Protocol.PT_HANDSHAKE ->
  5 <= Z.of_nat (List.length (metadata p)) ->
  find_session (sessions st) k = None ->
  Z.of_nat (List.length (sessions st)) = MAX_SESSIONS ->
  server_step a st (Datagram k buf clock clock' fo) = (st, []).
Proof.
  intros U T M F L.
  rewrite (handshake_step st k buf p clock clock' fo U T).
  unfold on_handshake.
  destruct (Z.ltb_spec (Z.of_nat (List.length (metadata p))) 5); [lia|].
  rewrite (cleanup_old_absent _ _ F).
  destruct (Z.leb_spec MAX_SESSIONS (Z.of_nat (List.length (sessions st))));
    [|lia].
  destruct st. reflexivity.
Qed.

(** Where no number starts, [atoll] returns 0. *)
Lemma atoll_no_number (s : list byte) :
  starts_with_number s = false -> atoll s = 0.
Proof.
  unfold starts_with_number, atoll.
  destruct (skip_spaces s) as [|c rest]; [reflexivity|].
  destruct (Byte.eqb c x2d); cbn [orb].
  - destruct rest as [|d rest]; [reflexivity|].
    intro H. cbn [digits_value]. rewrite H. reflexivity.
  - destruct (Byte.eqb c x2b).
    + destruct rest as [|d rest]; [reflexivity|].
      intro H. cbn [digits_value]. rewrite H. reflexivity.
    + intro H. cbn [digits_value]. rewrite H. reflexivity.
Qed.

Lemma no_digit_skip_spaces (s : list byte) :
  no_digit s = true -> no_digit (skip_spaces s) = true.
Proof.
  induction s as [|c s IH]; [reflexivity|].
  intro H. cbn [skip_spaces]. destruct (isspace c); [|exact H].
  apply IH. cbn [no_digit forallb] in H.
  now apply andb_prop in H as [_ H].
Qed.

(** In particular for an empty field and for one without any digit. *)
Lemma no_digit_no_number (s : list byte) :
  no_digit s = true -> starts_with_number s = false.
Proof.
  intro H. apply no_digit_skip_spaces in H. unfold starts_with_number.
  destruct (skip_spaces s) as [|c rest]; [reflexivity|].
  cbn [no_digit forallb] in H. apply andb_prop in H as [Hc Hr].
  apply negb_true_iff in Hc.
  destruct (Byte.eqb c x2d || Byte.eqb c x2b); [|exact Hc].
  destruct rest as [|d rest]; [reflexivity|].
  cbn [forallb] in Hr. apply andb_prop in Hr as [Hd _].
  now apply negb_true_iff in Hd.
Qed.


Lemma new_session_bounded (k : list byte) (parts : list (list byte))
  (clock clock' : Z) :
  bounded_by_total (new_session a k parts clock clock').
Proof.
  unfold bounded_by_total, new_session, u64. cbn [expected total].
  pose proof (Z.mod_pos_bound (atoll (nth 2 parts [])) (2 ^ 64)). lia.
Qed.

Lemma server_step_bounded (st : State) (e : event) :
  within_total st e = true ->
  Forall bounded_by_total (sessions st) ->
  Forall bounded_by_total (sessions (fst (server_step a st e))).
Proof.
  intros W H. destruct e as [now sweep| |k buf clock clock' fo];
    cbn [server_step within_total] in *; try exact H.
  - destruct (10000 <? u64 (now - last_cleanup st)); [|exact H].
    now apply Forall_cleanup_inactive.
  - destruct (Protocol.unpack buf) as [p|]; [|exact H].
    destruct (Byte.eqb (Protocol.ptype p) Protocol.PT_HANDSHAKE) eqn:T.
    { apply Byte.byte_dec_bl in T. rewrite T in W.
      unfold on_handshake.
      destruct (_ <? 5); [exact H|].
      pose proof (Forall_cleanup_old _ _ k H) as Hc.
      destruct (MAX_SESSIONS <=? _); [exact Hc|].
      destruct fo; [|exact Hc].
      cbn [fst sessions]. apply Forall_app. split; [exact Hc|].
      constructor; [apply new_session_bounded | constructor]. }
    destruct (Byte.eqb (Protocol.ptype p) Protocol.PT_DATA).
    { unfold on_data.
      destruct (find_session (sessions st) k) as [s0|] eqn:F; [|exact H].
      destruct (negb _); cbn [fst sessions];
        (apply Forall_update_session; [intros s Fs Ok | exact H]).
      - exact Ok.
      - rewrite F in Fs. injection Fs as <-.
        destruct (Z.eqb_spec (Protocol.seq p) (expected (touch clock s0)))
          as [E|_]; [|exact Ok].
        apply Z.ltb_lt in W. cbn [touch expected] in E.
        destruct Ok as [Hr Ht].
        unfold bounded_by_total, commit, touch, u64. cbn [expected total].
        rewrite Z.mod_small by lia. lia. }
    destruct (Byte.eqb (Protocol.ptype p) Protocol.PT_FIN); [|exact H].
    cbn [on_fin fst sessions]. now apply Forall_cleanup_old.
Qed.

Lemma run_bounded (evs : list event) (st : State) :
  all_within_total a st evs = true ->
  Forall bounded_by_total (sessions st) ->
  Forall bounded_by_total (sessions (fst (run a st evs))).
Proof.
  revert st. induction evs as [|e evs IH]; intros st W H; [exact H|].
  cbn [all_within_total] in W. apply andb_prop in W as [W1 W2].
  rewrite run_cons. apply IH; [exact W2|].
  now apply server_step_bounded.
Qed.


End ReceiverHandshake.

(** A hundred peers have a session; the handshake of one more is dropped. *)
Lemma handshake_at_capacity_dropped_witness :
  Server.server_step Scenario.args Scenario.full
    (Scenario.arrives Scenario.newcomer (Scenario.handshake "b.bin|4|2|2|8"))
  = (Scenario.full, []).
Proof.
  apply (handshake_at_capacity_dropped Scenario.args Scenario.full
           Scenario.newcomer (Scenario.handshake "b.bin|4|2|2|8")
           Scenario.second_handshake 1000 1000 true).
  - vm_compute. reflexivity.
  - reflexivity.
  - vm_compute. discriminate.
  - vm_compute. reflexivity.
  - vm_compute. reflexivity.
Defined.

(** With the table full, a well-formed handshake of five fields from a
    peer without a session is answered by nothing at all: in particular no
    ERROR packet is sent. *)
Lemma full_table_handshake_gets_no_error :
  let st := Scenario.full in
  let buf := Scenario.handshake "b.bin|4|2|2|8" in
  let out :=
    snd (Server.server_step Scenario.args st
           (Scenario.arrives Scenario.newcomer buf)) in
  Z.of_nat (List.length (Server.sessions st)) = Server.MAX_SESSIONS
  /\ Server.find_session (Server.sessions st) Scenario.newcomer = None
  /\ Protocol.unpack buf = Protocol.Unpacked Scenario.second_handshake
  /\ 5 <= Z.of_nat (List.length (Server.metadata Scenario.second_handshake))
  /\ out = []
  /\ ~ (exists pk, In (Scenario.newcomer, pk) out
                   /\ Protocol.ptype pk = Protocol.PT_ERROR).
Proof.
  cbv zeta.
  assert (E : snd (Server.server_step Scenario.args Scenario.full
                     (Scenario.arrives Scenario.newcomer
                        (Scenario.handshake "b.bin|4|2|2|8"))) = [])
    by (vm_compute; reflexivity).
  rewrite E.
  split; [vm_compute; reflexivity|].
  split; [vm_compute; reflexivity|].
  split; [vm_compute; reflexivity|].
  split; [vm_compute; discriminate|].
  split; [reflexivity|].
  intros (pk & [] & _).
Qed.




(** ** The sender *)

Module ClientFacts.
Import Util Client.

Lemma is_reply_awaited (reply : byte) (r : option (list byte)) :
  is_reply reply r = true <-> awaited reply r.
Proof.
  unfold is_reply, awaited. split.
  - destruct r as [[|b0 buf]|]; try discriminate.
    destruct (Protocol.unpack (b0 :: buf)) as [p|] eqn:U; [|discriminate].
    intro T. apply Byte.byte_dec_bl in T.
    exists (b0 :: buf), p.
    split; [reflexivity|]. split; [discriminate|]. split; assumption.
  - intros (buf & p & -> & Hn & U & T).
    destruct buf as [|b0 buf]; [contradiction|].
    rewrite U. subst reply. apply Byte.byte_dec_lb. reflexivity.
Qed.

Lemma is_reply_not_awaited (reply : byte) (r : option (list byte)) :
  is_reply reply r = false <-> ~ awaited reply r.
Proof.
  rewrite <- is_reply_awaited. destruct (is_reply reply r); split;
    congruence.
Qed.

(** What [wait] returns tells which of the three an attempt is. *)
Lemma wait_cases (timeout t0 : Z) (reply : byte) (ps : list poll) :
  match wait timeout t0 reply ps with
  | Answered => acknowledged timeout reply (mkAttempt t0 ps)
  | Expired => unanswered timeout reply (mkAttempt t0 ps)
  | Waiting => still_waiting timeout reply (mkAttempt t0 ps)
  end.
Proof.
  induction ps as [|q ps IH]; cbn [wait].
  - constructor.
  - destruct (Z.ltb_spec (u64 (poll_clock q - t0)) (u64 timeout)) as [Hin|Hup].
    + destruct (is_reply reply (poll_rbuf q)) eqn:R.
      * exists [], q, ps.
        split; [reflexivity|]. split; [constructor|]. split; [exact Hin|].
        now apply is_reply_awaited.
      * apply is_reply_not_awaited in R.
        destruct (wait timeout t0 reply ps).
        -- destruct IH as (before & x & after & E & Hb & Hx & Ha).
           cbn [attempt_polls attempt_t0] in *.
           exists (q :: before), x, after. rewrite E.
           split; [reflexivity|]. split; [constructor; assumption|].
           split; assumption.
        -- destruct IH as (before & x & after & E & Hb & Hx).
           cbn [attempt_polls attempt_t0] in *.
           exists (q :: before), x, after. rewrite E.
           split; [reflexivity|].
           split; [constructor; [split|]; assumption | assumption].
        -- constructor; [split; assumption | exact IH].
    + exists [], q, ps. split; [reflexivity|]. split; [constructor|].
      unfold in_time. cbn [attempt_t0]. lia.
Qed.

Lemma wait_acknowledged (timeout : Z) (reply : byte) (att : attempt) :
  acknowledged timeout reply att ->
  wait timeout (attempt_t0 att) reply (attempt_polls att) = Answered.
Proof.
  intros (before & q & after & -> & Hb & Hq & Ha).
  induction Hb as [|x before Hx Hb IH]; cbn [app wait].
  - destruct (Z.ltb_spec (u64 (poll_clock q - attempt_t0 att)) (u64 timeout));
      [|unfold in_time in Hq; lia].
    apply is_reply_awaited in Ha. now rewrite Ha.
  - destruct (Z.ltb_spec (u64 (poll_clock x - attempt_t0 att)) (u64 timeout));
      [|unfold in_time in Hx; lia].
    destruct (is_reply reply (poll_rbuf x)); [reflexivity | exact IH].
Qed.

Lemma wait_unanswered (timeout : Z) (reply : byte) (att : attempt) :
  unanswered timeout reply att ->
  wait timeout (attempt_t0 att) reply (attempt_polls att) = Expired.
Proof.
  intros (before & q & after & -> & Hb & Hq).
  induction Hb as [|x before [Hx Hn] Hb IH]; cbn [app wait].
  - destruct (Z.ltb_spec (u64 (poll_clock q - attempt_t0 att)) (u64 timeout));
      [contradiction | reflexivity].
  - destruct (Z.ltb_spec (u64 (poll_clock x - attempt_t0 att)) (u64 timeout));
      [|unfold in_time in Hx; lia].
    apply is_reply_not_awaited in Hn. rewrite Hn. exact IH.
Qed.

Lemma wait_still_waiting (timeout : Z) (reply : byte) (att : attempt) :
  still_waiting timeout reply att ->
  wait timeout (attempt_t0 att) reply (attempt_polls att) = Waiting.
Proof.
  unfold still_waiting. intro H.
  induction H as [|x ps [Hx Hn] Hb IH]; cbn [wait]; [reflexivity|].
  destruct (Z.ltb_spec (u64 (poll_clock x - attempt_t0 att)) (u64 timeout));
    [|unfold in_time in Hx; lia].
  apply is_reply_not_awaited in Hn. rewrite Hn. exact IH.
Qed.

Lemma wait_of (timeout : Z) (reply : byte) (att : attempt) :
  match wait timeout (attempt_t0 att) reply (attempt_polls att) with
  | Answered => acknowledged timeout reply att
  | Expired => unanswered timeout reply att
  | Waiting => still_waiting timeout reply att
  end.
Proof. destruct att as [t0 ps]. apply wait_cases. Qed.

Lemma nth_attempts (attempts : list attempt) (att : attempt) (m : nat) :
  nth (S m) (att :: attempts) no_attempt = nth m attempts no_attempt.
Proof. reflexivity. Qed.

(** Every packet the retry loop sends is the request. *)
Lemma request_repeats (n : nat) (timeout : Z) (pkt : Protocol.Packet)
  (reply : byte) (attempts : list attempt) :
  Forall (eq pkt) (snd (request n timeout pkt reply attempts)).
Proof.
  revert attempts. induction n as [|n IH]; intro attempts; cbn [request];
    [constructor|].
  destruct attempts as [|att rest]; [repeat constructor|].
  destruct (wait _ _ _ _); cbn [snd]; try (repeat constructor).
  specialize (IH rest).
  destruct (request n timeout pkt reply rest) as [r out]. cbn [snd] in *.
  constructor; [reflexivity | exact IH].
Qed.

(** The retry loop, read from the attempts: answered at attempt [i]. *)
Lemma request_answered (timeout : Z) (pkt : Protocol.Packet) (reply : byte)
  (i : nat) :
  forall (n : nat) (attempts : list attempt),
    (i < n)%nat ->
    (forall m, (m < i)%nat ->
       unanswered timeout reply (nth m attempts no_attempt)) ->
    acknowledged timeout reply (nth i attempts no_attempt) ->
    request n timeout pkt reply attempts = (Some true, repeat pkt (S i)).
Proof.
  induction i as [|i IH]; intros n attempts Hi Hb Ha;
    (destruct n as [|n]; [lia|]); cbn [request].
  - destruct attempts as [|att rest].
    + destruct Ha as (before & q & after & E & _).
      destruct before; discriminate.
    + cbn [nth] in Ha. now rewrite (wait_acknowledged _ _ _ Ha).
  - destruct attempts as [|att rest].
    + destruct (Hb 0%nat ltac:(lia)) as (before & q & after & E & _).
      destruct before; discriminate.
    + rewrite (wait_unanswered timeout reply att (Hb 0%nat ltac:(lia))).
      rewrite (IH n rest); [reflexivity | lia | | exact Ha].
      intros m Hm. apply (Hb (S m)). lia.
Qed.

(** Never answered. *)
Lemma request_unanswered (timeout : Z) (pkt : Protocol.Packet) (reply : byte)
  (n : nat) :
  forall attempts : list attempt,
    (forall m, (m < n)%nat ->
       unanswered timeout reply (nth m attempts no_attempt)) ->
    request n timeout pkt reply attempts = (Some false, repeat pkt n).
Proof.
  induction n as [|n IH]; intros attempts Hb; cbn [request];
    [reflexivity|].
  destruct attempts as [|att rest].
  - destruct (Hb 0%nat ltac:(lia)) as (before & q & after & E & _).
    destruct before; discriminate.
  - rewrite (wait_unanswered timeout reply att (Hb 0%nat ltac:(lia))).
    rewrite (IH rest); [reflexivity|].
    intros m Hm. apply (Hb (S m)). lia.
Qed.

(** Still waiting at attempt [i] when the polls given are used up. *)
Lemma request_waiting (timeout : Z) (pkt : Protocol.Packet) (reply : byte)
  (i : nat) :
  forall (n : nat) (attempts : list attempt),
    (i < n)%nat ->
    (forall m, (m < i)%nat ->
       unanswered timeout reply (nth m attempts no_attempt)) ->
    still_waiting timeout reply (nth i attempts no_attempt) ->
    request n timeout pkt reply attempts = (None, repeat pkt (S i)).
Proof.
  induction i as [|i IH]; intros n attempts Hi Hb Ha;
    (destruct n as [|n]; [lia|]); cbn [request].
  - destruct attempts as [|att rest]; [reflexivity|].
    cbn [nth] in Ha. now rewrite (wait_still_waiting _ _ _ Ha).
  - destruct attempts as [|att rest].
    + destruct (Hb 0%nat ltac:(lia)) as (before & q & after & E & _).
      destruct before; discriminate.
    + rewrite (wait_unanswered timeout reply att (Hb 0%nat ltac:(lia))).
      rewrite (IH n rest); [reflexivity | lia | | exact Ha].
      intros m Hm. apply (Hb (S m)). lia.
Qed.

(** And back: what the result of [request] says of the attempts. *)
Lemma request_cases (timeout : Z) (pkt : Protocol.Packet) (reply : byte)
  (n : nat) :
  forall attempts : list attempt,
    match fst (request n timeout pkt reply attempts) with
    | Some true =>
        exists i, (i < n)%nat
          /\ (forall m, (m < i)%nat ->
                unanswered timeout reply (nth m attempts no_attempt))
          /\ acknowledged timeout reply (nth i attempts no_attempt)
    | Some false =>
        forall m, (m < n)%nat ->
          unanswered timeout reply (nth m attempts no_attempt)
    | None =>
        exists i, (i < n)%nat
          /\ (forall m, (m < i)%nat ->
                unanswered timeout reply (nth m attempts no_attempt))
          /\ still_waiting timeout reply (nth i attempts no_attempt)
    end.
Proof.
  induction n as [|n IH]; intro attempts; cbn [request fst]; [lia|].
  destruct attempts as [|att rest].
  - cbn [fst]. exists 0%nat. split; [lia|]. split; [lia | constructor].
  - pose proof (wait_of timeout reply att) as Hw.
    destruct (wait timeout (attempt_t0 att) reply (attempt_polls att)).
    + cbn [fst]. exists 0%nat. split; [lia|]. split; [lia | exact Hw].
    + specialize (IH rest).
      destruct (request n timeout pkt reply rest) as [r out].
      cbn [fst] in *. destruct r as [[|]|].
      * destruct IH as (i & Hi & Hb & Ha). exists (S i).
        split; [lia|]. split; [|exact Ha].
        intros [|m] Hm; [exact Hw | apply Hb; lia].
      * intros [|m] Hm; [exact Hw | apply IH; lia].
      * destruct IH as (i & Hi & Hb & Ha). exists (S i).
        split; [lia|]. split; [|exact Ha].
        intros [|m] Hm; [exact Hw | apply Hb; lia].
    + cbn [fst]. exists 0%nat. split; [lia|]. split; [lia | exact Hw].
Qed.

Lemma total_packets_empty (chunk : Z) : 1 <= chunk -> total_packets 0 chunk = 0.
Proof.
  intro H. unfold total_packets, u64.
  apply Z.div_small.
  pose proof (Z.mod_pos_bound (0 + chunk - 1) (2 ^ 64) ltac:(lia)) as Hm.
  split; [lia|].
  destruct (Z.lt_ge_cases (chunk - 1) (2 ^ 64)) as [Hs|Hb].
  - rewrite Z.mod_small by lia. lia.
  - lia.
Qed.

(** The fuel [gbn_turn] gives the inner loop is enough: when it returns,
    the loop condition is false. *)
Lemma fill_window_done (a : Args) (total : Z) (t : tick) (fuel : nat)
  (st : SendState) :
  total - nextseq st <= Z.of_nat fuel ->
  let st' := fst (fill_window fuel a total t st) in
  (nextseq st' <? total) && (nextseq st' <? base st' + window a) = false.
Proof.
  revert st. induction fuel as [|fuel IH]; intros st Hf; cbv zeta.
  - cbn [fill_window fst].
    destruct (Z.ltb_spec (nextseq st) total); [lia | reflexivity].
  - cbn [fill_window].
    destruct ((nextseq st <? total) && (nextseq st <? base st + window a))
      eqn:C; [|exact C].
    match goal with
    | |- context [fill_window fuel a total t ?s1] =>
        specialize (IH s1); destruct (fill_window fuel a total t s1)
          as [st2 out] eqn:E
    end.
    cbn [fst nextseq] in *. apply IH. lia.
Qed.

(** The inner loop stops with the window full or the file exhausted. *)
Lemma fill_window_fills (a : Args) (total : Z) (t : tick) (fuel : nat)
  (st : SendState) :
  total - nextseq st <= Z.of_nat fuel ->
  window_invariant a total st ->
  let st' := fst (fill_window fuel a total t st) in
  base st' = base st
  /\ nextseq st' = Z.min (base st + window a) total
  /\ chunks st' = chunks st.
Proof.
  revert st. induction fuel as [|fuel IH]; intros st Hf [Hb Hn]; cbv zeta.
  - cbn [fill_window fst]. repeat split. lia.
  - cbn [fill_window].
    destruct (Z.ltb_spec (nextseq st) total) as [H1|H1];
      destruct (Z.ltb_spec (nextseq st) (base st + window a)) as [H2|H2];
      cbn [andb fst]; try (repeat split; lia).
    match goal with
    | |- context [fill_window fuel a total t ?s1] =>
        specialize (IH s1); destruct (fill_window fuel a total t s1)
          as [st2 out] eqn:E
    end.
    cbn [fst base nextseq chunks] in *.
    apply IH; [lia|]. split; cbn [base nextseq]; lia.
Qed.

Lemma receive_ack_keeps_window (a : Args) (total : Z) (t : tick)
  (st : SendState) :
  total < 2 ^ 32 -> 0 <= window a ->
  window_invariant a total st ->
  acks_sent_packet t st ->
  window_invariant a total (receive_ack t st)
  /\ nextseq (receive_ack t st) = nextseq st.
Proof.
  intros Ht Hw [Hb Hn] Hack. unfold receive_ack.
  destruct (inbound t) as [[|b0 buf]|] eqn:I;
    try solve [split; [split|]; trivial].
  destruct (Protocol.unpack (b0 :: buf)) as [p|] eqn:U;
    [|solve [split; [split|]; trivial]].
  destruct (Byte.eqb (Protocol.ptype p) Protocol.PT_ACK) eqn:T;
    [|solve [split; [split|]; trivial]].
  apply Byte.byte_dec_bl in T.
  specialize (Hack (b0 :: buf) p I U T).
  destruct (ProtocolFacts.unpack_fields _ _ U) as [Hseq _].
  unfold on_ack.
  destruct (Z.leb_spec (base st) (Protocol.seq p));
    [|solve [split; [split|]; trivial]].
  assert (E : u32 (Protocol.seq p + 1) = Protocol.seq p + 1).
  { unfold u32. apply Z.mod_small. lia. }
  rewrite E.
  destruct (Protocol.seq p + 1 =? nextseq st);
    unfold window_invariant; cbn [base nextseq]; lia.
Qed.

(** With ACKs for sent packets only, a turn of the send loop keeps
    [base <= nextseq <= min (base + window) total]. *)
Lemma gbn_turn_keeps_window (a : Args) (total : Z) (t : tick)
  (st st' : SendState) (out : list Protocol.Packet) :
  total < 2 ^ 32 -> 0 <= window a ->
  window_invariant a total st ->
  acks_sent_packet t
    (fst (fill_window (Z.to_nat (total - nextseq st)) a total t st)) ->
  gbn_turn a total t st = (Next st', out) ->
  window_invariant a total st'.
Proof.
  intros Ht Hw Inv Hack. unfold gbn_turn.
  pose proof (fill_window_fills a total t (Z.to_nat (total - nextseq st)) st
                ltac:(lia) Inv) as Hfill.
  cbv zeta in Hfill.
  destruct (fill_window (Z.to_nat (total - nextseq st)) a total t st)
    as [st1 sent1].
  cbn [fst] in *. destruct Hfill as (Fb & Fn & _).
  assert (Inv1 : window_invariant a total st1).
  { destruct Inv. unfold window_invariant. lia. }
  destruct (receive_ack_keeps_window a total t st1 Ht Hw Inv1 Hack)
    as [Inv2 _].
  destruct (timed_out a t (receive_ack t st1)).
  - destruct (max_retries a <? retries (receive_ack t st1) + 1);
      [discriminate|].
    intro E. injection E as <- _. exact Inv2.
  - intro E. injection E as <- _. exact Inv2.
Qed.

End ClientFacts.

(** C9: for an empty file and a chunk size of at least 1 the sender
    computes [total = 0]; the send loop is left at once, whatever the
    network would deliver, without using a tick or sending a packet; no
    DATA packet is among the packets [main] sends; and once a handshake
    is acknowledged (at attempt [i], the attempts before it having timed
    out) the next packet sent is the FIN: [main] sends [i + 1] copies of
    the handshake, whose metadata announce a size of 0 and a total of 0,
    and then nothing but copies of the FIN, ending with exit code 0 when a FIN is acknowledged
    and with 4 when all [max_retries] attempts time out. *)
Theorem empty_file_skips_transfer (a : Client.Args) (env : Client.Env) :
  1 <= Client.chunk a ->
  let hs := Client.handshake_packet a 0 0 in
  let fin := Protocol.blank Protocol.PT_FIN in
  let n := Z.to_nat (Client.max_retries a) in
  let ms := Client.timeout_ms a in
  let hs_wait m := nth m (Client.handshake_waits env) Client.no_attempt in
  let fin_wait m := nth m (Client.fin_waits env) Client.no_attempt in
  Client.total_packets 0 (Client.chunk a) = 0
  /\ (forall ticks,
        Client.send_loop a (Client.total_packets 0 (Client.chunk a)) ticks
          (Client.start
             (Client.prepare_chunks [] (Client.chunk a)
                (Client.total_packets 0 (Client.chunk a))))
        = (Client.Sent (Client.start []), []))
  /\ Forall (fun p => Protocol.ptype p <> Protocol.PT_DATA)
       (snd (Client.main a [] env))
  /\ Protocol.ptype hs = Protocol.PT_HANDSHAKE
  /\ Protocol.payload hs
     = Util.bounded 1024
         (Client.basename (Client.file a) ++ Util.cstr "|0|0|"
            ++ Util.utoa (Client.chunk a) ++ Util.cstr "|"
            ++ Util.utoa (Client.window a))
  /\ Protocol.ptype fin = Protocol.PT_FIN
  /\ (forall i,
        (i < n)%nat ->
        (forall m, (m < i)%nat ->
           Client.unanswered ms Protocol.PT_HANDSHAKE_ACK (hs_wait m)) ->
        Client.acknowledged ms Protocol.PT_HANDSHAKE_ACK (hs_wait i) ->
        (forall j,
           (j < n)%nat ->
           (forall m, (m < j)%nat ->
              Client.unanswered ms Protocol.PT_FIN_ACK (fin_wait m)) ->
           Client.acknowledged ms Protocol.PT_FIN_ACK (fin_wait j) ->
           Client.main a [] env
           = (Client.Exit 0, repeat hs (S i) ++ repeat fin (S j)))
        /\ ((forall m, (m < n)%nat ->
               Client.unanswered ms Protocol.PT_FIN_ACK (fin_wait m)) ->
            Client.main a [] env
            = (Client.Exit 4, repeat hs (S i) ++ repeat fin n))).
Proof.
  intro Hc. cbv zeta.
  pose proof (ClientFacts.total_packets_empty _ Hc) as Ht.
  assert (Hloop : forall ticks,
             Client.send_loop a 0 ticks (Client.start [])
             = (Client.Sent (Client.start []), [])).
  { intros [|t ticks]; reflexivity. }
  assert (Hz : (Client.chunk a =? 0) = false) by (apply Z.eqb_neq; lia).
  assert (Hp : Client.prepare_chunks [] (Client.chunk a) 0 = [])
    by reflexivity.
  split; [exact Ht|]. split; [intro ticks; rewrite Ht; apply Hloop|].
  split; [|split; [reflexivity|split; [reflexivity|split; [reflexivity|]]]].
  - unfold Client.main. rewrite Hz. cbn [List.length Z.of_nat]. cbv zeta.
    rewrite Ht, Hp, Hloop.
    pose proof (ClientFacts.request_repeats
                  (Z.to_nat (Client.max_retries a)) (Client.timeout_ms a)
                  (Client.handshake_packet a 0 0) Protocol.PT_HANDSHAKE_ACK
                  (Client.handshake_waits env)) as H1.
    pose proof (ClientFacts.request_repeats
                  (Z.to_nat (Client.max_retries a)) (Client.timeout_ms a)
                  (Protocol.blank Protocol.PT_FIN) Protocol.PT_FIN_ACK
                  (Client.fin_waits env)) as H3.
    assert (D1 : forall out,
               Forall (eq (Client.handshake_packet a 0 0)) out ->
               Forall (fun p => Protocol.ptype p <> Protocol.PT_DATA) out).
    { intros out H. eapply Forall_impl; [|exact H]. intros p <-.
      discriminate. }
    assert (D3 : forall out,
               Forall (eq (Protocol.blank Protocol.PT_FIN)) out ->
               Forall (fun p => Protocol.ptype p <> Protocol.PT_DATA) out).
    { intros out H. eapply Forall_impl; [|exact H]. intros p <-.
      discriminate. }
    destruct (Client.request _ _ _ _ (Client.handshake_waits env))
      as [[[|]|] out1]; cbn [snd] in *; try (now apply D1).
    destruct (Client.request _ _ _ _ (Client.fin_waits env))
      as [[ok|] out3]; cbn [snd app] in *;
      apply Forall_app; split; auto.
  - intros i Hi Hb Ha.
    assert (Hm : forall r out3,
               Client.request (Z.to_nat (Client.max_retries a))
                 (Client.timeout_ms a) (Protocol.blank Protocol.PT_FIN)
                 Protocol.PT_FIN_ACK (Client.fin_waits env)
               = (Some r, out3) ->
               Client.main a [] env
               = (Client.Exit (if r then 0 else 4),
                  repeat (Client.handshake_packet a 0 0) (S i) ++ out3)).
    { intros r out3 E. unfold Client.main. rewrite Hz.
      cbn [List.length Z.of_nat]. cbv zeta. rewrite Ht, Hp, Hloop.
      rewrite (ClientFacts.request_answered _ _ _ i _ _ Hi Hb Ha).
      rewrite E. reflexivity. }
    split.
    + intros j Hj Hbj Haj.
      apply (Hm true).
      apply (ClientFacts.request_answered _ _ _ j _ _ Hj Hbj Haj).
    + intro Hall. apply (Hm false).
      now apply ClientFacts.request_unanswered.
Qed.

(** The attempts of [Scenario]: one poll, with the time up; and a poll in
    time followed by one that holds the reply. *)
Ltac times_out :=
  exists [], (Client.mkPoll 1300 None), [];
  split; [reflexivity|]; split; [constructor|];
  vm_compute; discriminate.

Ltac is_acknowledged :=
  eexists [Client.mkPoll 2005 None], _, [];
  split; [reflexivity|];
  split; [constructor; [vm_compute; reflexivity | constructor]|];
  split; [vm_compute; reflexivity|];
  eexists; eexists; split; [reflexivity|];
  split; [vm_compute; discriminate|];
  split; [vm_compute; reflexivity | reflexivity].

(** An empty file; the first handshake gets no answer in 300 ms, the
    second is acknowledged, and so is the first FIN: two handshakes and
    one FIN are sent, and the exit code is 0. *)
Lemma empty_file_skips_transfer_witness :
  Client.total_packets 0 (Client.chunk Scenario.sender) = 0
  /\ Client.main Scenario.sender [] Scenario.obliging
     = (Client.Exit 0,
        [Client.handshake_packet Scenario.sender 0 0;
         Client.handshake_packet Scenario.sender 0 0;
         Protocol.blank Protocol.PT_FIN])
  /\ Forall (fun p => Protocol.ptype p <> Protocol.PT_DATA)
       (snd (Client.main Scenario.sender [] Scenario.obliging)).
Proof.
  destruct (empty_file_skips_transfer Scenario.sender Scenario.obliging
              ltac:(vm_compute; discriminate))
    as (Ht & _ & Hd & _ & _ & _ & Hrun).
  split; [exact Ht|]. split; [|exact Hd].
  refine (proj1 (Hrun 1%nat _ _ _) 0%nat _ _ _).
  - vm_compute. lia.
  - intros m Hm. assert (m = 0%nat) as -> by lia. times_out.
  - is_acknowledged.
  - vm_compute. lia.
  - intros m Hm. lia.
  - is_acknowledged.
Defined.

(** C2 fails on the code: the sender takes [seq + 1] of any ACK with
    [seq >= base] as its new [base], without comparing it with [nextseq].
    With ten packets to send and a window of four, the first turn sends
    packets 0 to 3; if the ACK of a receiver that expects packet 8 arrives
    in that turn, the turn ends with [base = 8] and [nextseq = 4], and
    packets 4 to 7 are freed unsent. *)
Theorem ack_beyond_window_breaks_invariant :
  let total := Client.total_packets 10 1 in
  let st0 :=
    Client.start (Client.prepare_chunks Scenario.ten_octets 1 total) in
  total = 10
  /\ Client.window_invariant Scenario.sender total st0
  /\ exists st1 out,
       Client.gbn_turn Scenario.sender total Scenario.stray_ack st0
       = (Client.Next st1, out)
       /\ map Protocol.seq out = [0; 1; 2; 3]
       /\ Client.base st1 = 8
       /\ Client.nextseq st1 = 4
       /\ firstn 8 (Client.chunks st1) = repeat None 8
       /\ ~ Client.window_invariant Scenario.sender total st1.
Proof.
  cbv zeta. split; [reflexivity|]. split; [vm_compute; split; discriminate|].
  eexists. eexists. split; [vm_compute; reflexivity|].
  split; [reflexivity|]. split; [reflexivity|]. split; [reflexivity|].
  split; [reflexivity|].
  unfold Client.window_invariant. cbn [Client.base Client.nextseq]. lia.
Qed.

(** The same slip with the largest sequence number: [seq + 1] wraps to 0
    in [uint32_t], so the ACK moves [base] back.  After packets 0 and 1
    were acknowledged the window is [2, 6); the ACK [0xFFFFFFFF] leaves
    [base = 0] with [nextseq = 6], beyond [base + window = 4]. *)
Example ack_wraps_base_backwards :
  let total := Client.total_packets 10 1 in
  let st0 :=
    Client.start (Client.prepare_chunks Scenario.ten_octets 1 total) in
  exists st1 out1 st2 out2,
    Client.gbn_turn Scenario.sender total (Scenario.ack_arrives 1) st0
    = (Client.Next st1, out1)
    /\ Client.window_invariant Scenario.sender total st1
    /\ Client.gbn_turn Scenario.sender total
         (Scenario.ack_arrives 0xFFFFFFFF) st1
       = (Client.Next st2, out2)
    /\ Client.base st2 = 0
    /\ Client.nextseq st2 = 6
    /\ ~ Client.window_invariant Scenario.sender total st2.
Proof.
  cbv zeta. do 4 eexists.
  split; [vm_compute; reflexivity|].
  split; [vm_compute; split; discriminate|].
  split; [vm_compute; reflexivity|].
  split; [reflexivity|]. split; [reflexivity|].
  unfold Client.window_invariant. cbn. lia.
Qed.

(** ** The definitions at work *)

(** The receiver: a handshake announcing two packets, then both packets. *)
Example two_packets_delivered :
  let (st, out) :=
    Server.run Scenario.args (Server.initial 0) Scenario.two_of_two in
  map (fun s => (Server.ofs s, Server.expected s, Server.received s))
    (Server.sessions st)
  = [(Util.cstr "hiyo", 2, 2)]
  /\ map (fun r => (Protocol.ptype (snd r), Protocol.seq (snd r))) out
     = [(Protocol.PT_HANDSHAKE_ACK, 0); (Protocol.PT_ACK, 0);
        (Protocol.PT_ACK, 1)].
Proof. vm_compute. split; reflexivity. Qed.

(** The receiver: packet 1 arrives before packet 0 and is dropped; the ACK
    carries 0, as it does after packet 0 itself. *)
Example out_of_order_dropped :
  let (st, out) :=
    Server.run Scenario.args (Server.initial 0)
      (Scenario.one_session
         ++ [Scenario.arrives Scenario.peer (Scenario.data 1 2 "yo");
             Scenario.arrives Scenario.peer (Scenario.data 0 2 "hi")]) in
  map (fun s => (Server.ofs s, Server.expected s)) (Server.sessions st)
  = [(Util.cstr "hi", 1)]
  /\ map (fun r => (Protocol.ptype (snd r), Protocol.seq (snd r))) out
     = [(Protocol.PT_HANDSHAKE_ACK, 0); (Protocol.PT_ACK, 0);
        (Protocol.PT_ACK, 0)].
Proof. vm_compute. split; reflexivity. Qed.

(** The sender: ten packets, a window of four, ACKs for 3, 7 and 9. *)
Example ten_packets_three_acks :
  let (r, out) :=
    Client.gbn_loop Scenario.sender 10
      [Scenario.ack_arrives 3; Scenario.ack_arrives 7; Scenario.ack_arrives 9]
      (Client.start (Client.prepare_chunks Scenario.ten_octets 1 10)) in
  (exists st, r = Client.Completed st /\ Client.base st = 10
              /\ Client.nextseq st = 10)
  /\ map Protocol.seq out = [0; 1; 2; 3; 4; 5; 6; 7; 8; 9]
  /\ List.concat (map Protocol.payload out) = Scenario.ten_octets.
Proof.
  vm_compute. split; [eexists; repeat split|]. split; reflexivity.
Qed.

(** The sender's handshake metadata for that file. *)
Example handshake_meta_ten :
  Client.handshake_meta Scenario.sender 10 10 = Util.cstr "ten.bin|10|10|1|4".
Proof. vm_compute. reflexivity. Qed.

(** * More of the code *)

(** ** Wire codec: decoding what was encoded *)

Module CodecFacts.
Import Protocol ProtocolFacts.

Lemma rd32_be32_mod (z : Z) :
  rd32 (z2b (z / 2 ^ 24)) (z2b (z / 2 ^ 16)) (z2b (z / 2 ^ 8)) (z2b z)
  = z mod 2 ^ 32.
Proof.
  unfold rd32. rewrite !b2z_z2b.
  change (2 ^ 24) with 16777216. change (2 ^ 16) with 65536.
  change (2 ^ 8) with 256. change (2 ^ 32) with 4294967296.
  Z.div_mod_to_equations. lia.
Qed.

Lemma rd16_be16_mod (z : Z) :
  rd16 (z2b (z / 2 ^ 8)) (z2b z) = z mod 2 ^ 16.
Proof.
  unfold rd16. rewrite !b2z_z2b.
  change (2 ^ 8) with 256. change (2 ^ 16) with 65536.
  Z.div_mod_to_equations. lia.
Qed.

Lemma unpack_pack_eq (p : Packet) :
  magic0 p = MAGIC0 -> magic1 p = MAGIC1 -> version p = VERSION ->
  unpack (pack p) = Unpacked (as_on_wire p).
Proof.
  intros M0 M1 V. unfold pack, be32, be16. cbn [app].
  rewrite unpack_header, M0, M1, V. cbn [Byte.eqb negb orb].
  change (Byte.eqb MAGIC0 MAGIC0) with true.
  change (Byte.eqb MAGIC1 MAGIC1) with true.
  change (Byte.eqb VERSION VERSION) with true. cbn [negb orb].
  rewrite !rd32_be32_mod, !rd16_be16_mod.
  assert (Hm : payload_size p mod 2 ^ 16 <= payload_size p).
  { apply Z.mod_le; unfold payload_size; lia. }
  rewrite Z.gtb_ltb.
  destruct (Z.ltb_spec (Z.of_nat (List.length (payload p)))
              (payload_size p mod 2 ^ 16)) as [Hlt|_];
    [unfold payload_size in *; lia|].
  unfold as_on_wire. rewrite M0, M1, V. reflexivity.
Qed.

Lemma length_pack (p : Packet) :
  Z.of_nat (List.length (pack p)) = HEADER_SIZE + payload_size p.
Proof.
  unfold pack, be32, be16, payload_size, HEADER_SIZE.
  cbn [app List.length]. lia.
Qed.

End CodecFacts.

Section CodecMore.
Import Protocol ProtocolFacts CodecFacts.

Lemma wire_checksum_u32 (p : Packet) :
  0 <= checksum p < 2 ^ 32 -> 0 <= wire_checksum p < 2 ^ 32.
Proof.
  intro H. unfold wire_checksum.
  destruct (_ && _); [apply ru_crc32_u32 | exact H].
Qed.

(** X1: [unpack] of what [pack] wrote, for a packet with the protocol's
    magic and version: it succeeds and returns the packet as it is on the
    wire, that is with [length] set to the payload size and the checksum
    [pack] wrote; when the fields are within their C types and the payload
    is shorter than 65536 octets nothing else differs, otherwise the
    fields are reduced to their width on the wire and the payload is cut
    to the size the 16-bit length field holds. *)
Theorem unpack_after_pack (p : Packet) :
  magic0 p = MAGIC0 -> magic1 p = MAGIC1 -> version p = VERSION ->
  unpack (pack p) = Unpacked (as_on_wire p)
  /\ Z.of_nat (List.length (pack p)) = HEADER_SIZE + payload_size p
  /\ (fits_wire p = true ->
      as_on_wire p
      = mkPacket MAGIC0 MAGIC1 VERSION (ptype p) (seq p) (total p)
          (payload_size p) (window p) (wire_checksum p) (payload p)).
Proof.
  intros M0 M1 V. split; [now apply unpack_pack_eq|].
  split; [apply length_pack|].
  unfold fits_wire. intro F.
  repeat (apply andb_prop in F as [F ?]).
  repeat match goal with
         | H : (_ <=? _) = true |- _ => apply Z.leb_le in H
         | H : (_ <? _) = true |- _ => apply Z.ltb_lt in H
         end.
  assert (Hs : 0 <= payload_size p) by (unfold payload_size; lia).
  pose proof (wire_checksum_u32 p ltac:(lia)) as Hw.
  unfold as_on_wire. rewrite M0, M1, V.
  rewrite !Z.mod_small by lia.
  unfold payload_size at 2. rewrite Nat2Z.id, firstn_all. reflexivity.
Qed.

(** X2: a DATA packet built with a zero checksum field, as the sender
    builds it, and a payload shorter than 65536 octets (the empty payload
    included) is decoded with its payload intact and passes the receiver's
    test [ru_crc32(payload) == checksum]. *)
Theorem packed_data_verifies (p : Packet) :
  magic0 p = MAGIC0 -> magic1 p = MAGIC1 -> version p = VERSION ->
  ptype p = PT_DATA -> checksum p = 0 -> payload_size p < 2 ^ 16 ->
  exists q,
    unpack (pack p) = Unpacked q
    /\ ptype q = PT_DATA
    /\ seq q = seq p mod 2 ^ 32
    /\ payload q = payload p
    /\ Crc32.ru_crc32 (payload q) = checksum q.
Proof.
  intros M0 M1 V T C L.
  exists (as_on_wire p). split; [now apply unpack_pack_eq|].
  assert (Hs : 0 <= payload_size p) by (unfold payload_size; lia).
  unfold as_on_wire. cbn [ptype seq payload checksum].
  rewrite (Z.mod_small (payload_size p)) by lia.
  assert (F : firstn (Z.to_nat (payload_size p)) (payload p) = payload p)
    by (unfold payload_size; rewrite Nat2Z.id; apply firstn_all).
  rewrite !F.
  repeat split; try assumption.
  unfold wire_checksum. rewrite T, C.
  change (Byte.eqb PT_DATA PT_DATA) with true. cbn [andb Z.eqb].
  pose proof (ru_crc32_u32 (payload p)) as Hr.
  destruct (Z.ltb_spec 0 (payload_size p)) as [Hp|Hz].
  - rewrite Z.mod_small by lia. reflexivity.
  - assert (E : payload p = []).
    { unfold payload_size in Hz. destruct (payload p); [reflexivity|].
      cbn [List.length] in Hz. lia. }
    rewrite E. reflexivity.
Qed.

End CodecMore.

(** A DATA packet with two payload octets. *)
Lemma unpack_after_pack_witness :
  Protocol.unpack (Protocol.pack (Scenario.data_packet 0 2 "hi"))
  = Protocol.Unpacked (Protocol.as_on_wire (Scenario.data_packet 0 2 "hi")).
Proof.
  apply (unpack_after_pack (Scenario.data_packet 0 2 "hi")); reflexivity.
Defined.

Lemma packed_data_verifies_witness :
  exists q,
    Protocol.unpack (Protocol.pack (Scenario.data_packet 0 2 "hi"))
    = Protocol.Unpacked q
    /\ Protocol.ptype q = Protocol.PT_DATA
    /\ Protocol.seq q = 0 mod 2 ^ 32
    /\ Protocol.payload q = Util.cstr "hi"
    /\ Crc32.ru_crc32 (Protocol.payload q) = Protocol.checksum q.
Proof.
  apply (packed_data_verifies (Scenario.data_packet 0 2 "hi"));
    try reflexivity.
Defined.

(** ** CRC-32: what it detects *)

Module Crc32Detects.
Import Crc32 Crc32Facts Crc32Range.

Lemma b2z_eq (a b : byte) : b2z a = b2z b -> a = b.
Proof.
  intro H. rewrite <- (z2b_b2z a), <- (z2b_b2z b), H. reflexivity.
Qed.

Lemma lxor_cancel_r (a b c : Z) : Z.lxor a c = Z.lxor b c -> a = b.
Proof.
  intro H. apply (f_equal (fun t => Z.lxor t c)) in H.
  rewrite !Z.lxor_assoc, Z.lxor_nilpotent, !Z.lxor_0_r in H. exact H.
Qed.

Lemma lxor_cancel_l (a b c : Z) : Z.lxor c a = Z.lxor c b -> a = b.
Proof.
  rewrite (Z.lxor_comm c a), (Z.lxor_comm c b). apply lxor_cancel_r.
Qed.

Lemma testbit_above (a n : Z) : 0 <= a < 2 ^ n -> 0 <= n -> Z.testbit a n = false.
Proof.
  intros Ha Hn. destruct (Z.eq_dec a 0) as [->|Hz]; [apply Z.testbit_0_l|].
  apply Z.bits_above_log2; [lia|]. apply Z.log2_lt_pow2; lia.
Qed.

(** Bit 31 of the register after one turn tells whether the polynomial
    was xor-ed in, that is whether the register was odd. *)
Lemma crc32_bit_top (r : Z) :
  0 <= r < 2 ^ 32 -> Z.testbit (crc32_bit r) 31 = Z.odd r.
Proof.
  intro Hr. unfold crc32_bit.
  assert (Hs : Z.testbit (Z.shiftr r 1) 31 = false).
  { rewrite Z.shiftr_spec by lia. apply testbit_above; lia. }
  destruct (Z.odd r).
  - rewrite Z.lxor_spec, Hs. reflexivity.
  - exact Hs.
Qed.

Lemma crc32_bit_inj (a b : Z) :
  0 <= a < 2 ^ 32 -> 0 <= b < 2 ^ 32 -> crc32_bit a = crc32_bit b -> a = b.
Proof.
  intros Ha Hb E.
  assert (Ho : Z.odd a = Z.odd b).
  { rewrite <- (crc32_bit_top a Ha), <- (crc32_bit_top b Hb), E.
    reflexivity. }
  unfold crc32_bit in E. rewrite Ho in E.
  assert (Es : Z.shiftr a 1 = Z.shiftr b 1).
  { destruct (Z.odd b); [now apply lxor_cancel_r in E | exact E]. }
  rewrite !Z.shiftr_div_pow2 in Es by lia. change (2 ^ 1) with 2 in Es.
  rewrite (Z.div_mod a 2), (Z.div_mod b 2) by lia.
  rewrite !Zmod_odd, Ho, Es. reflexivity.
Qed.

Lemma crc32_bits_inj (k : nat) (a b : Z) :
  0 <= a < 2 ^ 32 -> 0 <= b < 2 ^ 32 ->
  Nat.iter k crc32_bit a = Nat.iter k crc32_bit b -> a = b.
Proof.
  intros Ha Hb. induction k as [|k IH]; [trivial|].
  rewrite !Nat.iter_succ. intro E. apply IH.
  apply crc32_bit_inj in E; [exact E | |]; now apply crc32_bits_u32.
Qed.

Lemma octet_u32 (d : byte) : 0 <= b2z d < 2 ^ 32.
Proof. pose proof (b2z_range d). lia. Qed.

(** For a given octet the update of the register is one-to-one. *)
Lemma crc32_octet_inj_register (d : byte) (r1 r2 : Z) :
  0 <= r1 < 2 ^ 32 -> 0 <= r2 < 2 ^ 32 ->
  crc32_octet r1 d = crc32_octet r2 d -> r1 = r2.
Proof.
  intros H1 H2 E. unfold crc32_octet in E.
  apply crc32_bits_inj in E;
    [now apply lxor_cancel_r in E | |]; apply lxor_u32;
    (assumption || apply octet_u32).
Qed.

(** For a given register two different octets give different registers. *)
Lemma crc32_octet_inj_octet (r : Z) (d1 d2 : byte) :
  0 <= r < 2 ^ 32 -> crc32_octet r d1 = crc32_octet r d2 -> d1 = d2.
Proof.
  intros Hr E. unfold crc32_octet in E.
  apply crc32_bits_inj in E;
    [apply lxor_cancel_l in E; now apply b2z_eq | |]; apply lxor_u32;
    (assumption || apply octet_u32).
Qed.

Lemma fold_crc32_octet_inj (data : list byte) (r1 r2 : Z) :
  0 <= r1 < 2 ^ 32 -> 0 <= r2 < 2 ^ 32 ->
  fold_left crc32_octet data r1 = fold_left crc32_octet data r2 -> r1 = r2.
Proof.
  revert r1 r2. induction data as [|d data IH]; intros r1 r2 H1 H2 E;
    [exact E|].
  cbn [fold_left] in E. apply IH in E; try now apply crc32_octet_u32.
  now apply crc32_octet_inj_register in E.
Qed.

Lemma ru_crc32_fold (data : list byte) :
  ru_crc32 data = Z.lxor (fold_left crc32_octet data 0xFFFFFFFF) 0xFFFFFFFF.
Proof. unfold ru_crc32. now rewrite fold_crc_update. Qed.

End Crc32Detects.

(** X3: [ru_crc32] tells apart any two octet sequences that differ in
    exactly one octet, wherever it is: damage confined to one octet of a
    payload never passes the checksum test. *)
Theorem ru_crc32_detects_one_octet (before after : list byte) (d1 d2 : byte) :
  d1 <> d2 ->
  Crc32.ru_crc32 (before ++ d1 :: after)
  <> Crc32.ru_crc32 (before ++ d2 :: after).
Proof.
  intros N E. rewrite !Crc32Detects.ru_crc32_fold in E.
  apply Crc32Detects.lxor_cancel_r in E.
  rewrite !fold_left_app in E. cbn [fold_left] in E.
  assert (Hr : 0 <= fold_left Crc32.crc32_octet before 0xFFFFFFFF < 2 ^ 32)
    by (apply Crc32Range.fold_crc32_octet_u32; lia).
  apply Crc32Detects.fold_crc32_octet_inj in E;
    try now apply Crc32Range.crc32_octet_u32.
  now apply Crc32Detects.crc32_octet_inj_octet in E.
Qed.

Lemma ru_crc32_detects_one_octet_witness :
  Crc32.ru_crc32 ([x68] ++ x69 :: []) <> Crc32.ru_crc32 ([x68] ++ xff :: []).
Proof.
  apply (ru_crc32_detects_one_octet [x68] [] x69 xff). discriminate.
Defined.

(** ** [split] *)


(** X4: [split] cuts a string at every occurrence of the delimiter: the
    number of parts is the number of delimiters plus one (at least one
    part, also for the empty string), no part contains the delimiter, and
    the parts joined with the delimiter give the string back. *)
Theorem split_cuts_at_delimiters (s : list byte) (delim : byte) :
  List.length (Util.split s delim) = S (Util.occurrences delim s)
  /\ Forall (fun part => ~ In delim part) (Util.split s delim)
  /\ Util.join delim (Util.split s delim) = s.
Proof.
  apply (SplitFacts.split_from_spec delim s []). intros [].
Qed.



(** ** The sender's handshake, as the receiver reads it *)

Module HandshakeFacts.
Import Util.

Lemma strrchr_some (c : byte) (s t : list byte) :
  Client.strrchr s c = Some t ->
  exists pre, s = pre ++ c :: t /\ ~ In c t.
Proof.
  revert t. induction s as [|x s IH]; intro t; cbn [Client.strrchr];
    [discriminate|].
  destruct (Client.strrchr s c) as [t'|] eqn:E.
  - intro H. injection H as <-. destruct (IH t' eq_refl) as (pre & -> & Hn).
    exists (x :: pre). split; [reflexivity | exact Hn].
  - destruct (Byte.eqb x c) eqn:Ex; [|discriminate].
    intro H. injection H as <-. apply Byte.byte_dec_bl in Ex. subst x.
    exists []. split; [reflexivity|].
    clear IH. induction s as [|y s IHs]; [intros []|].
    cbn [Client.strrchr] in E.
    destruct (Client.strrchr s c); [discriminate|].
    destruct (Byte.eqb y c) eqn:Ey; [discriminate|].
    intros [H|H]; [apply SplitFacts.eqb_neq in Ey; congruence|].
    now apply IHs.
Qed.

Lemma strrchr_none (c : byte) (s : list byte) :
  Client.strrchr s c = None -> ~ In c s.
Proof.
  induction s as [|x s IH]; cbn [Client.strrchr]; [intros _ []|].
  destruct (Client.strrchr s c); [discriminate|].
  destruct (Byte.eqb x c) eqn:Ex; [discriminate|].
  intros _ [H|H]; [apply SplitFacts.eqb_neq in Ex; congruence|].
  now apply IH.
Qed.

Lemma split_from_last (d : byte) (a part : list byte) :
  ~ In d a -> split_from part a d = [part ++ a].
Proof.
  revert part. induction a as [|c a IH]; intros part Hn; cbn [split_from].
  - now rewrite app_nil_r.
  - assert (E : Byte.eqb c d = false).
    { apply SplitFacts.eqb_neq. intro H. apply Hn. now left. }
    rewrite E, IH, <- app_assoc; [reflexivity|].
    intro H. apply Hn. now right.
Qed.

Lemma split_from_app (d : byte) (a rest part : list byte) :
  ~ In d a ->
  split_from part (a ++ d :: rest) d = (part ++ a) :: split_from [] rest d.
Proof.
  revert part. induction a as [|c a IH]; intros part Hn; cbn [split_from app].
  - rewrite SplitFacts.eqb_refl, app_nil_r. reflexivity.
  - assert (E : Byte.eqb c d = false).
    { apply SplitFacts.eqb_neq. intro H. apply Hn. now left. }
    rewrite E, IH, <- app_assoc; [reflexivity|].
    intro H. apply Hn. now right.
Qed.

Lemma c_string_id (s : list byte) : ~ In x00 s -> c_string s = s.
Proof.
  induction s as [|c s IH]; intro Hn; cbn [c_string]; [reflexivity|].
  assert (E : Byte.eqb c x00 = false).
  { apply SplitFacts.eqb_neq. intro H. apply Hn. now left. }
  rewrite E, IH; [reflexivity|]. intro H. apply Hn. now right.
Qed.

Lemma bounded_id (size : nat) (s : list byte) :
  (List.length s <= size - 1)%nat -> bounded size s = s.
Proof. intro H. unfold bounded. now apply firstn_all2. Qed.

Lemma not_digit_7c : b2z x7c < 48 \/ 57 < b2z x7c.
Proof. right. cbn. lia. Qed.

Lemma not_digit_00 : b2z x00 < 48 \/ 57 < b2z x00.
Proof. left. cbn. lia. Qed.

Lemma not_in_field (x d : byte) (field rest : list byte) :
  ~ In x field -> d <> x -> ~ In x rest -> ~ In x (field ++ d :: rest).
Proof.
  intros Hf Hd Hr H. apply in_app_iff in H as [H|[H|H]]; auto.
Qed.

(** The metadata string the sender writes, when it fits [meta[1024]]. *)
Lemma handshake_meta_eq (ca : Client.Args) (filesize total : Z) :
  (List.length (Client.basename (Client.file ca)) <= 255)%nat ->
  Client.handshake_meta ca filesize total
  = Client.basename (Client.file ca) ++ x7c :: utoa filesize ++ x7c
      :: utoa total ++ x7c :: utoa (Client.chunk ca) ++ x7c
      :: utoa (Client.window ca).
Proof.
  intro Hl. unfold Client.handshake_meta.
  change (cstr "|") with [x7c]. cbn [app].
  apply bounded_id. rewrite !length_app. cbn [List.length].
  rewrite !length_app. cbn [List.length]. rewrite !length_app.
  cbn [List.length]. rewrite !length_app. cbn [List.length].
  pose proof (DecimalFacts.length_utoa filesize).
  pose proof (DecimalFacts.length_utoa total).
  pose proof (DecimalFacts.length_utoa (Client.chunk ca)).
  pose proof (DecimalFacts.length_utoa (Client.window ca)).
  lia.
Qed.

Lemma metadata_of_handshake (ca : Client.Args) (filesize total : Z)
  (p : Protocol.Packet) :
  let name := Client.basename (Client.file ca) in
  ~ In x7c name -> ~ In x00 name -> (List.length name <= 255)%nat ->
  Protocol.payload p = Client.handshake_meta ca filesize total ->
  Server.metadata p
  = [name; utoa filesize; utoa total; utoa (Client.chunk ca);
     utoa (Client.window ca)].
Proof.
  intros name H7 H0 Hl Hp. unfold Server.metadata.
  rewrite Hp, (handshake_meta_eq ca filesize total Hl). fold name.
  rewrite c_string_id.
  - unfold split.
    rewrite split_from_app by exact H7.
    rewrite split_from_app by apply DecimalFacts.utoa_without, not_digit_7c.
    rewrite split_from_app by apply DecimalFacts.utoa_without, not_digit_7c.
    rewrite split_from_app by apply DecimalFacts.utoa_without, not_digit_7c.
    rewrite split_from_last by apply DecimalFacts.utoa_without, not_digit_7c.
    reflexivity.
  - repeat (apply not_in_field;
            [assumption || apply DecimalFacts.utoa_without, not_digit_00
            | discriminate |]).
    apply DecimalFacts.utoa_without, not_digit_00.
Qed.

Lemma length_handshake_meta (ca : Client.Args) (filesize total : Z) :
  (List.length (Client.handshake_meta ca filesize total) <= 1023)%nat.
Proof.
  unfold Client.handshake_meta, bounded. rewrite length_firstn. lia.
Qed.

End HandshakeFacts.

Lemma strrchr_absent (c : byte) (s : list byte) :
  ~ In c s -> Client.strrchr s c = None.
Proof.
  induction s as [|x s IH]; intro H; cbn [Client.strrchr]; [reflexivity|].
  rewrite IH by (intro Hin; apply H; now right).
  assert (E : Byte.eqb x c = false).
  { apply SplitFacts.eqb_neq. intro E. apply H. now left. }
  now rewrite E.
Qed.

Lemma strrchr_last (c : byte) (dir name : list byte) :
  ~ In c name -> Client.strrchr (dir ++ c :: name) c = Some name.
Proof.
  intro H. induction dir as [|x dir IH]; cbn [app Client.strrchr].
  - now rewrite (strrchr_absent c name H), SplitFacts.eqb_refl.
  - now rewrite IH.
Qed.

(** X5: the file name the sender puts into the handshake is the part of
    the path after its last ['/'], or, if the path has no ['/'], after
    its last ['\']: for a path [dir/name] in which [name] holds no ['/']
    it is [name], whatever [dir] holds; for a path [dir\name] without any
    ['/'] in which [name] holds no ['\'] it is [name]; and a path with
    neither separator is sent as it is.  So it is a suffix of the path and
    never contains ['/']; without any ['/'] it contains no ['\']
    either. *)
Theorem basename_is_last_component (path : list byte) :
  (forall dir name,
      path = dir ++ x2f :: name -> ~ In x2f name ->
      Client.basename path = name)
  /\ (forall dir name,
        ~ In x2f path -> path = dir ++ x5c :: name -> ~ In x5c name ->
        Client.basename path = name)
  /\ (~ In x2f path -> ~ In x5c path -> Client.basename path = path)
  /\ (exists dir, path = dir ++ Client.basename path)
  /\ ~ In x2f (Client.basename path)
  /\ (~ In x2f path -> ~ In x5c (Client.basename path)).
Proof.
  split; [|split].
  - intros dir name -> Hn. unfold Client.basename.
    now rewrite (strrchr_last x2f dir name Hn).
  - intros dir name Hs -> Hn. unfold Client.basename.
    rewrite (strrchr_absent x2f _ Hs).
    now rewrite (strrchr_last x5c dir name Hn).
  - unfold Client.basename.
    destruct (Client.strrchr path x2f) as [t|] eqn:E1.
    + destruct (HandshakeFacts.strrchr_some _ _ _ E1) as (pre & Hp & Hn).
      split.
      { intros H. exfalso. apply H. rewrite Hp, in_app_iff. right.
        now left. }
      split; [exists (pre ++ [x2f]); now rewrite <- app_assoc|].
      split; [exact Hn|].
      intro H; exfalso; apply H; rewrite Hp, in_app_iff; right; now left.
    + pose proof (HandshakeFacts.strrchr_none _ _ E1) as Hs.
      destruct (Client.strrchr path x5c) as [t|] eqn:E2.
      * destruct (HandshakeFacts.strrchr_some _ _ _ E2) as (pre & Hp & Hn).
        split.
        { intros _ H. exfalso. apply H. rewrite Hp, in_app_iff. right.
          now left. }
        split; [exists (pre ++ [x5c]); now rewrite <- app_assoc|].
        split; [|intros _; exact Hn].
        intro H. apply Hs. rewrite Hp, in_app_iff. right. now right.
      * split; [reflexivity|]. split; [now exists []|].
        split; [exact Hs|].
        intros _. now apply HandshakeFacts.strrchr_none.
Qed.

Section HandshakeEndToEnd.
Import Util Server.

(** X6: the handshake the sender builds, packed and handed to the
    receiver: when the file name holds no ['|'] and no NUL and has at most
    255 octets, the total fits a [long long], the table has room after the
    peer's old session is discarded, and the file opens, the receiver
    creates a session with exactly that file name and that total, an
    empty sink and [expected = 0], and acknowledges the handshake with a
    HANDSHAKE_ACK that carries the total in 32 bits and the receiver's
    window. *)
Theorem handshake_carries_name_and_total (sa : Args) (ca : Client.Args)
  (st : State) (k : list byte) (filesize total clock clock' : Z) :
  let name := Client.basename (Client.file ca) in
  ~ In x7c name -> ~ In x00 name -> (List.length name <= 255)%nat ->
  0 <= total <= LLONG_MAX ->
  Z.of_nat (List.length (cleanup_old_session (sessions st) k)) < MAX_SESSIONS ->
  exists s,
    server_step sa st
      (Datagram k (Protocol.pack (Client.handshake_packet ca filesize total))
         clock clock' true)
    = (mkState (cleanup_old_session (sessions st) k ++ [s]) (last_cleanup st),
       [(k, Protocol.mkPacket Protocol.MAGIC0 Protocol.MAGIC1 Protocol.VERSION
              Protocol.PT_HANDSHAKE_ACK 0 (total mod 2 ^ 32) 0 (window sa) 0
              [])])
    /\ filename s = name
    /\ Server.total s = total
    /\ expected s = 0 /\ received s = 0 /\ ofs s = [].
Proof.
  intros name H7 H0 Hl Ht Hroom.
  set (hp := Client.handshake_packet ca filesize total).
  assert (U : Protocol.unpack (Protocol.pack hp)
              = Protocol.Unpacked (Protocol.as_on_wire hp))
    by (apply CodecFacts.unpack_pack_eq; reflexivity).
  assert (Hpay : Protocol.payload (Protocol.as_on_wire hp)
                 = Client.handshake_meta ca filesize total).
  { unfold Protocol.as_on_wire, hp, Client.handshake_packet.
    cbn [Protocol.payload]. unfold Protocol.payload_size.
    cbn [Protocol.payload].
    pose proof (HandshakeFacts.length_handshake_meta ca filesize total).
    rewrite Z.mod_small by lia. rewrite Nat2Z.id. apply firstn_all. }
  pose proof (HandshakeFacts.metadata_of_handshake ca filesize total
                (Protocol.as_on_wire hp) H7 H0 Hl Hpay) as Hm.
  fold name in Hm.
  cbn [server_step]. rewrite U.
  change (Byte.eqb (Protocol.ptype (Protocol.as_on_wire hp))
            Protocol.PT_HANDSHAKE) with true.
  cbv iota. unfold on_handshake. rewrite Hm.
  change (Z.of_nat (List.length
            [name; utoa filesize; utoa total; utoa (Client.chunk ca);
             utoa (Client.window ca)]) <? 5) with false.
  cbv iota zeta.
  destruct (Z.leb_spec MAX_SESSIONS
              (Z.of_nat (List.length (cleanup_old_session (sessions st) k))));
    [lia|].
  assert (Et : u64 (atoll (utoa total)) = total).
  { rewrite DecimalFacts.atoll_utoa by exact Ht.
    unfold u64, LLONG_MAX in *. apply Z.mod_small. lia. }
  exists (new_session sa k
            [name; utoa filesize; utoa total; utoa (Client.chunk ca);
             utoa (Client.window ca)] clock clock').
  unfold handshake_ack, new_session.
  cbn [filename Server.total expected received ofs nth].
  rewrite (HandshakeFacts.bounded_id 256 name) by (cbn; lia).
  rewrite !Et. repeat split.
Qed.

End HandshakeEndToEnd.

(** The handshake of the sender of ["data/ten.bin"]. *)
Lemma handshake_carries_name_and_total_witness :
  exists s,
    Server.server_step Scenario.args (Server.initial 0)
      (Server.Datagram Scenario.peer
         (Protocol.pack (Client.handshake_packet Scenario.sender 10 10))
         1000 1000 true)
    = (Server.mkState ([] ++ [s]) 0,
       [(Scenario.peer,
         Protocol.mkPacket Protocol.MAGIC0 Protocol.MAGIC1 Protocol.VERSION
           Protocol.PT_HANDSHAKE_ACK 0 (10 mod 2 ^ 32) 0
           (Server.window Scenario.args) 0 [])])
    /\ Server.filename s = Util.cstr "ten.bin"
    /\ Server.total s = 10
    /\ Server.expected s = 0 /\ Server.received s = 0 /\ Server.ofs s = [].
Proof.
  apply (handshake_carries_name_and_total Scenario.args Scenario.sender
           (Server.initial 0) Scenario.peer 10 10 1000 1000).
  - vm_compute. intuition discriminate.
  - vm_compute. intuition discriminate.
  - vm_compute. lia.
  - vm_compute. split; discriminate.
  - vm_compute. reflexivity.
Defined.

(** ** The receiver: the session table *)

Module TableFacts.
Import Util Server ServerFacts.

Lemma find_session_none (ss : list Session) (k : list byte) :
  find_session ss k = None <-> ~ In k (map key ss).
Proof.
  induction ss as [|x ss IH]; cbn [find_session map In]; [tauto|].
  destruct (streq (key x) k) eqn:E.
  - apply streq_eq in E. split; [discriminate | intro H; exfalso; auto].
  - rewrite IH. split; [|tauto].
    intros H [Hx|Hin]; [|tauto].
    apply streq_eq in Hx. congruence.
Qed.

Lemma keys_update_session (f : Session -> Session) (ss : list Session)
  (k : list byte) (s : Session) :
  find_session ss k = Some s -> key (f s) = key s ->
  map key (update_session f ss k) = map key ss.
Proof.
  induction ss as [|x ss IH]; cbn [find_session update_session map];
    [discriminate|].
  destruct (streq (key x) k); cbn [map].
  - intros H Hk. injection H as <-. now rewrite Hk.
  - intros H Hk. now rewrite IH.
Qed.

Lemma keys_cleanup_old (ss : list Session) (k : list byte) :
  NoDup (map key ss) ->
  NoDup (map key (cleanup_old_session ss k))
  /\ ~ In k (map key (cleanup_old_session ss k)).
Proof.
  induction ss as [|x ss IH]; cbn [cleanup_old_session map];
    [intros _; split; [constructor | intros []]|].
  intro H. inversion H as [|? ? Hx Hss]; subst.
  destruct (streq (key x) k) eqn:E.
  - apply streq_eq in E. subst k. split; assumption.
  - destruct (IH Hss) as [Hn Hk]. cbn [map]. split.
    + constructor; [|exact Hn].
      intro Hin. apply Hx. clear -Hin.
      induction ss as [|y ss IHs]; [destruct Hin|].
      cbn [cleanup_old_session map] in *.
      destruct (streq (key y) k); [now right|].
      destruct Hin as [Hin|Hin]; [now left | right; now apply IHs].
    + intros [Hin|Hin]; [|contradiction].
      apply streq_eq in Hin. congruence.
Qed.

Lemma keys_filter (q : Session -> bool) (ss : list Session) :
  NoDup (map key ss) -> NoDup (map key (filter q ss)).
Proof.
  induction ss as [|x ss IH]; cbn [filter map]; [trivial|].
  intro H. inversion H as [|? ? Hx Hss]; subst.
  destruct (q x); [|now apply IH].
  cbn [map]. constructor; [|now apply IH].
  intro Hin. apply Hx. apply in_map_iff in Hin as (y & Hy & Hin).
  apply filter_In in Hin as [Hin _]. apply in_map_iff. now exists y.
Qed.

Lemma find_cleanup_other (ss : list Session) (k k' : list byte) :
  k' <> k ->
  find_session (cleanup_old_session ss k) k' = find_session ss k'.
Proof.
  intro N. induction ss as [|x ss IH];
    cbn [cleanup_old_session find_session]; [reflexivity|].
  destruct (streq (key x) k) eqn:E.
  - apply streq_eq in E.
    destruct (streq (key x) k') eqn:E'; [|reflexivity].
    apply streq_eq in E'. congruence.
  - cbn [find_session]. destruct (streq (key x) k'); [reflexivity | exact IH].
Qed.

Lemma find_update_other (f : Session -> Session) (ss : list Session)
  (k k' : list byte) (s : Session) :
  k' <> k -> find_session ss k = Some s -> key (f s) = key s ->
  find_session (update_session f ss k) k' = find_session ss k'.
Proof.
  intro N. induction ss as [|x ss IH];
    cbn [update_session find_session]; [reflexivity|].
  destruct (streq (key x) k) eqn:E.
  - intros H Hk. injection H as <-. cbn [find_session]. rewrite Hk.
    apply streq_eq in E.
    destruct (streq (key x) k') eqn:E'; [|reflexivity].
    apply streq_eq in E'. congruence.
  - intros H Hk. cbn [find_session].
    destruct (streq (key x) k'); [reflexivity | now apply IH].
Qed.

Lemma find_app_one (ss : list Session) (s : Session) (k : list byte) :
  find_session (ss ++ [s]) k
  = match find_session ss k with
    | Some x => Some x
    | None => if streq (key s) k then Some s else None
    end.
Proof.
  induction ss as [|x ss IH]; cbn [app find_session]; [reflexivity|].
  destruct (streq (key x) k); [reflexivity | exact IH].
Qed.

Lemma streq_refl (k : list byte) : streq k k = true.
Proof. now apply streq_eq. Qed.

Lemma streq_neq (a b : list byte) : a <> b -> streq a b = false.
Proof.
  intro N. destruct (streq a b) eqn:E; [|reflexivity].
  apply streq_eq in E. contradiction.
Qed.

Lemma key_new_session (a : Args) (k : list byte) (parts : list (list byte))
  (clock clock' : Z) :
  (List.length k <= 255)%nat ->
  key (new_session a k parts clock clock') = k.
Proof.
  intro H. unfold new_session. cbn [key].
  now apply HandshakeFacts.bounded_id.
Qed.

Lemma key_after_data (p : Protocol.Packet) (clock : Z) (s : Session) :
  key (after_data p clock s) = key s.
Proof. unfold after_data. destruct (_ =? _); reflexivity. Qed.

(** The DATA branch, once the session is found. *)
Lemma on_data_found (st : State) (k : list byte) (p : Protocol.Packet)
  (clock : Z) (s : Session) :
  find_session (sessions st) k = Some s ->
  on_data st k p clock
  = if negb (Crc32.ru_crc32 (Protocol.payload p) =? Protocol.checksum p)
    then (mkState (update_session (touch clock) (sessions st) k)
            (last_cleanup st),
          [(k, ack_packet (expected s))])
    else (mkState
            (update_session (fun _ => after_data p clock s) (sessions st) k)
            (last_cleanup st),
          [(k, ack_packet (expected (after_data p clock s)))]).
Proof.
  intro F. unfold on_data. rewrite F. reflexivity.
Qed.

(** One turn of the loop keeps the keys of the table distinct. *)
Lemma server_step_keys (a : Args) (st : State) (e : event) :
  key_fits e = true ->
  NoDup (map key (sessions st)) ->
  NoDup (map key (sessions (fst (server_step a st e)))).
Proof.
  intros Hk H. destruct e as [now sweep| |k buf clock clock' fo];
    cbn [server_step]; try exact H.
  - destruct (10000 <? u64 (now - last_cleanup st)); [|exact H].
    cbn [fst sessions]. now apply keys_filter.
  - cbn [key_fits] in Hk. apply Nat.leb_le in Hk.
    destruct (Protocol.unpack buf) as [p|]; [|exact H].
    destruct (Byte.eqb (Protocol.ptype p) Protocol.PT_HANDSHAKE).
    { unfold on_handshake.
      destruct (_ <? 5); [exact H|].
      destruct (keys_cleanup_old (sessions st) k H) as [Hn Hnot].
      destruct (MAX_SESSIONS <=? _); [exact Hn|].
      destruct fo; [|exact Hn].
      cbn [fst sessions]. rewrite map_app. cbn [map].
      rewrite key_new_session by exact Hk.
      apply NoDup_app; [exact Hn | constructor; [intros []|constructor] |].
      intros x Hx [<-|[]]. contradiction. }
    destruct (Byte.eqb (Protocol.ptype p) Protocol.PT_DATA).
    { destruct (find_session (sessions st) k) as [s|] eqn:F.
      - rewrite (on_data_found st k p clock s F).
        destruct (negb _); cbn [fst sessions].
        + now rewrite (keys_update_session (touch clock) _ _ s F).
        + rewrite (keys_update_session (fun _ => _) _ _ s F);
            [exact H | apply key_after_data].
      - unfold on_data. rewrite F. exact H. }
    destruct (Byte.eqb (Protocol.ptype p) Protocol.PT_FIN); [|exact H].
    cbn [on_fin fst sessions]. now apply keys_cleanup_old.
Qed.

Lemma run_keys (a : Args) (evs : list event) (st : State) :
  forallb key_fits evs = true ->
  NoDup (map key (sessions st)) ->
  NoDup (map key (sessions (fst (run a st evs)))).
Proof.
  revert st. induction evs as [|e evs IH]; intros st Hk H; [exact H|].
  cbn [forallb] in Hk. apply andb_prop in Hk as [He Hk].
  rewrite run_cons. apply IH; [exact Hk|]. now apply server_step_keys.
Qed.

Lemma state_after_keys (a : Args) (clock : Z) (evs : list event) :
  forallb key_fits evs = true ->
  NoDup (map key (sessions (state_after a clock evs))).
Proof.
  intro Hk. apply run_keys; [exact Hk | constructor].
Qed.

End TableFacts.

Section ReceiverTable.
Import Util Server ServerFacts TableFacts.

Variable a : Args.

(** X7: whatever arrives, in every state the receiver reaches every
    session has [received = expected], at most [2^32], and the table holds
    at most 100 sessions. *)
Theorem receiver_counters_agree (clock0 : Z) (evs : list event) :
  let st := state_after a clock0 evs in
  Forall (fun s => received s = expected s /\ 0 <= expected s <= 2 ^ 32)
    (sessions st)
  /\ Z.of_nat (List.length (sessions st)) <= 100.
Proof.
  cbv zeta. destruct (state_after_ok a clock0 evs) as [Hs Hl].
  split; [|exact Hl].
  eapply Forall_impl; [|exact Hs]. intros s [Hr He]. split; assumption.
Qed.

(** X8: as long as every source key fits the session's key buffer (at most
    255 octets, as the keys [addr_key] writes do), no two sessions of the
    table have the same key: a peer has at most one session, and the one
    [find_session] returns is the only one. *)
Theorem one_session_per_peer (clock0 : Z) (evs : list event) :
  forallb key_fits evs = true ->
  let st := state_after a clock0 evs in
  NoDup (map key (sessions st))
  /\ forall k s, In s (sessions st) -> key s = k ->
       find_session (sessions st) k = Some s.
Proof.
  intros Hk st. pose proof (state_after_keys a clock0 evs Hk) as Hn.
  fold st in Hn. split; [exact Hn|].
  intros k s Hin <-. revert Hn Hin.
  induction (sessions st) as [|x ss IH]; [intros _ []|].
  cbn [map find_session]. intros Hn [->|Hin].
  - now rewrite streq_refl.
  - inversion Hn as [|? ? Hx Hss]; subst.
    rewrite streq_neq; [now apply IH|].
    intro E. apply Hx. rewrite E. now apply in_map.
Qed.

(** X9: a peer without a session.  Its DATA packet is answered with ERROR
    "no session" and its FIN with FIN_ACK; in both cases the table is left
    as it was. *)
Theorem unknown_peer_is_answered (st : State) (k buf : list byte)
  (p : Protocol.Packet) (clock clock' : Z) (fo : bool) :
  Protocol.unpack buf = Protocol.Unpacked p ->
  find_session (sessions st) k = None ->
  (Protocol.ptype p = Protocol.PT_DATA ->
   server_step a st (Datagram k buf clock clock' fo)
   = (st, [(k, Protocol.mkPacket Protocol.MAGIC0 Protocol.MAGIC1
                 Protocol.VERSION
                 Protocol.PT_ERROR 0 0 0 0 0 (cstr "no session"))]))
  /\ (Protocol.ptype p = Protocol.PT_FIN ->
      server_step a st (Datagram k buf clock clock' fo)
      = (st, [(k, Protocol.mkPacket Protocol.MAGIC0 Protocol.MAGIC1
                    Protocol.VERSION
                    Protocol.PT_FIN_ACK 0 0 0 0 0 [])])).
Proof.
  intros U F. split; intro T; cbn [server_step]; rewrite U, T; cbv iota.
  - change (Byte.eqb Protocol.PT_DATA Protocol.PT_HANDSHAKE) with false.
    change (Byte.eqb Protocol.PT_DATA Protocol.PT_DATA) with true.
    cbv iota. unfold on_data. rewrite F. reflexivity.
  - change (Byte.eqb Protocol.PT_FIN Protocol.PT_HANDSHAKE) with false.
    change (Byte.eqb Protocol.PT_FIN Protocol.PT_DATA) with false.
    change (Byte.eqb Protocol.PT_FIN Protocol.PT_FIN) with true.
    cbv iota. unfold on_fin. rewrite (cleanup_old_absent _ _ F).
    destruct st. reflexivity.
Qed.

(** X10: a FIN ends the peer's session.  In a state reached with keys that
    fit, after a FIN from [k] no session is found for [k], every other
    peer finds its session as before, and the reply is FIN_ACK. *)
Theorem fin_ends_session (clock0 : Z) (evs : list event)
  (k buf : list byte) (p : Protocol.Packet) (clock clock' : Z) (fo : bool) :
  forallb key_fits evs = true ->
  Protocol.unpack buf = Protocol.Unpacked p ->
  Protocol.ptype p = Protocol.PT_FIN ->
  let st := state_after a clock0 evs in
  let r := server_step a st (Datagram k buf clock clock' fo) in
  snd r = [(k, Protocol.mkPacket Protocol.MAGIC0 Protocol.MAGIC1
                 Protocol.VERSION
                 Protocol.PT_FIN_ACK 0 0 0 0 0 [])]
  /\ find_session (sessions (fst r)) k = None
  /\ (forall k', k' <> k ->
        find_session (sessions (fst r)) k' = find_session (sessions st) k')
  /\ last_cleanup (fst r) = last_cleanup st.
Proof.
  intros Hk U T st r. subst r. cbn [server_step]. rewrite U, T.
  change (Byte.eqb Protocol.PT_FIN Protocol.PT_HANDSHAKE) with false.
  change (Byte.eqb Protocol.PT_FIN Protocol.PT_DATA) with false.
  change (Byte.eqb Protocol.PT_FIN Protocol.PT_FIN) with true.
  cbv iota. unfold on_fin. cbn [fst snd sessions last_cleanup].
  split; [reflexivity|]. split; [|split; [|reflexivity]].
  - apply find_session_none.
    apply keys_cleanup_old. now apply state_after_keys.
  - intros k' N. now apply find_cleanup_other.
Qed.

(** X11: a HANDSHAKE from a peer that already has a session replaces that
    session.  In a state reached with keys that fit, for a handshake with
    at least five fields whose file opens: the old session is discarded
    and a new one with an empty sink and [expected = 0] is found for the
    peer; the table has as many sessions as before, so this succeeds even
    when the table is full; the reply is HANDSHAKE_ACK. *)
Theorem rehandshake_replaces_session (clock0 : Z) (evs : list event)
  (k buf : list byte) (p : Protocol.Packet) (old : Session)
  (clock clock' : Z) :
  forallb key_fits evs = true ->
  (List.length k <= 255)%nat ->
  Protocol.unpack buf = Protocol.Unpacked p ->
  Protocol.ptype p = Protocol.PT_HANDSHAKE ->
  5 <= Z.of_nat (List.length (metadata p)) ->
  let st := state_after a clock0 evs in
  find_session (sessions st) k = Some old ->
  let r := server_step a st (Datagram k buf clock clock' true) in
  let s := new_session a k (metadata p) clock clock' in
  snd r = [(k, Protocol.mkPacket Protocol.MAGIC0 Protocol.MAGIC1
                 Protocol.VERSION
                 Protocol.PT_HANDSHAKE_ACK 0 (total s mod 2 ^ 32) 0
                 (window a) 0 [])]
  /\ find_session (sessions (fst r)) k = Some s
  /\ ofs s = [] /\ expected s = 0 /\ received s = 0
  /\ List.length (sessions (fst r)) = List.length (sessions st).
Proof.
  intros Hk Hlen U T M st F r s. subst r.
  pose proof (state_after_keys a clock0 evs Hk) as Hn. fold st in Hn.
  destruct (state_after_ok a clock0 evs) as [_ Hcap]. fold st in Hcap.
  assert (Hrm : List.length (sessions st)
                = S (List.length (cleanup_old_session (sessions st) k))).
  { clear -F. induction (sessions st) as [|x ss IH];
      cbn [find_session cleanup_old_session] in *; [discriminate|].
    destruct (streq (key x) k); [reflexivity|].
    cbn [List.length]. now rewrite IH. }
  cbn [server_step]. rewrite U, T.
  change (Byte.eqb Protocol.PT_HANDSHAKE Protocol.PT_HANDSHAKE) with true.
  cbv iota. unfold on_handshake.
  destruct (Z.ltb_spec (Z.of_nat (List.length (metadata p))) 5); [lia|].
  cbv zeta.
  destruct (Z.leb_spec MAX_SESSIONS
              (Z.of_nat (List.length (cleanup_old_session (sessions st) k))));
    [unfold MAX_SESSIONS in *; lia|].
  cbn [fst snd sessions]. fold s.
  split; [reflexivity|]. split.
  { rewrite find_app_one.
    destruct (keys_cleanup_old (sessions st) k Hn) as [_ Hnot].
    apply find_session_none in Hnot. rewrite Hnot.
    unfold s. rewrite key_new_session by exact Hlen.
    now rewrite streq_refl. }
  repeat split. rewrite length_app. cbn [List.length]. lia.
Qed.


(** X13: delivering a DATA packet a second time changes nothing but the
    activity stamp.  For a packet with a valid checksum and an existing
    session, after the first delivery a second one (at any later clock)
    leaves the sink, [expected] and [received] as the first left them and
    is answered with the same ACK. *)
Theorem duplicate_data_changes_nothing (clock0 : Z) (evs : list event)
  (k buf : list byte) (p : Protocol.Packet) (s : Session)
  (c1 c1' c2 c2' : Z) (fo1 fo2 : bool) :
  let st := state_after a clock0 evs in
  find_session (sessions st) k = Some s ->
  Protocol.unpack buf = Protocol.Unpacked p ->
  Protocol.ptype p = Protocol.PT_DATA ->
  Crc32.ru_crc32 (Protocol.payload p) = Protocol.checksum p ->
  let r1 := server_step a st (Datagram k buf c1 c1' fo1) in
  let r2 := server_step a (fst r1) (Datagram k buf c2 c2' fo2) in
  exists s1,
    find_session (sessions (fst r1)) k = Some s1
    /\ find_session (sessions (fst r2)) k = Some (touch c2 s1)
    /\ snd r2 = snd r1.
Proof.
  intros st F U T C r1 r2. subst r1 r2.
  destruct (state_after_ok a clock0 evs) as [Hok _]. fold st in Hok.
  destruct (find_session_some _ _ _ F) as [Hin _].
  pose proof (proj1 (Forall_forall _ _) Hok s Hin) as [Hr _].
  assert (S1 : forall st0 c c' fo,
             server_step a st0 (Datagram k buf c c' fo) = on_data st0 k p c).
  { intros. cbn [server_step]. rewrite U, T. reflexivity. }
  rewrite !S1, (on_data_found st k p c1 s F), C, Z.eqb_refl.
  cbn [negb fst snd sessions].
  set (s1 := after_data p c1 s).
  assert (F1 : find_session
                 (update_session (fun _ => s1) (sessions st) k) k = Some s1).
  { apply (find_update_session (fun _ => s1) _ _ s F). apply key_after_data. }
  exists s1. split; [exact F1|].
  rewrite (on_data_found
             (mkState (update_session (fun _ => s1) (sessions st) k)
                (last_cleanup st)) k p c2 s1 F1), C, Z.eqb_refl.
  cbn [negb fst snd sessions].
  assert (N : (Protocol.seq p =? expected s1) = false).
  { unfold s1, after_data.
    destruct (Z.eqb_spec (Protocol.seq p) (expected s)) as [E|E].
    - cbn [commit touch expected]. unfold u64.
      rewrite Z.mod_small by lia. apply Z.eqb_neq. lia.
    - cbn [touch expected]. now apply Z.eqb_neq. }
  assert (E2 : after_data p c2 s1 = touch c2 s1)
    by (unfold after_data; now rewrite N).
  rewrite E2.
  split; [|reflexivity].
  apply (find_update_session (fun _ => touch c2 s1) _ _ s1 F1). reflexivity.
Qed.

End ReceiverTable.

(** ** The sender: cutting the file into chunks *)

Module ChunkFacts.
Import Client.

Lemma firstn_firstn_skipn {A : Type} (l : list A) (n m : nat) :
  firstn n l ++ firstn m (skipn n l) = firstn (n + m) l.
Proof.
  revert l. induction n as [|n IH]; intro l; [reflexivity|].
  destruct l as [|x l]; cbn [firstn skipn app Nat.add].
  - now rewrite firstn_nil.
  - now rewrite IH.
Qed.

(** A chunk that starts inside the file or at its end: [chunk] octets
    from its offset, or the rest of the file if that is shorter. *)
Lemma chunk_at_firstn (data : list byte) (chunk : Z) (i : nat) :
  1 <= chunk ->
  (i * Z.to_nat chunk <= List.length data)%nat ->
  chunk_at data chunk i
  = firstn (Z.to_nat chunk) (skipn (i * Z.to_nat chunk) data).
Proof.
  intros Hc Hi. unfold chunk_at.
  assert (Eo : Z.to_nat (Z.of_nat i * chunk) = (i * Z.to_nat chunk)%nat)
    by (rewrite Z2Nat.inj_mul, Nat2Z.id by lia; reflexivity).
  rewrite Eo.
  assert (Hz : Z.of_nat i * chunk = Z.of_nat (i * Z.to_nat chunk))
    by (rewrite <- Eo, Z2Nat.id; nia).
  rewrite Z.gtb_ltb.
  destruct (Z.ltb_spec (Z.of_nat (List.length data))
              (Z.of_nat i * chunk + chunk)) as [Hlt|Hge]; [|reflexivity].
  rewrite !firstn_all2; [reflexivity | |]; rewrite length_skipn; lia.
Qed.

Lemma concat_chunks (data : list byte) (chunk : Z) (m : nat) :
  1 <= chunk ->
  ((m - 1) * Z.to_nat chunk <= List.length data)%nat ->
  List.concat (map (chunk_at data chunk) (List.seq 0 m))
  = firstn (m * Z.to_nat chunk) data.
Proof.
  intro Hc. induction m as [|m IH]; intro Hm; [reflexivity|].
  rewrite seq_S, map_app, concat_app. cbn [map List.concat Nat.add].
  rewrite app_nil_r.
  assert (Hm' : (m * Z.to_nat chunk <= List.length data)%nat).
  { replace (S m - 1)%nat with m in Hm by lia. exact Hm. }
  rewrite IH by nia.
  rewrite chunk_at_firstn by assumption.
  rewrite firstn_firstn_skipn. f_equal. lia.
Qed.

(** [total] is the file size divided by the chunk size, rounded up. *)
Lemma total_packets_ceiling (filesize chunk : Z) :
  1 <= chunk -> 0 <= filesize -> filesize + chunk - 1 < 2 ^ 64 ->
  let total := total_packets filesize chunk in
  0 <= total
  /\ (total - 1) * chunk < filesize <= total * chunk
  /\ (filesize = 0 -> total = 0).
Proof.
  intros Hc Hf Ho. cbv zeta. unfold total_packets, u64.
  rewrite Z.mod_small by lia.
  pose proof (Z.div_mod (filesize + chunk - 1) chunk ltac:(lia)) as Hd.
  pose proof (Z.mod_pos_bound (filesize + chunk - 1) chunk ltac:(lia)) as Hm.
  set (q := (filesize + chunk - 1) / chunk) in *.
  set (r := (filesize + chunk - 1) mod chunk) in *.
  split; [nia|]. split; [nia|]. intros ->. nia.
Qed.

Lemma length_chunk (data : list byte) (chunk : Z) (i : nat) :
  1 <= chunk ->
  (i * Z.to_nat chunk < List.length data)%nat ->
  (1 <= List.length (chunk_at data chunk i) <= Z.to_nat chunk)%nat.
Proof.
  intros Hc Hi. rewrite chunk_at_firstn by (assumption || lia).
  rewrite length_firstn, length_skipn. lia.
Qed.

Lemma nth_prepare_chunks (data : list byte) (chunk total : Z) (i : nat) :
  (i < Z.to_nat total)%nat ->
  nth i (prepare_chunks data chunk total) None
  = Some (chunk_at data chunk i).
Proof.
  intro Hi. unfold prepare_chunks.
  rewrite (nth_indep _ None (Some (chunk_at data chunk 0)))
    by (rewrite length_map, length_seq; exact Hi).
  rewrite (map_nth (fun i => Some (chunk_at data chunk i))).
  rewrite seq_nth by exact Hi. reflexivity.
Qed.

End ChunkFacts.

(** X14: the sender's chunks are the file, cut up.  For a chunk size of at
    least 1 (and a file size for which the rounding-up sum does not wrap):
    there are [total] chunks, [total] being the file size divided by the
    chunk size and rounded up; every chunk has at least one and at most
    [chunk] octets, so no empty DATA packet is sent; and the chunks put
    one after the other are the file. *)
Theorem chunks_partition_file (data : list byte) (chunk : Z) :
  1 <= chunk ->
  Z.of_nat (List.length data) + chunk - 1 < 2 ^ 64 ->
  let filesize := Z.of_nat (List.length data) in
  let total := Client.total_packets filesize chunk in
  (total - 1) * chunk < filesize <= total * chunk
  /\ exists parts,
       Client.prepare_chunks data chunk total = map Some parts
       /\ Z.of_nat (List.length parts) = total
       /\ Forall (fun part => 1 <= Z.of_nat (List.length part) <= chunk) parts
       /\ List.concat parts = data.
Proof.
  intros Hc Ho. cbv zeta.
  destruct (ChunkFacts.total_packets_ceiling
              (Z.of_nat (List.length data)) chunk Hc ltac:(lia) Ho)
    as (H0 & Hceil & _).
  set (total := Client.total_packets (Z.of_nat (List.length data)) chunk) in *.
  split; [exact Hceil|].
  exists (map (Client.chunk_at data chunk) (List.seq 0 (Z.to_nat total))).
  split; [unfold Client.prepare_chunks; now rewrite map_map|].
  split; [rewrite length_map, length_seq; lia|].
  split.
  - apply Forall_forall. intros part Hin.
    apply in_map_iff in Hin as (i & <- & Hi). apply in_seq in Hi.
    pose proof (ChunkFacts.length_chunk data chunk i Hc) as Hl.
    assert (Hlt : (i * Z.to_nat chunk < List.length data)%nat) by nia.
    specialize (Hl Hlt). lia.
  - rewrite ChunkFacts.concat_chunks by (assumption || nia).
    apply firstn_all2. nia.
Qed.

Lemma chunks_partition_file_witness :
  exists parts,
    Client.prepare_chunks Scenario.ten_octets 3
      (Client.total_packets 10 3) = map Some parts
    /\ Z.of_nat (List.length parts) = Client.total_packets 10 3
    /\ Forall (fun part => 1 <= Z.of_nat (List.length part) <= 3) parts
    /\ List.concat parts = Scenario.ten_octets.
Proof.
  apply (chunks_partition_file Scenario.ten_octets 3); vm_compute;
    (reflexivity || discriminate).
Defined.

(** ** Sender and receiver together: a transfer without loss *)

Module TransferFacts.
Import Util Server ServerFacts TableFacts.

(** The DATA packet for chunk [i], as the receiver decodes it. *)
Lemma data_packet_decoded (ca : Client.Args) (data : list byte) (i : nat) :
  let chunk := Client.chunk ca in
  let total := Client.total_packets (Z.of_nat (List.length data)) chunk in
  let cs := Client.prepare_chunks data chunk total in
  1 <= chunk <= 65535 ->
  Z.of_nat (List.length data) + chunk - 1 < 2 ^ 64 ->
  total <= 2 ^ 32 ->
  (i < Z.to_nat total)%nat ->
  exists q,
    Protocol.unpack
      (Protocol.pack (Client.data_packet ca total cs (Z.of_nat i)))
    = Protocol.Unpacked q
    /\ Protocol.ptype q = Protocol.PT_DATA
    /\ Protocol.seq q = Z.of_nat i
    /\ Protocol.payload q = Client.chunk_at data chunk i
    /\ Crc32.ru_crc32 (Protocol.payload q) = Protocol.checksum q.
Proof.
  intros chunk total cs Hc Ho Ht Hi.
  set (dp := Client.data_packet ca total cs (Z.of_nat i)).
  exists (Protocol.as_on_wire dp).
  split; [apply CodecFacts.unpack_pack_eq; reflexivity|].
  assert (Hpay : Protocol.payload dp = Client.chunk_at data chunk i).
  { unfold dp, Client.data_packet. cbn [Protocol.payload].
    rewrite Nat2Z.id. unfold cs.
    now rewrite ChunkFacts.nth_prepare_chunks. }
  destruct (ChunkFacts.total_packets_ceiling
              (Z.of_nat (List.length data)) chunk ltac:(lia) ltac:(lia) Ho)
    as (H0 & Hceil & _). fold total in H0, Hceil.
  assert (Hlen : (1 <= List.length (Client.chunk_at data chunk i)
                  <= Z.to_nat chunk)%nat).
  { apply ChunkFacts.length_chunk; [lia | nia]. }
  assert (Hps : Protocol.payload_size dp
                = Z.of_nat (List.length (Client.chunk_at data chunk i)))
    by (unfold Protocol.payload_size; now rewrite Hpay).
  unfold Protocol.as_on_wire. cbn [Protocol.ptype Protocol.seq
    Protocol.payload Protocol.checksum].
  rewrite Hps, Hpay.
  rewrite (Z.mod_small (Z.of_nat (List.length _))) by lia.
  rewrite Nat2Z.id, firstn_all.
  split; [reflexivity|]. split.
  { unfold dp, Client.data_packet. cbn [Protocol.seq]. unfold u32.
    rewrite Z.mod_mod by lia. apply Z.mod_small. lia. }
  split; [reflexivity|].
  unfold Protocol.wire_checksum. rewrite Hps, Hpay.
  change (Protocol.ptype dp) with Protocol.PT_DATA.
  change (Protocol.checksum dp) with 0.
  change (Byte.eqb Protocol.PT_DATA Protocol.PT_DATA) with true.
  cbn [andb Z.eqb].
  destruct (Z.ltb_spec 0
              (Z.of_nat (List.length (Client.chunk_at data chunk i))));
    [|lia].
  pose proof (ru_crc32_u32 (Client.chunk_at data chunk i)).
  rewrite Z.mod_small by lia. reflexivity.
Qed.

(** Delivering the chunks [from], ..., [from + count - 1] in order to a
    session that expects [from]. *)
Lemma in_order_run (sa : Args) (ca : Client.Args) (data k : list byte)
  (clock : Z) (count : nat) :
  let chunk := Client.chunk ca in
  let total := Client.total_packets (Z.of_nat (List.length data)) chunk in
  1 <= chunk <= 65535 ->
  Z.of_nat (List.length data) + chunk - 1 < 2 ^ 64 ->
  total <= 2 ^ 32 ->
  forall (from : nat) (st : State) (s : Session),
    (from + count <= Z.to_nat total)%nat ->
    find_session (sessions st) k = Some s ->
    expected s = Z.of_nat from -> received s = Z.of_nat from ->
    let r := run sa st (Transfer.in_order ca data k clock from count) in
    exists s',
      find_session (sessions (fst r)) k = Some s'
      /\ ofs s'
         = ofs s ++ List.concat
                      (map (Client.chunk_at data chunk) (List.seq from count))
      /\ expected s' = Z.of_nat (from + count)
      /\ received s' = Z.of_nat (from + count)
      /\ snd r
         = map (fun i =>
                  (k, Protocol.mkPacket Protocol.MAGIC0 Protocol.MAGIC1
                        Protocol.VERSION
                        Protocol.PT_ACK (Z.of_nat i) 0 0 0 0 []))
             (List.seq from count).
Proof.
  intros chunk total Hc Ho Ht.
  induction count as [|count IH]; intros from st s Hle F He Hr; cbv zeta.
  - exists s. cbn. rewrite app_nil_r, Nat.add_0_r.
    repeat split; assumption.
  - unfold Transfer.in_order. cbn [List.seq map run].
    fold chunk. fold total.
    assert (Hlt : (from < Z.to_nat total)%nat) by lia.
    destruct (data_packet_decoded ca data from Hc Ho Ht Hlt)
      as (q & U & T & Hseq & Hpay & Hcrc).
    fold chunk in U, Hpay. fold total in U.
    set (e := Datagram k _ clock clock true).
    assert (Hstep : server_step sa st e
                    = (mkState
                         (update_session (fun _ => after_data q clock s)
                            (sessions st) k) (last_cleanup st),
                       [(k, ack_packet (expected (after_data q clock s)))])).
    { unfold e. cbn [server_step]. rewrite U, T.
      change (Byte.eqb Protocol.PT_DATA Protocol.PT_HANDSHAKE) with false.
      change (Byte.eqb Protocol.PT_DATA Protocol.PT_DATA) with true.
      cbv iota. rewrite (on_data_found st k q clock s F), Hcrc, Z.eqb_refl.
      reflexivity. }
    rewrite Hstep.
    set (s1 := after_data q clock s) in *.
    assert (E1 : s1 = commit (Client.chunk_at data chunk from)
                        (touch clock s)).
    { unfold s1, after_data. rewrite Hseq, He, Z.eqb_refl, Hpay.
      reflexivity. }
    assert (Hfrom : Z.of_nat from < 2 ^ 32) by lia.
    assert (He1 : expected s1 = Z.of_nat (S from)).
    { rewrite E1. cbn [commit touch expected]. rewrite He. unfold u64.
      rewrite Z.mod_small by lia. lia. }
    assert (Hr1 : received s1 = Z.of_nat (S from)).
    { rewrite E1. cbn [commit touch received]. rewrite Hr. unfold u64.
      rewrite Z.mod_small by lia. lia. }
    assert (F1 : find_session
                   (update_session (fun _ => s1) (sessions st) k) k
                 = Some s1).
    { apply (find_update_session (fun _ => s1) _ _ s F).
      apply key_after_data. }
    specialize (IH (S from)
                  (mkState (update_session (fun _ => s1) (sessions st) k)
                     (last_cleanup st)) s1 ltac:(lia) F1 He1 Hr1).
    cbv zeta in IH. unfold Transfer.in_order in IH.
    fold chunk in IH. fold total in IH.
    destruct (run sa _ _) as [st2 out2].
    destruct IH as (s' & F' & Ho' & He' & Hr' & Hout).
    cbn [fst snd] in *. exists s'.
    split; [exact F'|]. split.
    { rewrite Ho', E1. cbn [commit touch ofs]. now rewrite <- app_assoc. }
    split; [rewrite He'; f_equal; lia|].
    split; [rewrite Hr'; f_equal; lia|].
    rewrite Hout. cbn [app]. f_equal. f_equal.
    unfold ack_packet, cumulative_ack. rewrite ack_seq_small by lia.
    f_equal. lia.
Qed.

End TransferFacts.

(** X15: a transfer without loss.  A receiver holds a fresh session for
    the peer ([expected = received = 0]); the sender's DATA packets for a
    file arrive in order, as the sender packs them, the chunk size being
    between 1 and 65535 and the number of packets at most [2^32].  Then
    the session's sink has grown by exactly the octets of the file, its
    [expected] and [received] are the number of packets, and the replies
    are the ACKs 0, 1, ..., [total - 1] in this order. *)
Theorem transfer_delivers_file (sa : Server.Args) (ca : Client.Args)
  (data k : list byte) (clock : Z) (st : Server.State) (s : Server.Session) :
  let chunk := Client.chunk ca in
  let total := Client.total_packets (Z.of_nat (List.length data)) chunk in
  1 <= chunk <= 65535 ->
  Z.of_nat (List.length data) + chunk - 1 < 2 ^ 64 ->
  total <= 2 ^ 32 ->
  Server.find_session (Server.sessions st) k = Some s ->
  Server.expected s = 0 -> Server.received s = 0 ->
  let r :=
    Server.run sa st
      (Transfer.in_order ca data k clock 0 (Z.to_nat total)) in
  exists s',
    Server.find_session (Server.sessions (fst r)) k = Some s'
    /\ Server.ofs s' = Server.ofs s ++ data
    /\ Server.expected s' = total
    /\ Server.received s' = total
    /\ snd r
       = map (fun i =>
                (k, Protocol.mkPacket Protocol.MAGIC0 Protocol.MAGIC1
                      Protocol.VERSION
                      Protocol.PT_ACK (Z.of_nat i) 0 0 0 0 []))
           (List.seq 0 (Z.to_nat total)).
Proof.
  intros chunk total Hc Ho Ht F He Hr. cbv zeta.
  destruct (ChunkFacts.total_packets_ceiling
              (Z.of_nat (List.length data)) chunk ltac:(lia) ltac:(lia) Ho)
    as (H0 & Hceil & _). fold total in H0, Hceil.
  destruct (TransferFacts.in_order_run sa ca data k clock (Z.to_nat total)
              Hc Ho Ht 0%nat st s (Nat.le_refl _) F He Hr)
    as (s' & F' & Ho' & He' & Hr' & Hout).
  fold chunk in Ho'. fold total in F', He', Hr', Hout.
  exists s'. split; [exact F'|]. split.
  { rewrite Ho'. f_equal.
    rewrite ChunkFacts.concat_chunks by (lia || nia).
    apply firstn_all2. nia. }
  split; [rewrite He'; cbn [Nat.add]; lia|].
  split; [rewrite Hr'; cbn [Nat.add]; lia | exact Hout].
Qed.

(** The ten packets of [Scenario.ten_octets] after its handshake. *)
Lemma transfer_delivers_file_witness :
  exists s',
    Server.find_session
      (Server.sessions
         (fst (Server.run Scenario.args
                 (Server.state_after Scenario.args 0 Scenario.ten_announced)
                 (Transfer.in_order Scenario.sender Scenario.ten_octets
                    Scenario.peer 7 0 10))))
      Scenario.peer = Some s'
    /\ Server.ofs s' = Scenario.ten_octets
    /\ Server.expected s' = 10.
Proof.
  destruct (transfer_delivers_file Scenario.args Scenario.sender
              Scenario.ten_octets Scenario.peer 7
              (Server.state_after Scenario.args 0 Scenario.ten_announced)
              (Server.new_session Scenario.args Scenario.peer
                 (Server.metadata
                    (Client.handshake_packet Scenario.sender 10 10))
                 1000 1000)
              ltac:(vm_compute; split; discriminate)
              ltac:(vm_compute; reflexivity)
              ltac:(vm_compute; discriminate)
              ltac:(vm_compute; reflexivity)
              eq_refl eq_refl)
    as (s' & F & Ho & He & _).
  exists s'. split; [exact F|]. split; [exact Ho | exact He].
Defined.

Lemma one_session_per_peer_witness :
  NoDup (map Server.key
           (Server.sessions
              (Server.state_after Scenario.args 0 Scenario.two_of_two))).
Proof.
  apply (one_session_per_peer Scenario.args 0 Scenario.two_of_two).
  vm_compute. reflexivity.
Defined.

(** A DATA packet for a receiver that has just started. *)
Lemma unknown_peer_is_answered_witness :
  Server.server_step Scenario.args (Server.initial 0)
    (Server.Datagram Scenario.peer (Scenario.data 0 2 "hi") 1000 1000 true)
  = (Server.initial 0,
     [(Scenario.peer,
       Protocol.mkPacket Protocol.MAGIC0 Protocol.MAGIC1 Protocol.VERSION
         Protocol.PT_ERROR 0 0 0 0 0 (Util.cstr "no session"))]).
Proof.
  apply (unknown_peer_is_answered Scenario.args (Server.initial 0)
           Scenario.peer (Scenario.data 0 2 "hi") Scenario.first_data
           1000 1000 true); reflexivity.
Defined.

(** A FIN after the two packets of [Scenario.two_of_two]. *)
Lemma fin_ends_session_witness :
  Server.find_session
    (Server.sessions
       (fst (Server.server_step Scenario.args
               (Server.state_after Scenario.args 0 Scenario.two_of_two)
               (Server.Datagram Scenario.peer
                  (Protocol.pack (Protocol.blank Protocol.PT_FIN))
                  1000 1000 true))))
    Scenario.peer = None.
Proof.
  apply (fin_ends_session Scenario.args 0 Scenario.two_of_two Scenario.peer
           (Protocol.pack (Protocol.blank Protocol.PT_FIN))
           (Protocol.blank Protocol.PT_FIN) 1000 1000 true);
    vm_compute; reflexivity.
Defined.

(** The peer of [Scenario.two_of_two] starts over. *)
Lemma rehandshake_replaces_session_witness :
  Server.find_session
    (Server.sessions
       (fst (Server.server_step Scenario.args
               (Server.state_after Scenario.args 0 Scenario.two_of_two)
               (Server.Datagram Scenario.peer
                  (Scenario.handshake "a.bin|4|2|2|8") 2000 2000 true))))
    Scenario.peer
  = Some (Server.new_session Scenario.args Scenario.peer
            (Server.metadata Scenario.first_handshake) 2000 2000).
Proof.
  apply (rehandshake_replaces_session Scenario.args 0 Scenario.two_of_two
           Scenario.peer (Scenario.handshake "a.bin|4|2|2|8")
           Scenario.first_handshake
           (Server.commit (Util.cstr "yo")
              (Server.touch 1000
                 (Server.commit (Util.cstr "hi")
                    (Server.touch 1000 Scenario.first_session))))
           2000 2000);
    try (vm_compute; reflexivity); try (vm_compute; discriminate).
  vm_compute. lia.
Defined.


(** Packet 0 of [Scenario.one_session] delivered twice. *)
Lemma duplicate_data_changes_nothing_witness :
  exists s1,
    Server.find_session
      (Server.sessions
         (fst (Server.server_step Scenario.args
                 (Server.state_after Scenario.args 0 Scenario.one_session)
                 (Server.Datagram Scenario.peer (Scenario.data 0 2 "hi")
                    1000 1000 true))))
      Scenario.peer = Some s1
    /\ snd (Server.server_step Scenario.args
              (fst (Server.server_step Scenario.args
                      (Server.state_after Scenario.args 0
                         Scenario.one_session)
                      (Server.Datagram Scenario.peer
                         (Scenario.data 0 2 "hi") 1000 1000 true)))
              (Server.Datagram Scenario.peer (Scenario.data 0 2 "hi")
                 1500 1500 true))
       = snd (Server.server_step Scenario.args
                (Server.state_after Scenario.args 0 Scenario.one_session)
                (Server.Datagram Scenario.peer (Scenario.data 0 2 "hi")
                   1000 1000 true)).
Proof.
  destruct (duplicate_data_changes_nothing Scenario.args 0
              Scenario.one_session Scenario.peer (Scenario.data 0 2 "hi")
              Scenario.first_data Scenario.first_session
              1000 1000 1500 1500 true true
              eq_refl eq_refl eq_refl eq_refl)
    as (s1 & F1 & _ & Hout).
  exists s1. split; [exact F1 | exact Hout].
Defined.

(** ** The sender: what it sends *)

Module SenderFacts.
Import Client.

Lemma own_data_packet_at (a : Args) (total : Z)
  (cs : list (option (list byte))) (s : Z) :
  0 <= s < total -> own_data_packet a total (data_packet a total cs s).
Proof.
  intro H. unfold own_data_packet, data_packet.
  cbn [Protocol.ptype Protocol.total Protocol.window Protocol.seq].
  repeat split. now exists s.
Qed.

Lemma fill_window_own (a : Args) (total : Z) (t : tick) (fuel : nat)
  (st : SendState) :
  in_file total st ->
  in_file total (fst (fill_window fuel a total t st))
  /\ Forall (own_data_packet a total) (snd (fill_window fuel a total t st)).
Proof.
  revert st. induction fuel as [|fuel IH]; intros st [Hb Hn].
  - cbn. split; [split; assumption | constructor].
  - cbn [fill_window].
    destruct (Z.ltb_spec (nextseq st) total) as [H1|H1];
      cbn [andb]; [|split; [split; assumption | constructor]].
    destruct (nextseq st <? base st + window a);
      [|split; [split; assumption | constructor]].
    match goal with
    | |- context [fill_window fuel a total t ?s1] =>
        destruct (IH s1) as [Hin Hout];
          [split; cbn [base nextseq]; lia|];
          destruct (fill_window fuel a total t s1) as [st2 out]
    end.
    cbn [fst snd] in *. split; [exact Hin|].
    constructor; [apply own_data_packet_at; lia | exact Hout].
Qed.

Lemma receive_ack_in_file (total : Z) (t : tick) (st : SendState) :
  in_file total st -> in_file total (receive_ack t st).
Proof.
  intros [Hb Hn]. unfold receive_ack.
  destruct (inbound t) as [[|b0 buf]|]; try (split; assumption).
  destruct (Protocol.unpack (b0 :: buf)) as [p|]; [|split; assumption].
  destruct (Byte.eqb (Protocol.ptype p) Protocol.PT_ACK);
    [|split; assumption].
  unfold on_ack.
  destruct (base st <=? Protocol.seq p); [|split; assumption].
  pose proof (Z.mod_pos_bound (Protocol.seq p + 1) (2 ^ 32) ltac:(lia)).
  destruct (u32 (Protocol.seq p + 1) =? nextseq st);
    split; cbn [base nextseq]; unfold u32; lia.
Qed.

Lemma length_free_chunks (lo hi : Z) (cs : list (option (list byte))) :
  List.length (free_chunks lo hi cs) = List.length cs.
Proof.
  unfold free_chunks.
  rewrite length_map, length_combine, length_seq. lia.
Qed.

Lemma nth_free_chunks (lo hi : Z) (cs : list (option (list byte)))
  (i : nat) (c : list byte) :
  nth i (free_chunks lo hi cs) None = Some c -> nth i cs None = Some c.
Proof.
  unfold free_chunks. generalize O as k. revert i.
  induction cs as [|x cs IH]; intros i k; cbn [List.length seq combine map].
  - destruct i; discriminate.
  - destruct i as [|i]; cbn [nth].
    + destruct ((lo <=? Z.of_nat k) && (Z.of_nat k <? hi));
        [discriminate | trivial].
    + apply IH.
Qed.

Lemma chunks_of_file_start (a : Args) (data : list byte) (total : Z) :
  chunks_of_file a data total (start (prepare_chunks data (chunk a) total)).
Proof.
  unfold chunks_of_file, start, prepare_chunks. cbn [chunks]. split.
  - now rewrite length_map, length_seq.
  - intros i c H.
    destruct (Nat.lt_ge_cases i (Z.to_nat total)) as [Hi|Hi].
    + rewrite (nth_indep _ None (Some (chunk_at data (chunk a) O))) in H
        by (rewrite length_map, length_seq; exact Hi).
      rewrite (map_nth (fun j => Some (chunk_at data (chunk a) j))) in H.
      rewrite seq_nth in H by exact Hi. cbn [Nat.add] in H.
      now injection H as <-.
    + rewrite nth_overflow in H; [discriminate|].
      now rewrite length_map, length_seq.
Qed.

Lemma file_packet_at (a : Args) (data : list byte) (total : Z)
  (cs : list (option (list byte))) (s : Z) (c : list byte) :
  0 <= s < total ->
  nth (Z.to_nat s) cs None = Some c ->
  c = chunk_at data (chunk a) (Z.to_nat s) ->
  file_packet a data total (data_packet a total cs s).
Proof.
  intros Hs Hc E. exists s. split; [exact Hs|].
  unfold data_packet. rewrite Hc, E. reflexivity.
Qed.

(** The packets of the inner loop up to the first freed chunk. *)
Lemma fill_window_whole (a : Args) (data : list byte) (total : Z) (t : tick)
  (fuel : nat) :
  forall st : SendState,
    in_file total st ->
    chunks_of_file a data total st ->
    Forall (file_packet a data total)
      (before_freed (chunks st) (Z.to_nat (nextseq st))
         (snd (fill_window fuel a total t st))).
Proof.
  induction fuel as [|fuel IH]; intros st [Hb Hn] Hc; cbn [fill_window].
  - constructor.
  - destruct (Z.ltb_spec (nextseq st) total) as [H1|H1]; cbn [andb];
      [|constructor].
    destruct (nextseq st <? base st + window a); [|constructor].
    match goal with
    | |- context [fill_window fuel a total t ?s1] =>
        specialize (IH s1); destruct (fill_window fuel a total t s1)
          as [st2 out]
    end.
    cbn [snd before_freed chunks nextseq] in *.
    destruct (nth (Z.to_nat (nextseq st)) (chunks st) None) as [c|] eqn:E;
      [|constructor].
    constructor.
    + apply (file_packet_at a data total _ _ c); [lia | exact E|].
      now apply (proj2 Hc).
    + replace (S (Z.to_nat (nextseq st))) with (Z.to_nat (nextseq st + 1))
        by lia.
      apply IH; [split; cbn [base nextseq]; lia | exact Hc].
Qed.

Lemma before_freed_all (cs : list (option (list byte)))
  (out : list Protocol.Packet) :
  forall s : nat,
    (List.length (before_freed cs s out) <? List.length out)%nat = false ->
    before_freed cs s out = out.
Proof.
  induction out as [|d out IH]; intros s H; cbn [before_freed] in *;
    [reflexivity|].
  destruct (nth s cs None); [|discriminate].
  f_equal. apply IH. exact H.
Qed.

Lemma fill_window_chunks (a : Args) (total : Z) (t : tick) (fuel : nat) :
  forall st : SendState,
    chunks (fst (fill_window fuel a total t st)) = chunks st.
Proof.
  induction fuel as [|fuel IH]; intro st; cbn [fill_window]; [reflexivity|].
  destruct ((nextseq st <? total) && (nextseq st <? base st + window a));
    [|reflexivity].
  match goal with
  | |- context [fill_window fuel a total t ?s1] =>
      specialize (IH s1); destruct (fill_window fuel a total t s1)
        as [st2 out]
  end.
  exact IH.
Qed.

Lemma receive_ack_chunks (a : Args) (data : list byte) (total : Z)
  (t : tick) (st : SendState) :
  chunks_of_file a data total st ->
  chunks_of_file a data total (receive_ack t st).
Proof.
  intros Hc. unfold receive_ack.
  destruct (inbound t) as [[|b0 buf]|]; try exact Hc.
  destruct (Protocol.unpack (b0 :: buf)) as [p|]; [|exact Hc].
  destruct (Byte.eqb (Protocol.ptype p) Protocol.PT_ACK); [|exact Hc].
  unfold on_ack. destruct (base st <=? Protocol.seq p); [|exact Hc].
  destruct Hc as [Hl Hc].
  destruct (u32 (Protocol.seq p + 1) =? nextseq st);
    (split; cbn [chunks];
     [rewrite length_free_chunks; exact Hl
     | intros i c H; apply Hc; now apply nth_free_chunks in H]).
Qed.

Lemma retransmit_file (a : Args) (data : list byte) (total : Z)
  (st : SendState) :
  in_file total st ->
  chunks_of_file a data total st ->
  Forall (file_packet a data total) (retransmit a total st).
Proof.
  intros [Hb Hn] [_ Hc]. unfold retransmit. apply Forall_forall.
  intros p Hin. apply in_flat_map in Hin as (i & Hi & Hp).
  apply in_seq in Hi.
  destruct (nth (Z.to_nat (base st + Z.of_nat i)) (chunks st) None)
    as [c|] eqn:E; [|destruct Hp].
  destruct Hp as [<-|[]].
  apply (file_packet_at a data total _ _ c); [lia | exact E|].
  now apply Hc.
Qed.

(** Whatever arrives, every packet the send loop hands to [pack] before a
    fault is a packet of the file. *)
Lemma send_loop_file (a : Args) (data : list byte) (total : Z)
  (ticks : list tick) :
  forall st : SendState,
    in_file total st ->
    chunks_of_file a data total st ->
    Forall (file_packet a data total) (snd (send_loop a total ticks st)).
Proof.
  induction ticks as [|t ticks IH]; intros st Hin Hc; cbn [send_loop].
  - destruct (base st <? total); constructor.
  - destruct (base st <? total); [|constructor].
    pose proof (fill_window_whole a data total t
                  (Z.to_nat (total - nextseq st)) st Hin Hc) as Hw.
    pose proof (fill_window_own a total t
                  (Z.to_nat (total - nextseq st)) st Hin) as [Hin1 _].
    pose proof (fill_window_chunks a total t
                  (Z.to_nat (total - nextseq st)) st) as Hch.
    unfold gbn_turn.
    destruct (fill_window (Z.to_nat (total - nextseq st)) a total t st)
      as [st1 sent1].
    cbn [fst snd] in *.
    destruct (List.length
                (before_freed (chunks st) (Z.to_nat (nextseq st)) sent1)
              <? List.length sent1)%nat eqn:W; [exact Hw|].
    rewrite (before_freed_all _ _ _ W) in Hw.
    destruct (frees_beyond total t st1); [exact Hw|].
    assert (Hc1 : chunks_of_file a data total st1).
    { unfold chunks_of_file. rewrite Hch. exact Hc. }
    pose proof (receive_ack_in_file total t st1 Hin1) as Hin2.
    pose proof (receive_ack_chunks a data total t st1 Hc1) as Hc2.
    destruct (timed_out a t (receive_ack t st1)).
    + destruct (max_retries a <? retries (receive_ack t st1) + 1);
        [exact Hw|].
      match goal with
      | |- context [send_loop a total ticks ?s2] =>
          specialize (IH s2 Hin2 Hc2);
            destruct (send_loop a total ticks s2) as [r out']
      end.
      cbn [snd] in *.
      repeat (apply Forall_app; split); try assumption.
      now apply retransmit_file.
    + specialize (IH _ Hin2 Hc2).
      destruct (send_loop a total ticks (receive_ack t st1)) as [r out'].
      cbn [snd] in *. apply Forall_app. split; assumption.
Qed.

End SenderFacts.

(** X16: whatever arrives during the send loop (stray or damaged ACKs
    included), every packet the loop hands to [pack], up to the end of
    the loop or the first fault, is a DATA packet of the file: it has the
    sequence number [s] of one of the [total] chunks, never one at or
    beyond [total], the sender's total and window, a zero checksum field
    for [pack] to fill in, and as payload the octets of the file at chunk
    [s]. *)
Theorem sender_sends_only_own_packets (a : Client.Args) (data : list byte)
  (total : Z) (ticks : list Client.tick) :
  Forall (Client.file_packet a data total)
    (snd (Client.send_loop a total ticks
            (Client.start (Client.prepare_chunks data (Client.chunk a) total)))).
Proof.
  destruct (Z.le_gt_cases 0 total) as [H|H].
  - apply SenderFacts.send_loop_file.
    + split; cbn [Client.start Client.base Client.nextseq]; lia.
    + apply SenderFacts.chunks_of_file_start.
  - destruct ticks as [|t ticks]; cbn [Client.send_loop Client.start
                                         Client.base];
      (destruct (Z.ltb_spec 0 total); [lia | constructor]).
Qed.

(** Ten packets, a window of four; in the first turn an ACK for packet 7
    arrives, which was not sent: packets 0 to 3 were sent, packets 0 to 7
    are freed, and the next turn would send the freed packet 4, where the
    loop is left with the fault. *)
Lemma sender_sends_only_own_packets_witness :
  Client.send_loop Scenario.sender 10
    [Scenario.stray_ack; Scenario.silence]
    (Client.start (Client.prepare_chunks Scenario.ten_octets 1 10))
  = (Client.Faulted Client.FreedChunkSent,
     map (fun s =>
            Protocol.mkPacket Protocol.MAGIC0 Protocol.MAGIC1
              Protocol.VERSION Protocol.PT_DATA s 10 0 4 0
              (Client.chunk_at Scenario.ten_octets 1 (Z.to_nat s)))
       [0; 1; 2; 3])
  /\ Forall (Client.file_packet Scenario.sender Scenario.ten_octets 10)
       (snd (Client.send_loop Scenario.sender 10
               [Scenario.stray_ack; Scenario.silence]
               (Client.start
                  (Client.prepare_chunks Scenario.ten_octets 1 10)))).
Proof.
  split; [vm_compute; reflexivity|].
  apply (sender_sends_only_own_packets Scenario.sender Scenario.ten_octets
           10 [Scenario.stray_ack; Scenario.silence]).
Defined.

(** X17: the retry loop of the handshake and of the FIN.  The request is
    sent once per attempt.  An attempt is acknowledged when a datagram of
    the awaited type is received while [ms_since(t0)] is below
    [(uint64_t)timeout_ms]; it times out when the time is found up before
    that.  With [n] attempts allowed the loop succeeds exactly when an
    attempt is acknowledged after those before it timed out, having sent
    one copy per attempt up to that one; it fails exactly when [n]
    attempts time out, after [n] copies (none for [n = 0]); and it is
    still waiting, after one copy per attempt so far, when the polls
    given end while a wait goes on.  With a timeout of 0 no wait reads a
    datagram, so the loop never succeeds; with a negative timeout the
    bound is at least [2^64 - 2^31] ms, so as long as the clock stays
    below it the loop never fails and sends a single copy. *)
Theorem request_retries_until_answered (n : nat) (timeout : Z)
  (pkt : Protocol.Packet) (reply : byte) (attempts : list Client.attempt) :
  let r := Client.request n timeout pkt reply attempts in
  let att m := nth m attempts Client.no_attempt in
  (forall i,
      (i < n)%nat ->
      (forall m, (m < i)%nat -> Client.unanswered timeout reply (att m)) ->
      Client.acknowledged timeout reply (att i) ->
      r = (Some true, repeat pkt (S i)))
  /\ ((forall m, (m < n)%nat -> Client.unanswered timeout reply (att m)) ->
      r = (Some false, repeat pkt n))
  /\ (forall i,
        (i < n)%nat ->
        (forall m, (m < i)%nat -> Client.unanswered timeout reply (att m)) ->
        Client.still_waiting timeout reply (att i) ->
        r = (None, repeat pkt (S i)))
  /\ (fst r = Some true ->
      exists i, (i < n)%nat
        /\ (forall m, (m < i)%nat ->
              Client.unanswered timeout reply (att m))
        /\ Client.acknowledged timeout reply (att i))
  /\ (fst r = Some false ->
      forall m, (m < n)%nat -> Client.unanswered timeout reply (att m))
  /\ (timeout = 0 -> fst r <> Some true)
  /\ (- 2 ^ 31 <= timeout < 0 ->
      Forall (fun a =>
                Forall (fun q =>
                          u64 (Client.poll_clock q - Client.attempt_t0 a)
                          < 2 ^ 64 - 2 ^ 31)
                  (Client.attempt_polls a)) attempts ->
      (0 < n)%nat ->
      fst r <> Some false /\ snd r = [pkt]).
Proof.
  cbv zeta.
  pose proof (ClientFacts.request_cases timeout pkt reply n attempts) as Hc.
  split; [intros i; apply ClientFacts.request_answered|].
  split; [apply ClientFacts.request_unanswered|].
  split; [intros i; apply ClientFacts.request_waiting|].
  split; [intro E; rewrite E in Hc; exact Hc|].
  split; [intro E; rewrite E in Hc; exact Hc|].
  split.
  - intros -> E. rewrite E in Hc.
    destruct Hc as (i & _ & _ & before & q & after & _ & _ & Hq & _).
    unfold Client.in_time in Hq.
    pose proof (Z.mod_pos_bound
                  (Client.poll_clock q
                   - Client.attempt_t0 (nth i attempts Client.no_attempt))
                  (2 ^ 64) ltac:(lia)).
    unfold u64 in Hq. rewrite (Z.mod_small 0) in Hq by lia. lia.
  - intros Ht Hall Hn.
    destruct n as [|n]; [lia|]. cbn [Client.request].
    destruct attempts as [|a0 rest]; [split; [discriminate | reflexivity]|].
    pose proof (ClientFacts.wait_of timeout reply a0) as Hw.
    destruct (Client.wait timeout (Client.attempt_t0 a0) reply
                (Client.attempt_polls a0));
      try (split; [discriminate | reflexivity]).
    exfalso. destruct Hw as (before & q & after & E & _ & Hq).
    apply Hq. unfold Client.in_time.
    pose proof (Forall_inv Hall) as H0. cbv beta in H0. rewrite E in H0.
    apply Forall_app in H0 as [_ H0]. apply Forall_inv in H0.
    assert (Eu : u64 timeout = 2 ^ 64 + timeout).
    { unfold u64. symmetry. apply (Z.mod_unique _ _ (-1)); lia. }
    rewrite Eu. lia.
Qed.

(** Two attempts: the first times out, the second is acknowledged. *)
Lemma request_retries_until_answered_witness :
  Client.request 20 300 (Protocol.blank Protocol.PT_FIN) Protocol.PT_FIN_ACK
    [Scenario.expiring; Scenario.replied (Protocol.blank Protocol.PT_FIN_ACK)]
  = (Some true, repeat (Protocol.blank Protocol.PT_FIN) 2).
Proof.
  refine (proj1 (request_retries_until_answered 20 300
                   (Protocol.blank Protocol.PT_FIN) Protocol.PT_FIN_ACK
                   [Scenario.expiring;
                    Scenario.replied (Protocol.blank Protocol.PT_FIN_ACK)])
            1%nat _ _ _).
  - lia.
  - intros m Hm. assert (m = 0%nat) as -> by lia. times_out.
  - is_acknowledged.
Defined.

(** X18: what [main] does before a handshake is acknowledged.  With a
    chunk size of 0 it ends at the division that computes [total],
    before anything is sent.  Otherwise, if all [max_retries] attempts of
    the handshake time out, it ends with exit code 2 after sending
    exactly [max_retries] copies of the handshake packet, and no DATA and
    no FIN; and while a wait of the handshake goes on it has sent nothing
    but one copy of the handshake per attempt. *)
Theorem no_transfer_without_handshake_ack (a : Client.Args)
  (data : list byte) (env : Client.Env) :
  let hs :=
    Client.handshake_packet a (Z.of_nat (List.length data))
      (Client.total_packets (Z.of_nat (List.length data)) (Client.chunk a)) in
  let n := Z.to_nat (Client.max_retries a) in
  let ms := Client.timeout_ms a in
  let hs_wait m := nth m (Client.handshake_waits env) Client.no_attempt in
  (Client.chunk a = 0 -> Client.main a data env = (Client.DivisionByZero, []))
  /\ (Client.chunk a <> 0 ->
      (forall m, (m < n)%nat ->
         Client.unanswered ms Protocol.PT_HANDSHAKE_ACK (hs_wait m)) ->
      Client.main a data env = (Client.Exit 2, repeat hs n))
  /\ (Client.chunk a <> 0 ->
      forall i,
        (i < n)%nat ->
        (forall m, (m < i)%nat ->
           Client.unanswered ms Protocol.PT_HANDSHAKE_ACK (hs_wait m)) ->
        Client.still_waiting ms Protocol.PT_HANDSHAKE_ACK (hs_wait i) ->
        Client.main a data env = (Client.Blocked, repeat hs (S i)))
  /\ Protocol.ptype hs = Protocol.PT_HANDSHAKE.
Proof.
  cbv zeta. split; [|split; [|split; [|reflexivity]]].
  - intro E. unfold Client.main. rewrite E. reflexivity.
  - intros Hz Hall. unfold Client.main.
    destruct (Z.eqb_spec (Client.chunk a) 0) as [E|_]; [contradiction|].
    cbv zeta.
    now rewrite (ClientFacts.request_unanswered _ _ _ _ _ Hall).
  - intros Hz i Hi Hb Hw. unfold Client.main.
    destruct (Z.eqb_spec (Client.chunk a) 0) as [E|_]; [contradiction|].
    cbv zeta.
    now rewrite (ClientFacts.request_waiting _ _ _ i _ _ Hi Hb Hw).
Qed.

(** A file of ten octets and a network that delivers nothing: twenty
    handshakes, then exit code 2. *)
Lemma no_transfer_without_handshake_ack_witness :
  Client.main Scenario.sender Scenario.ten_octets Scenario.quiet
  = (Client.Exit 2,
     repeat
       (Client.handshake_packet Scenario.sender
          (Z.of_nat (List.length Scenario.ten_octets))
          (Client.total_packets (Z.of_nat (List.length Scenario.ten_octets))
             (Client.chunk Scenario.sender)))
       (Z.to_nat (Client.max_retries Scenario.sender))).
Proof.
  refine (proj1 (proj2 (no_transfer_without_handshake_ack Scenario.sender
                          Scenario.ten_octets Scenario.quiet)) _ _).
  - vm_compute. discriminate.
  - intros m Hm.
    assert (E : nth m (Client.handshake_waits Scenario.quiet)
                  Client.no_attempt = Scenario.expiring).
    { change (Z.to_nat (Client.max_retries Scenario.sender)) with 20%nat
        in Hm.
      do 20 (destruct m as [|m]; [reflexivity|]). lia. }
    rewrite E. times_out.
Defined.

Module WindowFacts.
Import Client ClientFacts.

Lemma gbn_loop_window (a : Args) (total : Z) (ticks : list tick)
  (st : SendState) :
  total < 2 ^ 32 -> 0 <= window a ->
  window_invariant a total st ->
  acks_for_sent a total ticks st ->
  match fst (gbn_loop a total ticks st) with
  | Completed st' => base st' = total /\ nextseq st' = total
  | Running st' => window_invariant a total st' /\ base st' < total
  | GaveUp => True
  end.
Proof.
  intros Ht Hw. revert st.
  induction ticks as [|t ticks IH]; intros st Inv Hack; cbn [gbn_loop].
  - destruct (Z.ltb_spec (base st) total); cbn [fst].
    + split; assumption.
    + destruct Inv. lia.
  - destruct (Z.ltb_spec (base st) total) as [Hlt|Hge]; cbn [fst].
    + cbn [acks_for_sent] in Hack. destruct (Hack Hlt) as [H1 Hrest].
      pose proof (gbn_turn_keeps_window a total t st) as Hk.
      destruct (gbn_turn a total t st) as [[st'|] out]; [|exact I].
      specialize (IH st' (Hk st' out Ht Hw Inv H1 eq_refl) Hrest).
      destruct (gbn_loop a total ticks st') as [r out']. exact IH.
    + destruct Inv. lia.
Qed.

End WindowFacts.

(** X19: with ACKs for sent packets only, the send loop keeps its window.
    For fewer than [2^32] packets: if every ACK that arrives acknowledges
    a packet sent before, then when the ticks given are used up the state
    satisfies [base <= nextseq <= min (base + window) total], and the loop
    is left only with [base = nextseq = total], every packet sent and
    acknowledged. *)
Theorem acked_packets_keep_window (a : Client.Args) (total : Z)
  (ticks : list Client.tick) (cs : list (option (list byte))) :
  0 <= total < 2 ^ 32 -> 0 <= Client.window a ->
  Client.acks_for_sent a total ticks (Client.start cs) ->
  match fst (Client.gbn_loop a total ticks (Client.start cs)) with
  | Client.Completed st =>
      Client.base st = total /\ Client.nextseq st = total
  | Client.Running st =>
      Client.window_invariant a total st /\ Client.base st < total
  | Client.GaveUp => True
  end.
Proof.
  intros Ht Hw Hack. apply WindowFacts.gbn_loop_window; try assumption;
    try lia.
  unfold Client.window_invariant, Client.start.
  cbn [Client.base Client.nextseq]. lia.
Qed.

(** The ten packets of [Scenario.ten_octets], acknowledged up to 3, 7, 9. *)
Lemma acked_packets_keep_window_witness :
  match
    fst (Client.gbn_loop Scenario.sender 10
           [Scenario.ack_arrives 3; Scenario.ack_arrives 7;
            Scenario.ack_arrives 9]
           (Client.start (Client.prepare_chunks Scenario.ten_octets 1 10)))
  with
  | Client.Completed st =>
      Client.base st = 10 /\ Client.nextseq st = 10
  | Client.Running st =>
      Client.window_invariant Scenario.sender 10 st /\ Client.base st < 10
  | Client.GaveUp => True
  end.
Proof.
  apply (acked_packets_keep_window Scenario.sender 10
           [Scenario.ack_arrives 3; Scenario.ack_arrives 7;
            Scenario.ack_arrives 9]
           (Client.prepare_chunks Scenario.ten_octets 1 10)).
  - lia.
  - vm_compute. discriminate.
  - cbn [Client.acks_for_sent]. intros _. split.
    { intros buf p Hb Hu _. vm_compute in Hb. injection Hb as <-.
      vm_compute in Hu. injection Hu as <-. vm_compute. reflexivity. }
    vm_compute. intros _. split.
    { intros buf p Hb Hu _. injection Hb as <-.
      vm_compute in Hu. injection Hu as <-. vm_compute. reflexivity. }
    intros _. split; [|exact I].
    intros buf p Hb Hu _. injection Hb as <-.
    vm_compute in Hu. injection Hu as <-. vm_compute. reflexivity.
Defined.

Module FaultFacts.
Import Client ClientFacts.

Lemma nth_free_chunks_outside (lo hi : Z) (cs : list (option (list byte)))
  (i : nat) :
  Z.of_nat i < lo \/ hi <= Z.of_nat i ->
  nth i (free_chunks lo hi cs) None = nth i cs None.
Proof.
  unfold free_chunks.
  assert (G : forall k j,
             Z.of_nat (k + j) < lo \/ hi <= Z.of_nat (k + j) ->
             nth j
               (map (fun ic : nat * option (list byte) =>
                       let (n, c) := ic in
                       if (lo <=? Z.of_nat n) && (Z.of_nat n <? hi)
                       then None else c)
                  (combine (List.seq k (List.length cs)) cs)) None
             = nth j cs None).
  { induction cs as [|x cs IH]; intros k j H;
      cbn [List.length seq combine map]; [destruct j; reflexivity|].
    destruct j as [|j]; cbn [nth].
    - rewrite Nat.add_0_r in H.
      destruct (Z.leb_spec lo (Z.of_nat k));
        destruct (Z.ltb_spec (Z.of_nat k) hi); cbn [andb]; try reflexivity.
      lia.
    - apply IH. replace (S k + j)%nat with (k + S j)%nat by lia. exact H. }
  intro H. apply (G O i). exact H.
Qed.

Lemma fill_window_kept (a : Args) (total : Z) (t : tick) (fuel : nat) :
  forall st : SendState,
    chunks_kept total st ->
    0 <= base st <= nextseq st ->
    before_freed (chunks st) (Z.to_nat (nextseq st))
      (snd (fill_window fuel a total t st))
    = snd (fill_window fuel a total t st).
Proof.
  induction fuel as [|fuel IH]; intros st Hk Hb; cbn [fill_window];
    [reflexivity|].
  destruct (Z.ltb_spec (nextseq st) total) as [H1|H1]; cbn [andb];
    [|reflexivity].
  destruct (nextseq st <? base st + window a); [|reflexivity].
  match goal with
  | |- context [fill_window fuel a total t ?s1] =>
      specialize (IH s1); destruct (fill_window fuel a total t s1)
        as [st2 out]
  end.
  cbn [snd before_freed chunks nextseq base] in *.
  destruct (nth (Z.to_nat (nextseq st)) (chunks st) None) as [c|] eqn:E.
  - f_equal.
    replace (S (Z.to_nat (nextseq st))) with (Z.to_nat (nextseq st + 1))
      by lia.
    apply IH; [exact Hk | lia].
  - exfalso. apply (Hk (Z.to_nat (nextseq st))); [lia | exact E].
Qed.

Lemma frees_within (total : Z) (t : tick) (st : SendState) :
  total < 2 ^ 32 -> nextseq st <= total ->
  acks_sent_packet t st ->
  frees_beyond total t st = false.
Proof.
  intros Ht Hn Hack. unfold frees_beyond, inbound_ack.
  destruct (inbound t) as [[|b0 buf]|] eqn:I; try reflexivity.
  destruct (Protocol.unpack (b0 :: buf)) as [p|] eqn:U; [|reflexivity].
  destruct (Byte.eqb (Protocol.ptype p) Protocol.PT_ACK) eqn:T;
    [|reflexivity].
  apply Byte.byte_dec_bl in T.
  specialize (Hack (b0 :: buf) p I U T).
  destruct (ProtocolFacts.unpack_fields _ _ U) as [Hseq _].
  cbv zeta. unfold u32. rewrite Z.mod_small by lia.
  destruct (Z.ltb_spec total (Protocol.seq p + 1)); [lia|].
  apply andb_false_r.
Qed.

Lemma receive_ack_kept (total : Z) (t : tick) (st : SendState) :
  total < 2 ^ 32 -> nextseq st <= total ->
  acks_sent_packet t st ->
  chunks_kept total st ->
  chunks_kept total (receive_ack t st).
Proof.
  intros Ht Hn Hack Hk. unfold receive_ack.
  destruct (inbound t) as [[|b0 buf]|] eqn:I; try exact Hk.
  destruct (Protocol.unpack (b0 :: buf)) as [p|] eqn:U; [|exact Hk].
  destruct (Byte.eqb (Protocol.ptype p) Protocol.PT_ACK) eqn:T;
    [|exact Hk].
  apply Byte.byte_dec_bl in T.
  specialize (Hack (b0 :: buf) p I U T).
  destruct (ProtocolFacts.unpack_fields _ _ U) as [Hseq _].
  unfold on_ack.
  destruct (Z.leb_spec (base st) (Protocol.seq p)); [|exact Hk].
  assert (E : u32 (Protocol.seq p + 1) = Protocol.seq p + 1).
  { unfold u32. apply Z.mod_small. lia. }
  rewrite E.
  destruct (Protocol.seq p + 1 =? nextseq st);
    (intros i Hi; cbn [base chunks] in *;
     rewrite nth_free_chunks_outside by lia; apply Hk; lia).
Qed.

(** With ACKs for sent packets only no turn has a fault: the send loop
    is [gbn_loop]. *)
Lemma send_loop_honest (a : Args) (total : Z) (ticks : list tick) :
  total < 2 ^ 32 -> 0 <= window a ->
  forall st : SendState,
    0 <= base st ->
    window_invariant a total st ->
    chunks_kept total st ->
    acks_for_sent a total ticks st ->
    send_loop a total ticks st
    = (without_fault (fst (gbn_loop a total ticks st)),
       snd (gbn_loop a total ticks st)).
Proof.
  intros Ht Hw.
  induction ticks as [|t ticks IH]; intros st H0 Inv Hk Hack;
    cbn [send_loop gbn_loop].
  - destruct (base st <? total); reflexivity.
  - destruct (Z.ltb_spec (base st) total) as [Hlt|Hge]; [|reflexivity].
    cbn [acks_for_sent] in Hack. destruct (Hack Hlt) as [H1 Hrest].
    pose proof (gbn_turn_keeps_window a total t st) as Hkeep.
    pose proof (fill_window_fills a total t (Z.to_nat (total - nextseq st))
                  st ltac:(lia) Inv) as Hfill.
    pose proof (fill_window_kept a total t (Z.to_nat (total - nextseq st))
                  st Hk ltac:(destruct Inv; lia)) as Hwhole.
    cbv zeta in Hfill.
    assert (Hturn : forall st',
               fst (gbn_turn a total t st) = Next st' ->
               0 <= base st' /\ chunks_kept total st').
    { intros st'. unfold gbn_turn.
      destruct (fill_window (Z.to_nat (total - nextseq st)) a total t st)
        as [st1 sent1].
      cbn [fst] in *. destruct Hfill as (Fb & Fn & Fc).
      assert (Hk1 : chunks_kept total st1).
      { intros i Hi. rewrite Fc. apply Hk. lia. }
      assert (Hn1 : nextseq st1 <= total) by lia.
      pose proof (receive_ack_kept total t st1 Ht Hn1 H1 Hk1) as Hk2.
      assert (Inv1 : window_invariant a total st1).
      { destruct Inv. unfold window_invariant. lia. }
      assert (Hb2 : 0 <= base (receive_ack t st1)).
      { pose proof (SenderFacts.receive_ack_in_file total t st1
                      ltac:(split; lia)) as [Hb _]. exact Hb. }
      destruct (timed_out a t (receive_ack t st1)).
      - destruct (max_retries a <? retries (receive_ack t st1) + 1);
          cbn [fst]; [discriminate|].
        intro E. injection E as <-. split; [exact Hb2 | exact Hk2].
      - cbn [fst]. intro E. injection E as <-.
        split; [exact Hb2 | exact Hk2]. }
    assert (Hfree :
              frees_beyond total t
                (fst (fill_window (Z.to_nat (total - nextseq st)) a total t
                        st)) = false).
    { apply frees_within; [exact Ht | | exact H1].
      destruct Hfill as (_ & Fn & _). rewrite Fn. lia. }
    destruct (fill_window (Z.to_nat (total - nextseq st)) a total t st)
      as [st1 sent1] eqn:Efill.
    cbn [fst snd] in *. rewrite Hwhole, Nat.ltb_irrefl, Hfree.
    destruct (gbn_turn a total t st) as [[st'|] out] eqn:Eturn;
      [|reflexivity].
    destruct (Hturn st' eq_refl) as [Hb' Hk'].
    rewrite (IH st' Hb' (Hkeep st' out Ht Hw Inv H1 eq_refl) Hk' Hrest).
    destruct (gbn_loop a total ticks st') as [r out']. reflexivity.
Qed.

End FaultFacts.

(** X24: with ACKs for sent packets only, no turn of the send loop has a
    fault.  For fewer than [2^32] packets and the chunks of a file: if
    every ACK that arrives acknowledges a packet sent before, no freed
    chunk is sent and no [free] leaves the array, so the loop ends,
    gives up or goes on as [gbn_loop] says, having sent the same
    packets. *)
Theorem acked_packets_never_fault (a : Client.Args) (data : list byte)
  (total : Z) (ticks : list Client.tick) :
  0 <= total < 2 ^ 32 -> 0 <= Client.window a ->
  let st0 :=
    Client.start (Client.prepare_chunks data (Client.chunk a) total) in
  Client.acks_for_sent a total ticks st0 ->
  Client.send_loop a total ticks st0
  = (Client.without_fault (fst (Client.gbn_loop a total ticks st0)),
     snd (Client.gbn_loop a total ticks st0))
  /\ forall f, fst (Client.send_loop a total ticks st0) <> Client.Faulted f.
Proof.
  intros Ht Hw st0 Hack.
  assert (E : Client.send_loop a total ticks st0
              = (Client.without_fault
                   (fst (Client.gbn_loop a total ticks st0)),
                 snd (Client.gbn_loop a total ticks st0))).
  { apply FaultFacts.send_loop_honest; try assumption; try lia.
    - reflexivity.
    - unfold Client.window_invariant, st0, Client.start.
      cbn [Client.base Client.nextseq]. lia.
    - intros i Hi. unfold st0, Client.start, Client.prepare_chunks.
      cbn [Client.chunks Client.base] in *.
      rewrite (nth_indep _ None
                 (Some (Client.chunk_at data (Client.chunk a) O)))
        by (rewrite length_map, length_seq; lia).
      rewrite (map_nth (fun j => Some (Client.chunk_at data (Client.chunk a) j))).
      discriminate. }
  split; [exact E|].
  intro f. rewrite E. cbn [fst].
  destruct (fst (Client.gbn_loop a total ticks st0)); discriminate.
Qed.

(** The ten packets of [Scenario.ten_octets], acknowledged up to 3, 7, 9:
    the loop is left with every packet sent. *)
Lemma acked_packets_never_fault_witness :
  exists st,
    Client.send_loop Scenario.sender 10
      [Scenario.ack_arrives 3; Scenario.ack_arrives 7; Scenario.ack_arrives 9]
      (Client.start (Client.prepare_chunks Scenario.ten_octets 1 10))
    = (Client.Sent st,
       map (fun s =>
              Protocol.mkPacket Protocol.MAGIC0 Protocol.MAGIC1
                Protocol.VERSION Protocol.PT_DATA s 10 0 4 0
                (Client.chunk_at Scenario.ten_octets 1 (Z.to_nat s)))
         [0; 1; 2; 3; 4; 5; 6; 7; 8; 9])
    /\ Client.base st = 10.
Proof.
  destruct (acked_packets_never_fault Scenario.sender Scenario.ten_octets 10
              [Scenario.ack_arrives 3; Scenario.ack_arrives 7;
               Scenario.ack_arrives 9]) as [E _].
  - lia.
  - vm_compute. discriminate.
  - cbn [Client.acks_for_sent]. intros _. split.
    { intros buf p Hb Hu _. vm_compute in Hb. injection Hb as <-.
      vm_compute in Hu. injection Hu as <-. vm_compute. reflexivity. }
    vm_compute. intros _. split.
    { intros buf p Hb Hu _. injection Hb as <-.
      vm_compute in Hu. injection Hu as <-. vm_compute. reflexivity. }
    intros _. split; [|exact I].
    intros buf p Hb Hu _. injection Hb as <-.
    vm_compute in Hu. injection Hu as <-. vm_compute. reflexivity.
  - eexists.
    split; [refine (eq_trans E _); vm_compute; reflexivity | reflexivity].
Defined.

(** ** The sender at work *)

(** A whole run: the handshake, the ten packets, the FIN, exit code 0. *)
Example transfer_of_ten_octets :
  Client.main Scenario.sender Scenario.ten_octets Scenario.attentive
  = (Client.Exit 0,
     Client.handshake_packet Scenario.sender 10 10
       :: map (fun s =>
                 Protocol.mkPacket Protocol.MAGIC0 Protocol.MAGIC1
                   Protocol.VERSION Protocol.PT_DATA s 10 0 4 0
                   (Client.chunk_at Scenario.ten_octets 1 (Z.to_nat s)))
            [0; 1; 2; 3; 4; 5; 6; 7; 8; 9]
       ++ [Protocol.blank Protocol.PT_FIN]).
Proof. vm_compute. reflexivity. Qed.

(** An ACK for packet 20 of 10 arrives in the first turn: [free] would
    leave the array of chunks. *)
Example ack_beyond_the_file :
  Client.send_loop Scenario.sender 10 [Scenario.ack_arrives 20]
    (Client.start (Client.prepare_chunks Scenario.ten_octets 1 10))
  = (Client.Faulted Client.FreeOutOfBounds,
     map (fun s =>
            Protocol.mkPacket Protocol.MAGIC0 Protocol.MAGIC1
              Protocol.VERSION Protocol.PT_DATA s 10 0 4 0
              (Client.chunk_at Scenario.ten_octets 1 (Z.to_nat s)))
       [0; 1; 2; 3]).
Proof. vm_compute. reflexivity. Qed.

(** An ACK for the last packet, which was not sent, arrives in the first
    turn: every chunk is freed and the loop is left with six packets
    unsent. *)
Example ack_for_last_packet_ends_loop :
  Client.send_loop Scenario.sender 10 [Scenario.ack_arrives 9]
    (Client.start (Client.prepare_chunks Scenario.ten_octets 1 10))
  = (Client.Sent (Client.mkSend 10 4 0 true 0 (repeat None 10)),
     map (fun s =>
            Protocol.mkPacket Protocol.MAGIC0 Protocol.MAGIC1
              Protocol.VERSION Protocol.PT_DATA s 10 0 4 0
              (Client.chunk_at Scenario.ten_octets 1 (Z.to_nat s)))
       [0; 1; 2; 3]).
Proof. vm_compute. reflexivity. Qed.

(** [--chunk -1]: the chunk size is [2^64 - 1], the rounding-up sum wraps
    and no packet is announced for a file of ten octets. *)
Example chunk_minus_one :
  Client.chunk
    (match Cli.client_parse_args
             [Util.cstr "--file"; Util.cstr "ten.bin"; Util.cstr "--chunk";
              Util.cstr "-1"] with
     | Some a => a
     | None => Scenario.sender
     end) = 2 ^ 64 - 1
  /\ Client.total_packets 10 (2 ^ 64 - 1) = 0.
Proof. vm_compute. split; reflexivity. Qed.

(** A negative timeout: the wait of the first handshake is not over
    after an hour without an answer. *)
Example negative_timeout_waits :
  Client.request 20 (-1) (Protocol.blank Protocol.PT_HANDSHAKE)
    Protocol.PT_HANDSHAKE_ACK
    [Client.mkAttempt 1000
       [Client.mkPoll 1005 None; Client.mkPoll 3601000 None]]
  = (None, [Protocol.blank Protocol.PT_HANDSHAKE]).
Proof. vm_compute. reflexivity. Qed.

(** ** The receiver: idle sessions *)

(** X20: the idle sweep.  A turn without a datagram sends nothing.  If no
    more than 10000 ms have passed since the last sweep, it changes
    nothing.  Otherwise it records the time and keeps, in their order,
    exactly the sessions whose last activity is at most 30000 ms before
    the clock of the sweep, the difference being taken in [uint64_t]: for
    a session stamped no later than that clock this is the plain
    difference. *)
Theorem idle_sessions_are_swept (a : Server.Args) (st : Server.State)
  (now sweep : Z) :
  let r := Server.server_step a st (Server.WouldBlock now sweep) in
  snd r = []
  /\ (u64 (now - Server.last_cleanup st) <= 10000 -> fst r = st)
  /\ (10000 < u64 (now - Server.last_cleanup st) ->
      Server.last_cleanup (fst r) = now
      /\ Server.sessions (fst r)
         = filter
             (fun s => u64 (sweep - Server.last_activity s) <=? 30000)
             (Server.sessions st)
      /\ (forall s, In s (Server.sessions st) ->
            0 <= Server.last_activity s <= sweep -> sweep < 2 ^ 64 ->
            (In s (Server.sessions (fst r))
             <-> sweep - Server.last_activity s <= 30000))).
Proof.
  cbv zeta. cbn [Server.server_step].
  destruct (Z.ltb_spec 10000 (u64 (now - Server.last_cleanup st)))
    as [Hlt|Hge]; cbn [fst snd].
  - split; [reflexivity|]. split; [lia|]. intros _.
    split; [reflexivity|].
    assert (E : Server.cleanup_inactive_sessions sweep (Server.sessions st)
                = filter
                    (fun s => u64 (sweep - Server.last_activity s) <=? 30000)
                    (Server.sessions st)).
    { unfold Server.cleanup_inactive_sessions. apply filter_ext.
      intro s. rewrite Z.ltb_antisym, negb_involutive. reflexivity. }
    cbn [Server.sessions]. split; [exact E|].
    intros s Hin Hla Hs. rewrite E, filter_In, Z.leb_le.
    unfold u64. rewrite Z.mod_small by lia. tauto.
  - split; [reflexivity|]. split; [reflexivity | lia].
Qed.

(** ** Command lines *)

Module CliFacts.
Import Util Cli.

(** Induction over a command line, two tokens at a time. *)
Lemma pairs_ind (P : list (list byte) -> Prop) :
  P [] -> (forall s, P [s]) ->
  (forall s v rest, P rest -> P (s :: v :: rest)) ->
  forall argv, P argv.
Proof.
  intros H0 H1 H2 argv.
  assert (H : P argv /\ forall s, P (s :: argv)).
  { induction argv as [|x argv [IHa IHb]]; [split; [exact H0 | exact H1]|].
    split; [apply IHb|]. intro s. now apply H2. }
  apply H.
Qed.

Lemma last_cons {A : Type} (x d : A) (l : list A) :
  last (x :: l) d = last l x.
Proof.
  revert x d. induction l as [|y l IH]; intros x d; [reflexivity|].
  change (last (x :: y :: l) d) with (last (y :: l) d).
  now rewrite !IH.
Qed.

Lemma streq_true (a b : list byte) : streq a b = true -> a = b.
Proof. apply ServerFacts.streq_eq. Qed.

(** What the options of the server leave in [a], read off the command
    line. *)
Lemma server_options_spec (argv : list (list byte)) :
  forall a0,
    (server_options argv a0 <> None
     <-> Nat.even (List.length argv) = true
         /\ forallb server_flag (flags_of argv) = true)
    /\ forall a, server_options argv a0 = Some a ->
         Server.port a
         = last (map atoi (values_of (cstr "--port") argv)) (Server.port a0)
         /\ Server.outdir a
            = last (map (bounded 1024) (values_of (cstr "--out") argv))
                (Server.outdir a0)
         /\ Server.window a
            = last (map (fun v => atoi v mod 2 ^ 16)
                      (values_of (cstr "--window") argv))
                (Server.window a0).
Proof.
  induction argv as [| s | s v rest IH] using pairs_ind; intro a0.
  - cbn. split; [split; [auto | discriminate]|].
    intros a E. injection E as <-. auto.
  - cbn. split; [split; [congruence | intros [E _]; discriminate]|].
    discriminate.
  - cbn [server_options values_of flags_of forallb List.length Nat.even].
    unfold server_flag at 1.
    destruct (streq s (cstr "--port")) eqn:E1.
    { apply streq_true in E1. subst s. cbn [orb andb].
      change (streq (cstr "--port") (cstr "--out")) with false.
      change (streq (cstr "--port") (cstr "--window")) with false.
      destruct (IH (Server.mkArgs (atoi v) (Server.outdir a0)
                      (Server.window a0))) as [Hs Hv].
      split; [exact Hs|]. intros a E. destruct (Hv a E) as (Hp & Ho & Hw).
      cbn [map]. rewrite last_cons. auto. }
    destruct (streq s (cstr "--out")) eqn:E2.
    { apply streq_true in E2. subst s. cbn [orb andb].
      change (streq (cstr "--out") (cstr "--window")) with false.
      destruct (IH (Server.mkArgs (Server.port a0) (bounded 1024 v)
                      (Server.window a0))) as [Hs Hv].
      split; [exact Hs|]. intros a E. destruct (Hv a E) as (Hp & Ho & Hw).
      cbn [map]. rewrite last_cons. auto. }
    destruct (streq s (cstr "--window")) eqn:E3.
    { cbn [orb andb].
      destruct (IH (Server.mkArgs (Server.port a0) (Server.outdir a0)
                      (atoi v mod 2 ^ 16))) as [Hs Hv].
      split; [exact Hs|]. intros a E. destruct (Hv a E) as (Hp & Ho & Hw).
      cbn [map]. rewrite last_cons. auto. }
    cbn [orb andb]. split; [|discriminate].
    split; [congruence | intros [_ E]; discriminate].
Qed.

Lemma to_int_range (z : Z) : - 2 ^ 31 <= to_int z < 2 ^ 31.
Proof.
  unfold to_int. pose proof (Z.mod_pos_bound (z + 2 ^ 31) (2 ^ 32)). lia.
Qed.

Lemma length_bounded (size : nat) (s : list byte) :
  (List.length (bounded size s) <= size - 1)%nat.
Proof. unfold bounded. rewrite length_firstn. lia. Qed.

Lemma last_in_or_default {A : Type} (P : A -> Prop) (l : list A) (d : A) :
  P d -> Forall P l -> P (last l d).
Proof.
  intros Hd Hl. revert d Hd. induction Hl as [|x l Hx Hl IH]; intros d Hd;
    [exact Hd|].
  rewrite last_cons. now apply IH.
Qed.

End CliFacts.

(** X21: the command line of the receiver.  It is read as pairs of a flag
    and its value: it is accepted exactly when it has an even number of
    tokens and every token at a flag's place is [--port], [--out] or
    [--window] (so a flag at the end without a value is refused); without
    tokens the defaults are port 9000, directory [./server_data] and
    window 8; each setting is the one of the flag's last occurrence, the
    directory cut to 1023 octets and the window reduced to 16 bits. *)
Theorem server_command_line (argv : list (list byte)) :
  Cli.server_parse_args [] = Some Cli.server_defaults
  /\ (Cli.server_parse_args argv <> None
      <-> Nat.even (List.length argv) = true
          /\ forallb Cli.server_flag (Cli.flags_of argv) = true)
  /\ forall a, Cli.server_parse_args argv = Some a ->
       Server.port a
       = last (map Cli.atoi (Cli.values_of (Util.cstr "--port") argv)) 9000
       /\ Server.outdir a
          = last (map (Util.bounded 1024)
                    (Cli.values_of (Util.cstr "--out") argv))
              (Util.cstr "./server_data")
       /\ Server.window a
          = last (map (fun v => Cli.atoi v mod 2 ^ 16)
                    (Cli.values_of (Util.cstr "--window") argv)) 8
       /\ 0 <= Server.window a < 2 ^ 16
       /\ (List.length (Server.outdir a) <= 1023)%nat.
Proof.
  split; [reflexivity|].
  destruct (CliFacts.server_options_spec argv Cli.server_defaults) as [Hs Hv].
  split; [exact Hs|].
  intros a E. destruct (Hv a E) as (Hp & Ho & Hw).
  split; [exact Hp|]. split; [exact Ho|]. split; [exact Hw|]. split.
  - rewrite Hw.
    apply (CliFacts.last_in_or_default (fun w => 0 <= w < 2 ^ 16)).
    + cbn. lia.
    + apply Forall_forall. intros w Hin. apply in_map_iff in Hin as (v & <- & _).
      apply Z.mod_pos_bound. lia.
  - rewrite Ho.
    apply (CliFacts.last_in_or_default
             (fun d => (List.length d <= 1023)%nat)).
    + cbn. lia.
    + apply Forall_forall. intros d Hin. apply in_map_iff in Hin as (v & <- & _).
      apply (CliFacts.length_bounded 1024).
Qed.

Module ClientCliFacts.
Import Util Cli CliFacts.

(** Comparisons between the names of two flags are evaluated. *)
Ltac flag_names :=
  repeat match goal with
         | |- context [streq (cstr ?x) (cstr ?y)] =>
             let r := eval vm_compute in (streq (cstr x) (cstr y)) in
             change (streq (cstr x) (cstr y)) with r
         end.

Ltac option_case IH s v a0 E acc :=
  apply streq_true in E; subst s; flag_names; cbn [orb andb map];
  cbv iota;
  let Hs := fresh "Hs" in
  let Hv := fresh "Hv" in
  destruct (IH acc) as [Hs Hv];
  split; [exact Hs|];
  let a := fresh "a" in
  let Ea := fresh "Ea" in
  intros a Ea; specialize (Hv a Ea);
  cbn [Client.host Client.port Client.file Client.chunk Client.window
       Client.timeout_ms Client.max_retries] in Hv;
  rewrite ?last_cons; exact Hv.

Lemma client_options_spec (argv : list (list byte)) :
  forall a0,
    (client_options argv a0 <> None
     <-> Nat.even (List.length argv) = true
         /\ forallb client_flag (flags_of argv) = true)
    /\ forall a, client_options argv a0 = Some a ->
         Client.host a
         = last (map (bounded 256) (values_of (cstr "--host") argv))
             (Client.host a0)
         /\ Client.port a
            = last (map atoi (values_of (cstr "--port") argv))
                (Client.port a0)
         /\ Client.file a
            = last (map (bounded 1024) (values_of (cstr "--file") argv))
                (Client.file a0)
         /\ Client.chunk a
            = last (map (fun v => u64 (atol v))
                      (values_of (cstr "--chunk") argv))
                (Client.chunk a0)
         /\ Client.window a
            = last (map (fun v => atoi v mod 2 ^ 16)
                      (values_of (cstr "--window") argv))
                (Client.window a0)
         /\ Client.timeout_ms a
            = last (map atoi (values_of (cstr "--timeout") argv))
                (Client.timeout_ms a0)
         /\ Client.max_retries a
            = last (map atoi (values_of (cstr "--max-retries") argv))
                (Client.max_retries a0).
Proof.
  induction argv as [| s | s v rest IH] using pairs_ind; intro a0.
  - cbn. split; [split; [auto | discriminate]|].
    intros a E. injection E as <-. repeat split.
  - cbn. split; [split; [congruence | intros [E _]; discriminate]|].
    discriminate.
  - cbn [client_options values_of flags_of forallb List.length Nat.even].
    unfold client_flag at 1.
    destruct (streq s (cstr "--host")) eqn:E1;
      [option_case IH s v a0 E1
         (Client.mkArgs (bounded 256 v) (Client.port a0) (Client.file a0)
            (Client.chunk a0) (Client.window a0) (Client.timeout_ms a0)
            (Client.max_retries a0))|].
    destruct (streq s (cstr "--port")) eqn:E2;
      [option_case IH s v a0 E2
         (Client.mkArgs (Client.host a0) (atoi v) (Client.file a0)
            (Client.chunk a0) (Client.window a0) (Client.timeout_ms a0)
            (Client.max_retries a0))|].
    destruct (streq s (cstr "--file")) eqn:E3;
      [option_case IH s v a0 E3
         (Client.mkArgs (Client.host a0) (Client.port a0) (bounded 1024 v)
            (Client.chunk a0) (Client.window a0) (Client.timeout_ms a0)
            (Client.max_retries a0))|].
    destruct (streq s (cstr "--chunk")) eqn:E4;
      [option_case IH s v a0 E4
         (Client.mkArgs (Client.host a0) (Client.port a0) (Client.file a0)
            (u64 (atol v)) (Client.window a0) (Client.timeout_ms a0)
            (Client.max_retries a0))|].
    destruct (streq s (cstr "--window")) eqn:E5;
      [option_case IH s v a0 E5
         (Client.mkArgs (Client.host a0) (Client.port a0) (Client.file a0)
            (Client.chunk a0) (atoi v mod 2 ^ 16) (Client.timeout_ms a0)
            (Client.max_retries a0))|].
    destruct (streq s (cstr "--timeout")) eqn:E6;
      [option_case IH s v a0 E6
         (Client.mkArgs (Client.host a0) (Client.port a0) (Client.file a0)
            (Client.chunk a0) (Client.window a0) (atoi v)
            (Client.max_retries a0))|].
    destruct (streq s (cstr "--max-retries")) eqn:E7;
      [option_case IH s v a0 E7
         (Client.mkArgs (Client.host a0) (Client.port a0) (Client.file a0)
            (Client.chunk a0) (Client.window a0) (Client.timeout_ms a0)
            (atoi v))|].
    cbn [orb andb]. split; [|discriminate].
    split; [congruence | intros [_ E]; discriminate].
Qed.

End ClientCliFacts.

(** X22: the command line of the sender.  It is read as pairs of a flag
    and its value and is accepted exactly when it has an even number of
    tokens, every token at a flag's place is one of the seven flags, and
    the file name left by the last [--file] (cut to 1023 octets) is not
    empty: a command line without [--file], or with an empty one, is
    refused.  Each setting is the one of the flag's last occurrence, or
    the default; the window is reduced to 16 bits and the chunk size to a
    [size_t], and neither is checked further: a chunk size of 0 is
    accepted. *)
Theorem client_command_line (argv : list (list byte)) :
  let named :=
    last (map (Util.bounded 1024)
            (Cli.values_of (Util.cstr "--file") argv)) [] in
  (Cli.client_parse_args argv <> None
   <-> Nat.even (List.length argv) = true
       /\ forallb Cli.client_flag (Cli.flags_of argv) = true
       /\ named <> [])
  /\ forall a, Cli.client_parse_args argv = Some a ->
       Client.file a = named
       /\ Client.file a <> []
       /\ (List.length (Client.file a) <= 1023)%nat
       /\ Client.chunk a
          = last (map (fun v => u64 (Cli.atol v))
                    (Cli.values_of (Util.cstr "--chunk") argv)) 1024
       /\ 0 <= Client.chunk a < 2 ^ 64
       /\ Client.window a
          = last (map (fun v => Cli.atoi v mod 2 ^ 16)
                    (Cli.values_of (Util.cstr "--window") argv)) 8
       /\ 0 <= Client.window a < 2 ^ 16
       /\ Client.timeout_ms a
          = last (map Cli.atoi (Cli.values_of (Util.cstr "--timeout") argv))
              300
       /\ Client.max_retries a
          = last (map Cli.atoi
                    (Cli.values_of (Util.cstr "--max-retries") argv)) 20
       /\ Client.port a
          = last (map Cli.atoi (Cli.values_of (Util.cstr "--port") argv))
              9000
       /\ Client.host a
          = last (map (Util.bounded 256)
                    (Cli.values_of (Util.cstr "--host") argv))
              (Util.cstr "127.0.0.1").
Proof.
  cbv zeta.
  destruct (ClientCliFacts.client_options_spec argv Cli.client_defaults)
    as [Hs Hv].
  unfold Cli.client_parse_args.
  destruct (Cli.client_options argv Cli.client_defaults) as [a0|] eqn:E.
  - destruct (Hv a0 eq_refl) as (Hh & Hp & Hf & Hc & Hw & Ht & Hm).
    cbn [Cli.client_defaults Client.host Client.port Client.file
         Client.chunk Client.window Client.timeout_ms Client.max_retries]
      in Hh, Hp, Hf, Hc, Hw, Ht, Hm.
    assert (Hok : Nat.even (List.length argv) = true
                  /\ forallb Cli.client_flag (Cli.flags_of argv) = true)
      by (apply Hs; discriminate).
    rewrite <- Hf. split.
    + destruct (Client.file a0) eqn:Ef.
      * split; [congruence | intros (_ & _ & N); congruence].
      * split; [intros _; split; [apply Hok|split; [apply Hok|discriminate]]
               | discriminate].
    + intros a Ea. destruct (Client.file a0) as [|c f] eqn:Ef;
        [discriminate|]. injection Ea as <-.
      split; [exact Ef|]. split; [rewrite Ef; discriminate|].
      split.
      { rewrite Ef, Hf.
        apply (CliFacts.last_in_or_default
                 (fun d => (List.length d <= 1023)%nat)); [cbn; lia|].
        apply Forall_forall. intros d Hin.
        apply in_map_iff in Hin as (v & <- & _).
        apply (CliFacts.length_bounded 1024). }
      split; [exact Hc|]. split.
      { rewrite Hc.
        apply (CliFacts.last_in_or_default (fun w => 0 <= w < 2 ^ 64));
          [lia|].
        apply Forall_forall. intros w Hin.
        apply in_map_iff in Hin as (v & <- & _).
        apply Z.mod_pos_bound. lia. }
      split; [exact Hw|]. split.
      { rewrite Hw.
        apply (CliFacts.last_in_or_default (fun w => 0 <= w < 2 ^ 16));
          [lia|].
        apply Forall_forall. intros w Hin.
        apply in_map_iff in Hin as (v & <- & _).
        apply Z.mod_pos_bound. lia. }
      repeat split; assumption.
  - split; [|discriminate]. split; [congruence|].
    intros (He & Hfl & _). exfalso. apply (proj2 Hs); [now split | reflexivity].
Qed.

Module KeyFacts.
Import Util Cli DecimalFacts.

(** A number below [10 ^ k] is written with at most [k] digits. *)
Lemma utoa_digits_length (fuel : nat) :
  forall (k : nat) (n : Z) (acc : list byte),
    0 <= n < 10 ^ Z.of_nat k -> (1 <= k)%nat ->
    exists ds,
      utoa_digits fuel n acc = ds ++ acc /\ (List.length ds <= k)%nat.
Proof.
  induction fuel as [|fuel IH]; intros k n acc Hn Hk.
  - exists []. split; [reflexivity | cbn; lia].
  - cbn [utoa_digits]. cbv zeta.
    destruct (Z.eqb_spec (n / 10) 0) as [E|E].
    + exists [z2b (48 + n mod 10)]. split; [reflexivity | cbn; lia].
    + destruct k as [|k]; [lia|].
      assert (Hq : 0 < n / 10).
      { pose proof (Z.div_pos n 10 ltac:(lia) ltac:(lia)). lia. }
      destruct k as [|k].
      { change (10 ^ Z.of_nat 1) with 10 in Hn.
        rewrite Z.div_small in Hq by lia. lia. }
      assert (Hd : 0 <= n / 10 < 10 ^ Z.of_nat (S k)).
      { split; [lia|]. apply Z.div_lt_upper_bound; [lia|].
        replace (10 * 10 ^ Z.of_nat (S k)) with (10 ^ Z.of_nat (S (S k)));
          [lia|].
        rewrite (Nat2Z.inj_succ (S k)), Z.pow_succ_r by lia. reflexivity. }
      destruct (IH (S k) (n / 10) (z2b (48 + n mod 10) :: acc) Hd
                  ltac:(lia)) as (ds & Eds & Hl).
      exists (ds ++ [z2b (48 + n mod 10)]). split.
      * rewrite Eds, <- app_assoc. reflexivity.
      * rewrite length_app. cbn [List.length]. lia.
Qed.

Lemma length_utoa_below (k : nat) (n : Z) :
  0 <= n < 10 ^ Z.of_nat k -> (1 <= k)%nat ->
  (List.length (utoa n) <= k)%nat.
Proof.
  intros Hn Hk.
  destruct (utoa_digits_length 20 k n [] Hn Hk) as (ds & E & Hl).
  unfold utoa. rewrite E, app_nil_r. exact Hl.
Qed.

Lemma utoa_inj (n m : Z) :
  0 <= n < 10 ^ 20 -> 0 <= m < 10 ^ 20 -> utoa n = utoa m -> n = m.
Proof.
  intros Hn Hm E.
  rewrite <- (digits_value_utoa n Hn), <- (digits_value_utoa m Hm).
  now rewrite E.
Qed.

Lemma utoa_all_digits (n : Z) : Forall (fun c => isdigit c = true) (utoa n).
Proof. destruct (utoa_shape n) as (ds & E & Hd & _). now rewrite E. Qed.

(** A run of digits that ends at a character that is no digit is read
    in one way only. *)
Lemma digits_then_other (d1 d2 : list byte) (c1 c2 : byte)
  (r1 r2 : list byte) :
  Forall (fun c => isdigit c = true) d1 ->
  Forall (fun c => isdigit c = true) d2 ->
  isdigit c1 = false -> isdigit c2 = false ->
  d1 ++ c1 :: r1 = d2 ++ c2 :: r2 ->
  d1 = d2 /\ c1 = c2 /\ r1 = r2.
Proof.
  intros H1. revert d2. induction H1 as [|x d1 Hx H1 IH]; intros d2 H2 N1 N2 E.
  - destruct d2 as [|y d2]; cbn in E.
    + injection E as -> ->. auto.
    + injection E as -> _. pose proof (Forall_inv H2) as Hy. cbn in Hy.
      congruence.
  - destruct d2 as [|y d2]; cbn in E.
    + injection E as -> _. congruence.
    + injection E as -> E.
      destruct (IH d2 (Forall_inv_tail H2) N1 N2 E) as (-> & -> & ->). auto.
Qed.

Lemma byte_below (b : byte) : 0 <= b2z b < 10 ^ Z.of_nat 3.
Proof. pose proof (b2z_range b). change (10 ^ Z.of_nat 3) with 1000. lia. Qed.

Lemma byte_utoa_inj (a b : byte) : utoa (b2z a) = utoa (b2z b) -> a = b.
Proof.
  intro E. apply Crc32Detects.b2z_eq. pose proof (b2z_range a). pose proof (b2z_range b).
  apply utoa_inj; [lia | lia | exact E].
Qed.

(** The text of a peer's address and port, before it is put in
    [key[256]]. *)
Lemma length_peer_text (ip : byte * byte * byte * byte) (port : Z) :
  0 <= port < 65536 ->
  (List.length (inet_ntop ip ++ cstr ":" ++ utoa port) <= 21)%nat.
Proof.
  intro Hp. destruct ip as [[[a b] c] d]. unfold inet_ntop.
  change (cstr ".") with [x2e]. change (cstr ":") with [x3a].
  rewrite !length_app. cbn [List.length].
  pose proof (length_utoa_below 3 (b2z a) (byte_below a) ltac:(lia)).
  pose proof (length_utoa_below 3 (b2z b) (byte_below b) ltac:(lia)).
  pose proof (length_utoa_below 3 (b2z c) (byte_below c) ltac:(lia)).
  pose proof (length_utoa_below 3 (b2z d) (byte_below d) ltac:(lia)).
  assert (H5 : 0 <= port < 10 ^ Z.of_nat 5)
    by (change (10 ^ Z.of_nat 5) with 100000; lia).
  pose proof (length_utoa_below 5 port H5 ltac:(lia)).
  lia.
Qed.

Lemma addr_key_eq (ip : byte * byte * byte * byte) (port : Z) :
  0 <= port < 65536 ->
  addr_key ip port = inet_ntop ip ++ cstr ":" ++ utoa port.
Proof.
  intro Hp. unfold addr_key. apply HandshakeFacts.bounded_id.
  pose proof (length_peer_text ip port Hp). lia.
Qed.

End KeyFacts.

(** X23: the key of a peer, [addr_key].  For a port of 16 bits the key is
    at most 21 octets long, so it is whole in [key[256]] of [addr_key] and
    of the session, and holds no NUL; and two peers that differ in address
    or port have different keys. *)
Theorem peer_keys_are_distinct (ip1 ip2 : byte * byte * byte * byte)
  (p1 p2 : Z) :
  0 <= p1 < 65536 -> 0 <= p2 < 65536 ->
  (List.length (Cli.addr_key ip1 p1) <= 21)%nat
  /\ Util.bounded 256 (Cli.addr_key ip1 p1) = Cli.addr_key ip1 p1
  /\ ~ In x00 (Cli.addr_key ip1 p1)
  /\ (Cli.addr_key ip1 p1 = Cli.addr_key ip2 p2 -> ip1 = ip2 /\ p1 = p2).
Proof.
  intros H1 H2.
  rewrite (KeyFacts.addr_key_eq ip1 p1 H1), (KeyFacts.addr_key_eq ip2 p2 H2).
  pose proof (KeyFacts.length_peer_text ip1 p1 H1) as Hl.
  split; [exact Hl|].
  split; [apply HandshakeFacts.bounded_id; lia|].
  destruct ip1 as [[[a1 b1] c1] d1]. destruct ip2 as [[[a2 b2] c2] d2].
  unfold Cli.inet_ntop.
  change (Util.cstr ".") with [x2e]. change (Util.cstr ":") with [x3a].
  rewrite <- !app_assoc. cbn [app].
  assert (Nd : Util.isdigit x2e = false) by reflexivity.
  assert (Nc : Util.isdigit x3a = false) by reflexivity.
  split.
  - assert (N0 : forall n, ~ In x00 (Util.utoa n)).
    { intro n. apply DecimalFacts.utoa_without. left. cbn. lia. }
    repeat (apply HandshakeFacts.not_in_field;
            [apply N0 | discriminate |]).
    apply N0.
  - intro E.
    apply KeyFacts.digits_then_other in E as (Ea & _ & E);
      try apply KeyFacts.utoa_all_digits; try assumption.
    apply KeyFacts.digits_then_other in E as (Eb & _ & E);
      try apply KeyFacts.utoa_all_digits; try assumption.
    apply KeyFacts.digits_then_other in E as (Ec & _ & E);
      try apply KeyFacts.utoa_all_digits; try assumption.
    apply KeyFacts.digits_then_other in E as (Ed & _ & E);
      try apply KeyFacts.utoa_all_digits; try assumption.
    apply KeyFacts.byte_utoa_inj in Ea, Eb, Ec, Ed. subst.
    split; [reflexivity|].
    apply KeyFacts.utoa_inj; [lia | lia | exact E].
Qed.

Lemma peer_keys_are_distinct_witness :
  (List.length
     (Cli.addr_key (xc0, xa8, x00, x01) 9000) <= 21)%nat
  /\ Util.bounded 256 (Cli.addr_key (xc0, xa8, x00, x01) 9000)
     = Cli.addr_key (xc0, xa8, x00, x01) 9000
  /\ ~ In x00 (Cli.addr_key (xc0, xa8, x00, x01) 9000)
  /\ (Cli.addr_key (xc0, xa8, x00, x01) 9000
      = Cli.addr_key (xc0, xa8, x00, x02) 9000 ->
      (xc0, xa8, x00, x01) = (xc0, xa8, x00, x02) /\ 9000 = 9000).
Proof.
  apply (peer_keys_are_distinct (xc0, xa8, x00, x01) (xc0, xa8, x00, x02)
           9000 9000); lia.
Defined.
